(** * Gini impurity (notebooks/trees/gini-impurity.ipynb)

    The notebook defines one function,

<<
    def gini(y):
        _, counts = np.unique(y, return_counts=True)
        p = counts / len(y)
        return 1 - np.sum( p**2 )
>>

    This development embeds it together with the NumPy operations it calls
    ([np.unique], true division of an integer array by an integer, [**2],
    [np.sum]).  The arithmetic is kept abstract in a class [Scalar] with two
    instances: [binary64], IEEE-754 double precision with round-to-nearest-even
    (the arithmetic the notebook runs, taken from the Standard Library's
    [SpecFloat]), and [rational], exact arithmetic, which is the arithmetic the
    mathematical statements of the documentation are phrased in.

    The argument of [gini] is an array of integer labels, as in the notebook
    ([gini(np.array([0,0,0,1]))]), given by the list of its elements.  When
    [gini] is called on a Python list [y] instead, [np.unique] first stores
    the list in an array, [np_asanyarray y], and the call is
    [gini (np_asanyarray y)]: the statements about label sequences are about
    this composition.

    The statements about the binary64 result rest on an analysis of the
    rounding of [SpecFloat]'s operations: each operation of [gini] returns the
    binary64 number nearest to the exact result, and [np.sum] rounds at most
    63 times on the way from a term to the sum of up to 2^44 terms. *)

From Stdlib Require Import ZArith QArith Qpower Qabs Lia Lqa.
From Stdlib Require Import Floats.SpecFloat.
From stdpp Require Import base list sorting gmap strings.

Local Open Scope Z_scope.

(** ** Scalars *)

(** The operations of [numpy.float64] that [gini] uses. *)
Class Scalar (F : Type) := {
  of_int : Z → F;          (* conversion int64 -> float64 *)
  fneg_zero : F;           (* the constant -0.0 *)
  fadd : F → F → F;
  fsub : F → F → F;
  fmul : F → F → F;
  fdiv : F → F → F
}.

(** IEEE-754 binary64: 53 bits of precision, maximal exponent 1024. *)
Definition f64 : Type := spec_float.

#[export] Instance binary64 : Scalar f64 := {
  of_int n := binary_normalize 53 1024 n 0 false;
  fneg_zero := S754_zero true;
  fadd := SFadd 53 1024;
  fsub := SFsub 53 1024;
  fmul := SFmul 53 1024;
  fdiv := SFdiv 53 1024
}.

(** Exact rational arithmetic. *)
#[export] Instance rational : Scalar Q := {
  of_int := inject_Z;
  fneg_zero := 0%Q;
  fadd := Qplus;
  fsub := Qminus;
  fmul := Qmult;
  fdiv := Qdiv
}.

(** The rational number a finite binary64 value denotes. *)
Definition f64_to_Q (x : f64) : option Q :=
  match x with
  | S754_zero _ => Some 0%Q
  | S754_finite s m e =>
      Some (inject_Z (cond_Zopp s (Z.pos m)) * Qpower 2 e)%Q
  | _ => None
  end.

(** ** NumPy *)

Section numpy.
Context {F : Type} `{Scalar F}.

(** *** [np.unique(ar, return_counts=True)]

    [numpy.lib.arraysetops._unique1d]:
<<
    ar = np.asanyarray(ar).flatten()
    ar.sort()
    aux = ar
    mask = np.empty(aux.shape, dtype=np.bool_)
    mask[:1] = True
    mask[1:] = aux[1:] != aux[:-1]
    ret = (aux[mask],)
    idx = np.concatenate(np.nonzero(mask) + ([mask.size],))
    ret += (np.diff(idx),)
>>

    Here [ar] is an array already, which [np.asanyarray] returns as it is;
    [flatten] copies it and [sort] sorts the copy.  What [np.asanyarray]
    does to a Python list is [np_asanyarray], below. *)

Definition np_sort (ar : list Z) : list Z := merge_sort Z.le ar.

Definition unique_mask (aux : list Z) : list bool :=
  match aux with
  | [] => []
  | _ :: tl => true :: zip_with (λ a b, negb (a =? b)) tl aux
  end.

(* aux[mask] *)
Fixpoint bool_index (aux : list Z) (mask : list bool) : list Z :=
  match aux, mask with
  | x :: aux', b :: mask' =>
      if b then x :: bool_index aux' mask' else bool_index aux' mask'
  | _, _ => []
  end.

Fixpoint nonzero_from (i : Z) (mask : list bool) : list Z :=
  match mask with
  | [] => []
  | b :: mask' =>
      if b then i :: nonzero_from (i + 1) mask' else nonzero_from (i + 1) mask'
  end.

Definition np_nonzero (mask : list bool) : list Z := nonzero_from 0 mask.

Fixpoint np_diff (a : list Z) : list Z :=
  match a with
  | x :: tl => match tl with
               | y :: _ => (y - x) :: np_diff tl
               | [] => []
               end
  | [] => []
  end.

Definition unique1d (aux : list Z) : list Z * list Z :=
  let mask := unique_mask aux in
  let idx := np_nonzero mask ++ [Z.of_nat (length mask)] in
  (bool_index aux mask, np_diff idx).

Definition np_unique (ar : list Z) : list Z * list Z :=
  unique1d (np_sort ar).

(** *** [counts / n] and [p ** 2]

    True division converts both operands to float64 and divides
    element by element; a zero divisor gives [inf] or [nan] (and a
    warning), never an exception.  A scalar exponent 2 is computed as
    [x * x]. *)

Definition np_true_divide (a : list Z) (n : Z) : list F :=
  (λ c, fdiv (of_int c) (of_int n)) <$> a.

Definition np_square (a : list F) : list F := (λ x, fmul x x) <$> a.

(** *** [np.sum]

    [np.add.reduce] on a contiguous float64 array: the identity [0]
    plus the pairwise sum of the elements
    (numpy/_core/src/umath/loops_utils.h.src, [DOUBLE_pairwise_sum]):
    fewer than 8 elements are added from left to right starting from
    [-0.0]; up to [PW_BLOCKSIZE = 128] elements are added in eight
    interleaved accumulators, combined as a tree, then the rest is
    added; longer arrays are split in two halves, the first of a
    length that is a multiple of 8. *)

Definition PW_BLOCKSIZE : nat := 128.

Fixpoint unrolled_loop (iters : nat) (r a : list F) : list F * list F :=
  match iters with
  | O => (r, a)
  | S iters' => unrolled_loop iters' (zip_with fadd r (take 8 a)) (drop 8 a)
  end.

Definition tree_reduce (r : list F) : F :=
  match r with
  | [r0; r1; r2; r3; r4; r5; r6; r7] =>
      fadd (fadd (fadd r0 r1) (fadd r2 r3)) (fadd (fadd r4 r5) (fadd r6 r7))
  | _ => foldl fadd fneg_zero r
  end.

Definition block_sum (a : list F) : F :=
  let n := length a in
  if (n <? 8)%nat then foldl fadd fneg_zero a
  else
    let '(r, rest) := unrolled_loop (n / 8 - 1) (take 8 a) (drop 8 a) in
    foldl fadd (tree_reduce r) rest.

Fixpoint pairwise_sum (fuel : nat) (a : list F) : F :=
  let n := length a in
  match fuel with
  | S fuel' =>
      if (n <=? PW_BLOCKSIZE)%nat then block_sum a
      else
        let n2 := (n / 2 - (n / 2) mod 8)%nat in
        fadd (pairwise_sum fuel' (take n2 a)) (pairwise_sum fuel' (drop n2 a))
  | O => block_sum a
  end.

Definition np_sum (a : list F) : F :=
  fadd (of_int 0) (pairwise_sum (length a) a).

(** ** The function of the notebook

    [y] is an array of labels; for a list [y] of Python integers the call
    is [gini (np_asanyarray y)], see below. *)

Definition gini (y : list Z) : F :=
  let '(_, counts) := np_unique y in
  let p := np_true_divide counts (Z.of_nat (length y)) in
  fsub (of_int 1) (np_sum (np_square p)).

End numpy.

(** ** Python lists of labels

    Called on an array, as the notebook does ([gini(np.array([0,0,0,1]))]),
    [np.unique] takes the array as it is: [np.asanyarray] returns its
    argument.  Called on a list of Python integers, [np.asanyarray] first
    stores the list in a new array, of the dtype NumPy finds for it
    (numpy/_core/src/multiarray/abstractdtypes.c,
    [discover_descriptor_from_pylong], and [np.promote_types]):

    - an integer that fits a C [long] counts as [int64], one that only fits
      an [unsigned long long] as [uint64], any other as [object];
    - the dtypes of the elements are promoted pairwise: [object] absorbs
      every dtype, and [int64] with [uint64] gives [float64];
    - the empty list gives an empty [float64] array.

    In an array of dtype [float64] every integer is replaced by the nearest
    binary64 number ([PyLong_AsDouble], ties to even), so two labels can
    become one; in the other dtypes the integers are stored as they are.
    The call [gini(y)] on a list [y] is therefore [gini (np_asanyarray y)]:
    [len(y)] is the length of either. *)

Inductive dtype : Type := int64 | uint64 | float64 | object.

Definition discover_dtype (x : Z) : dtype :=
  if (- 2 ^ 63 <=? x) && (x <? 2 ^ 63) then int64
  else if (0 <=? x) && (x <? 2 ^ 64) then uint64
  else object.

Definition promote_types (a b : dtype) : dtype :=
  match a, b with
  | object, _ | _, object => object
  | float64, _ | _, float64 => float64
  | int64, int64 => int64
  | uint64, uint64 => uint64
  | int64, uint64 | uint64, int64 => float64
  end.

Definition result_type (y : list Z) : dtype :=
  match y with
  | [] => float64
  | x :: y' =>
      foldl (λ d z, promote_types d (discover_dtype z)) (discover_dtype x) y'
  end.

(** The integer a binary64 number with an integral value stands for: an
    array of such numbers is represented by the list of these integers,
    which are compared as the numbers are. *)
Definition float64_to_int (x : f64) : Z :=
  match x with
  | S754_finite s m e => cond_Zopp s (Z.shiftl (Z.pos m) e)
  | _ => 0
  end.

(** One element, as it is stored in an array of dtype [d]. *)
Definition astype (d : dtype) (x : Z) : Z :=
  match d with
  | float64 => float64_to_int (of_int x)
  | _ => x
  end.

Definition np_asanyarray (y : list Z) : list Z :=
  astype (result_type y) <$> y.


(** ** Calls

    A call [gini(y)] in the interpreter: [y] is a reference to an integer
    array on the heap.  [np.unique] works on a flattened copy, which it sorts
    in place; everything else is computed from immutable values. *)

Inductive exception : Type :=
  | EmptyInput    (* the error kind the documentation names for [gini([])] *)
  | NameError.    (* a reference to no object *)

Inductive outcome (A : Type) : Type :=
  | Returned (v : A)
  | Raised (e : exception).
Arguments Returned {A} v.
Arguments Raised {A} e.

Record world : Type := World {
  heap : gmap positive (list Z);     (* the integer arrays, by address *)
  stdout : list string;              (* what has been printed *)
  globals : gmap string positive     (* the module's global names *)
}.

Definition M (A : Type) : Type := world → outcome A * world.

#[export] Instance M_ret : MRet M := λ A v w, (Returned v, w).
#[export] Instance M_bind : MBind M := λ A B k m w,
  match m w with
  | (Returned v, w') => k v w'
  | (Raised e, w') => (Raised e, w')
  end.

Definition new_array (a : list Z) : M positive := λ w,
  let l := fresh (dom (heap w)) in
  (Returned l, World (<[l := a]> (heap w)) (stdout w) (globals w)).

Definition load (l : positive) : M (list Z) := λ w,
  match heap w !! l with
  | Some a => (Returned a, w)
  | None => (Raised NameError, w)
  end.

Definition store (l : positive) (a : list Z) : M unit := λ w,
  (Returned (), World (<[l := a]> (heap w)) (stdout w) (globals w)).

Section calls.
Context {F : Type} `{Scalar F}.

Definition flatten (ar : positive) : M positive :=
  a ← load ar; new_array a.

Definition sort_in_place (ar : positive) : M unit :=
  a ← load ar; store ar (np_sort a).

Definition np_unique_call (ar : positive) : M (list Z * list Z) :=
  ar' ← flatten ar;
  _ ← sort_in_place ar';
  aux ← load ar';
  mret (unique1d aux).

Definition len (y : positive) : M Z :=
  a ← load y; mret (Z.of_nat (length a)).

Definition gini_call (y : positive) : M F :=
  '(_, counts) ← np_unique_call y;
  n ← len y;
  let p := np_true_divide counts n in
  mret (fsub (of_int 1) (np_sum (np_square p))).
End calls.

(** ** Vocabulary of the documentation *)

(** [count i y]: the number of occurrences of the label [i] in [y]. *)
Fixpoint count (i : Z) (y : list Z) : Z :=
  match y with
  | [] => 0
  | x :: y' => (if x =? i then 1 else 0) + count i y'
  end.

(** The distinct label values appearing in [y], and their number [k]. *)
Definition distinct (y : list Z) : list Z := remove_dups y.
Definition n_classes (y : list Z) : Z := Z.of_nat (length (distinct y)).

(** The sum of a list of rationals, as a mathematical sum. *)
Definition Qsum (l : list Q) : Q := foldr Qplus 0%Q l.

(** The empirical frequency [p_i = count(i) / len(y)]. *)
Definition frequency (i : Z) (y : list Z) : Q :=
  (inject_Z (count i y) / inject_Z (Z.of_nat (length y)))%Q.

(** The formula of the documentation: 1 minus the sum, over the distinct
    labels, of the squared frequencies. *)
Definition gini_formula (y : list Z) : Q :=
  (1 - Qsum ((λ i, frequency i y ^ 2) <$> distinct y))%Q.

(** The same formula evaluated in the scalars [F] with NumPy's sum, the
    distinct labels taken in ascending order. *)
Definition gini_formula_in (F : Type) `{Scalar F} (y : list Z) : F :=
  let p i := fdiv (of_int (count i y)) (of_int (Z.of_nat (length y))) in
  fsub (of_int 1) (np_sum ((λ i, fmul (p i) (p i)) <$> np_sort (distinct y))).

(** A finite binary64 value [x] denotes the rational [q]. *)
Definition denotes (x : f64) (q : Q) : Prop :=
  match f64_to_Q x with
  | Some q' => (q' == q)%Q
  | None => False
  end.

(** Relabellings that are injective, or order-preserving, on the labels
    that occur in [y]. *)
Definition injective_on (f : Z → Z) (y : list Z) : Prop :=
  ∀ a b, a ∈ y → b ∈ y → f a = f b → a = b.

Definition increasing_on (f : Z → Z) (y : list Z) : Prop :=
  ∀ a b, a ∈ y → b ∈ y → a < b → f a < f b.

(** The conversion of the list [y] to an array keeps its labels: distinct
    labels stay distinct.  This is so whenever the array is not of dtype
    [float64], in particular when all labels fit [int64]. *)
Definition labels_kept (y : list Z) : Prop :=
  injective_on (astype (result_type y)) y.


(** A world with one array, [y], at address 1, nothing printed and no
    global names. *)
Definition sample_world (y : list Z) : world :=
  World {[ 1%positive := y ]} [] ∅.

(** ** Auxiliary definitions for the proofs *)

(** The comparison of each element of [t] with its predecessor, the first
    one with [p]: the mask of [unique1d] after its first entry. *)
Definition mask_after (p : Z) (t : list Z) : list bool :=
  zip_with (λ a b, negb (a =? b)) t (p :: t).

(** Run-length encoding: the runs of equal consecutive elements of [x :: t],
    where [c] occurrences of [x] have been seen already. *)
Fixpoint runs (x : Z) (c : Z) (t : list Z) : list (Z * Z) :=
  match t with
  | [] => [(x, c)]
  | y :: t' => if y =? x then runs x (c + 1) t' else (x, c) :: runs y 1 t'
  end.

(** Sums over integer lists. *)
Definition total (cs : list Z) : Z := foldr Z.add 0 cs.
Definition sumsq (cs : list Z) : Z := foldr (λ c acc, c * c + acc) 0 cs.

(** ** Vocabulary for binary64 rounding

    The real numbers of the analysis are rationals; [pow2 e] is [2^e]. *)
Definition pow2 (e : Z) : Q := (2 ^ e)%Q.

(** The value of a finite binary64 number ([0] for the others). *)
Definition f64_val (v : f64) : Q :=
  match v with
  | S754_finite s m e => (inject_Z (cond_Zopp s (Z.pos m)) * pow2 e)%Q
  | _ => 0%Q
  end.

(** The position of a real [t] between the integers [m] and [m + 1], as
    [SpecFloat] records it while it shifts a mantissa to the right. *)
Definition loc_ok (m : Z) (l : location) (t : Q) : Prop :=
  match l with
  | loc_Exact => (t == inject_Z m)%Q
  | loc_Inexact Lt => (inject_Z m < t ∧ t < inject_Z m + (1 # 2))%Q
  | loc_Inexact Eq => (t == inject_Z m + (1 # 2))%Q
  | loc_Inexact Gt => (inject_Z m + (1 # 2) < t ∧ t < inject_Z m + 1)%Q
  end.

(** [M] is an integer nearest to [t], the even one when [t] lies half way
    between two integers. *)
Definition nearest_even (t : Q) (M : Z) : Prop :=
  (inject_Z M - (1 # 2) <= t ∧ t <= inject_Z M + (1 # 2))%Q
  ∧ ((t == inject_Z M - (1 # 2) ∨ t == inject_Z M + (1 # 2))%Q → Z.even M = true).

(** [v] is the positive normal binary64 number nearest to the positive real
    [x] (ties to even): with [2^(52+E) <= x < 2^(53+E)], the mantissa of [v]
    is the integer nearest to [x / 2^E], renormalised when it reaches
    [2^53]. *)
Definition rounds_to (x : Q) (v : f64) : Prop :=
  ∃ (E M : Z) (m : positive) (e : Z),
    v = S754_finite false m e
    ∧ 2 ^ 52 ≤ Z.pos m < 2 ^ 53
    ∧ (pow2 (52 + E) <= x ∧ x < pow2 (53 + E))%Q
    ∧ nearest_even (x / pow2 E) M
    ∧ ((e = E ∧ Z.pos m = M) ∨ (e = E + 1 ∧ M = 2 ^ 53 ∧ Z.pos m = 2 ^ 52)).

(** Positive binary64 numbers with a mantissa of 53 bits, and those of
    them between [2^-200] and [2^200], far from underflow and overflow. *)
Definition normal (v : f64) : Prop :=
  ∃ m e, v = S754_finite false m e ∧ 2 ^ 52 ≤ Z.pos m < 2 ^ 53.

Definition ordinary (v : f64) : Prop :=
  normal v ∧ (pow2 (-200) <= f64_val v ∧ f64_val v <= pow2 200)%Q.

(** [v] is an ordinary binary64 number within [D] units of [2^-52],
    relatively, of the real [X], which lies between [2^-100] and [2^D]:
    the outcome of a computation of [X] that rounds at most [D] times on
    every path, two roundings counting for one unit. *)
Definition near (D : Z) (X : Q) (v : f64) : Prop :=
  (pow2 (-100) <= X ∧ X <= pow2 D)%Q
  ∧ ordinary v
  ∧ ((1 - inject_Z D * (1 # 2 ^ 52)) * X <= f64_val v
     ∧ f64_val v <= (1 + inject_Z D * (1 # 2 ^ 52)) * X)%Q.


(** ** The rest of the notebook *)

(** The vector [p] of [gini]: [counts / len(y)]. *)
Definition frequencies {F : Type} `{Scalar F} (y : list Z) : list F :=
  np_true_divide (np_unique y).2 (Z.of_nat (length y)).

(** The first cell gives the impurity of a vector of probabilities in
    three more forms:
<<
    Gini(p) = sum_i p_i (sum_{j /= i} p_j) = sum_i p_i (1 - p_i)
            = sum_i p_i - sum_i p_i^2 = 1 - sum_i p_i^2
>> *)
Definition gini_pairwise (p : list Q) : Q :=
  Qsum (imap (λ i p_i, p_i * Qsum (delete i p))%Q p).

Definition gini_complement (p : list Q) : Q :=
  Qsum ((λ p_i, p_i * (1 - p_i))%Q <$> p).

Definition gini_difference (p : list Q) : Q :=
  (Qsum p - Qsum ((λ p_i, p_i ^ 2)%Q <$> p))%Q.

Definition gini_squares (p : list Q) : Q :=
  (1 - Qsum ((λ p_i, p_i ^ 2)%Q <$> p))%Q.

(** Python's [y * m] on a list ([np.tile(y, m)] on an array): [m] copies
    of [y] one after the other. *)
Definition repeat_sample (m : nat) (y : list Z) : list Z :=
  mjoin (replicate m y).

(** *** The cell on the range of the impurity

<<
    for k in [2,3,10,1000]:
        p = np.full(shape=(k,), fill_value=1.0/k)
        print(f"{k:4d}-class problem: sum(p^2)={np.sum(p**2):.4f}, 1/k={1/k:.4f}")
>>

    For one [k], the two numbers that are printed.  The quotient [1.0/k]
    of Python raises for [k = 0], and [np.full] refuses a negative
    shape. *)

Inductive demo_outcome (F : Type) : Type :=
  | Printed (sum_p2 one_over_k : F)
  | ZeroDivisionError
  | ValueError.
Arguments Printed {F} sum_p2 one_over_k.
Arguments ZeroDivisionError {F}.
Arguments ValueError {F}.

Definition np_full {F : Type} (k : nat) (fill_value : F) : list F :=
  replicate k fill_value.

Definition range_demo {F : Type} `{Scalar F} (k : Z) : demo_outcome F :=
  if k =? 0 then ZeroDivisionError
  else if k <? 0 then ValueError
  else
    let p := np_full (Z.to_nat k) (fdiv (of_int 1) (of_int k)) in
    Printed (np_sum (np_square p)) (fdiv (of_int 1) (of_int k)).

(** The format [.4f] of a finite binary64 value: the nearest multiple of
    [0.0001], ties to even, given as a number of ten-thousandths. *)
Definition round_half_even (q : Q) : Z :=
  let f := Qnum q / Z.pos (Qden q) in
  match Qcompare (q - inject_Z f) (1 # 2) with
  | Lt => f
  | Gt => f + 1
  | Eq => if Z.even f then f else f + 1
  end.

Definition format_4f (x : f64) : option Z :=
  (λ q, round_half_even (q * 10000)) <$> f64_to_Q x.

(** *** The majority vote of the cell [Play]

<<
    y_pred,_ = mode(y_preds)
    y_pred = y_pred[0]
    print(y_pred)
    T = len(y_preds)
    np.sum(y_preds==y_pred) / T
>>

    [scipy.stats.mode], in the releases that return arrays, on a
    one-dimensional array:
<<
    if a.size == 0:
        return ModeResult(np.array([]), np.array([]))
    scores = np.unique(np.ravel(a))
    oldmostfreq = np.zeros(testshape, dtype=a.dtype)
    oldcounts = np.zeros(testshape, dtype=int)
    for score in scores:
        template = (a == score)
        counts = np.expand_dims(np.sum(template, axis), axis)
        mostfrequent = np.where(counts > oldcounts, score, oldmostfreq)
        oldcounts = np.maximum(counts, oldcounts)
        oldmostfreq = mostfrequent
    return ModeResult(mostfrequent, oldcounts)
>> *)

Definition mode_step (a : list Z) (old : Z * Z) (score : Z) : Z * Z :=
  let '(oldmostfreq, oldcounts) := old in
  let counts := count score a in
  (if oldcounts <? counts then score else oldmostfreq, Z.max counts oldcounts).

Definition mode (a : list Z) : list Z * list Z :=
  match a with
  | [] => ([], [])
  | _ :: _ =>
      let '(mostfrequent, oldcounts) :=
        foldl (mode_step a) (0, 0) (np_unique a).1 in
      ([mostfrequent], [oldcounts])
  end.

(** What the cell prints ([y_pred]) and shows (the share of the votes
    equal to it); indexing the empty array of modes raises [IndexError]. *)
Inductive vote_outcome (F : Type) : Type :=
  | Voted (y_pred : Z) (share : F)
  | IndexError.
Arguments Voted {F} y_pred share.
Arguments IndexError {F}.

Definition majority_vote {F : Type} `{Scalar F} (y_preds : list Z)
    : vote_outcome F :=
  match (mode y_preds).1 with
  | [] => IndexError
  | y_pred :: _ =>
      let T := Z.of_nat (length y_preds) in
      Voted y_pred (fdiv (of_int (count y_pred y_preds)) (of_int T))
  end.

(** What the loop of [mode] has found after the scores [P]. *)
Definition mode_found (a P : list Z) (old : Z * Z) : Prop :=
  (P = [] ∧ old = (0, 0))
  ∨ (old.1 ∈ P ∧ old.2 = count old.1 a
     ∧ ∀ x, x ∈ P → count x a ≤ old.2 ∧ (count x a = old.2 → old.1 ≤ x)).

(** * The notebook's own runs *)

(** [np.unique] on a small array: the sorted distinct values and how often
    each occurs. *)
Example np_unique_example :
  np_unique [3; 1; 2; 1; 3; 3] = ([1; 2; 3], [2; 1; 3]).
Proof. vm_compute. reflexivity. Qed.

(** The last cell of the notebook evaluates [1 - gini(np.array([0,0,0,1]))]
    and shows [0.625]. *)
Example notebook_output :
  denotes (fsub (of_int 1) (gini (F:=f64) [0; 0; 0; 1])) 0.625.
Proof. vm_compute. reflexivity. Qed.

(** The cell on the range prints, for [k] in [[2,3,10,1000]], the pairs
    [0.5000, 0.5000], [0.3333, 0.3333], [0.1000, 0.1000] and
    [0.0010, 0.0010]. *)
Example range_demo_output :
  (λ k, match range_demo (F:=f64) k with
        | Printed s r => Some (format_4f s, format_4f r)
        | _ => None
        end) <$> [2; 3; 10; 1000]
  = [Some (Some 5000, Some 5000); Some (Some 3333, Some 3333);
     Some (Some 1000, Some 1000); Some (Some 10, Some 10)].
Proof. vm_compute. reflexivity. Qed.

(** The cell [Play] prints [1] and shows [0.6]. *)
Example majority_vote_output :
  ∃ share, majority_vote (F:=f64) [0; 0; 1; 1; 1] = Voted 1 share
           ∧ share = fdiv (of_int 6) (of_int 10).
Proof. eexists. split; vm_compute; reflexivity. Qed.

(** * Facts about [np.unique] *)

Section unique_facts.

Lemma mask_after_cons p y t :
  mask_after p (y :: t) = negb (y =? p) :: mask_after y t.
Proof. reflexivity. Qed.

Lemma length_mask_after p t : length (mask_after p t) = length t.
Proof.
  revert p. induction t as [|y t IH]; intros p; [done|].
  rewrite mask_after_cons. simpl. by rewrite IH.
Qed.

Lemma np_diff_cons_cons a b l :
  np_diff (a :: b :: l) = (b - a) :: np_diff (b :: l).
Proof. reflexivity. Qed.

Lemma np_diff_runs t : ∀ x c i,
  np_diff (i :: nonzero_from (i + c) (mask_after x t)
             ++ [i + c + Z.of_nat (length t)]) = (runs x c t).*2.
Proof.
  induction t as [|y t IH]; intros x c i.
  - simpl. f_equal. lia.
  - rewrite mask_after_cons. simpl runs. simpl nonzero_from.
    destruct (Z.eqb_spec y x) as [->|Hne]; simpl negb; cbv iota.
    + specialize (IH x (c + 1) i).
      replace (i + (c + 1)) with (i + c + 1) in IH by lia.
      replace (i + c + Z.of_nat (length (x :: t)))
        with (i + c + 1 + Z.of_nat (length t)) by (simpl length; lia).
      exact IH.
    + specialize (IH y 1 (i + c)).
      replace (i + c + Z.of_nat (length (y :: t)))
        with (i + c + 1 + Z.of_nat (length t)) by (simpl length; lia).
      rewrite <- app_comm_cons, np_diff_cons_cons, IH.
      simpl. f_equal. lia.
Qed.

Lemma bool_index_runs t : ∀ x c,
  x :: bool_index t (mask_after x t) = (runs x c t).*1.
Proof.
  induction t as [|y t IH]; intros x c; [done|].
  rewrite mask_after_cons. simpl.
  destruct (Z.eqb_spec y x) as [->|Hne]; simpl.
  - apply IH.
  - f_equal. apply IH.
Qed.

Lemma unique1d_cons x t :
  unique1d (x :: t) = ((runs x 1 t).*1, (runs x 1 t).*2).
Proof.
  unfold unique1d, unique_mask. fold (mask_after x t).
  f_equal.
  - simpl. apply bool_index_runs.
  - unfold np_nonzero. simpl nonzero_from. simpl length.
    rewrite length_mask_after.
    rewrite <- (np_diff_runs t x 1 0), <- app_comm_cons.
    by replace (Z.of_nat (S (length t))) with (0 + 1 + Z.of_nat (length t)) by lia.
Qed.

End unique_facts.

(** * Runs of a sorted array and occurrence counts *)

Section runs_facts.

Lemma count_nonneg i y : 0 ≤ count i y.
Proof. induction y as [|x y IH]; simpl; [lia|]. destruct (x =? i); lia. Qed.

Lemma count_not_elem_of i y : i ∉ y → count i y = 0.
Proof.
  induction y as [|x y IH]; [done|].
  rewrite not_elem_of_cons. intros [Hne Hni]. simpl.
  destruct (Z.eqb_spec x i); [congruence|]. rewrite IH; [lia|done].
Qed.

Lemma count_Permutation i y y' : y ≡ₚ y' → count i y = count i y'.
Proof. induction 1; simpl; lia. Qed.

Lemma count_fmap_inj (f : Z → Z) `{!Inj (=) (=) f} i y :
  count (f i) (f <$> y) = count i y.
Proof.
  induction y as [|x y IH]; [done|].
  rewrite fmap_cons. simpl count. rewrite IH.
  destruct (Z.eqb_spec x i) as [->|Hne].
  - by rewrite Z.eqb_refl.
  - destruct (Z.eqb_spec (f x) (f i)) as [E|]; [|done].
    by apply (inj f) in E.
Qed.

Lemma elem_of_runs x c t v : v ∈ (runs x c t).*1 ↔ v = x ∨ v ∈ t.
Proof.
  revert x c. induction t as [|y t IH]; intros x c; simpl.
  - rewrite list_elem_of_singleton, elem_of_nil. tauto.
  - destruct (Z.eqb_spec y x) as [->|Hne].
    + rewrite IH, elem_of_cons. tauto.
    + simpl. rewrite !elem_of_cons, IH. tauto.
Qed.

Lemma total_runs x c t : total (runs x c t).*2 = c + Z.of_nat (length t).
Proof.
  revert x c. induction t as [|y t IH]; intros x c; simpl; [lia|].
  destruct (y =? x); simpl; rewrite ?IH; unfold total; simpl; lia.
Qed.

Lemma runs_positive x c t : 0 < c → Forall (λ n, 0 < n) (runs x c t).*2.
Proof.
  revert x c. induction t as [|y t IH]; intros x c Hc; simpl.
  - by repeat constructor.
  - destruct (y =? x); simpl.
    + apply IH. lia.
    + constructor; [done|]. apply IH. lia.
Qed.

(** On a sorted array, the length of each run is the number of
    occurrences of its value, and the values of the runs increase
    strictly. *)
Lemma runs_sorted t : ∀ x c,
  StronglySorted Z.le (x :: t) →
  (runs x c t).*2
    = (λ v, (if v =? x then c else 0) + count v t) <$> (runs x c t).*1
  ∧ StronglySorted Z.lt (runs x c t).*1.
Proof.
  induction t as [|y t IH]; intros x c Hs.
  - simpl. rewrite Z.eqb_refl. split; [f_equal; lia|].
    repeat constructor.
  - apply StronglySorted_inv in Hs as [Hs Hx].
    simpl runs. destruct (Z.eqb_spec y x) as [->|Hne].
    + destruct (IH x (c + 1) Hs) as [E Hlt]. split; [|done].
      rewrite E. apply Forall_fmap_ext, Forall_forall. intros v _.
      simpl. destruct (Z.eqb_spec v x), (Z.eqb_spec x v); lia || congruence.
    + destruct (IH y 1 Hs) as [E Hlt].
      assert (Hxy : x < y) by (apply Forall_cons in Hx as [? _]; lia).
      assert (Hall : Forall (Z.lt x) (runs y 1 t).*1).
      { apply Forall_forall. intros v [->|Hv]%elem_of_runs; [done|].
        apply StronglySorted_inv in Hs as [_ Hy].
        rewrite Forall_forall in Hy. specialize (Hy v Hv). lia. }
      split; [|by constructor].
      rewrite !fmap_cons. cbn [fst snd]. rewrite Z.eqb_refl. f_equal.
      * simpl count. rewrite (count_not_elem_of x t).
        -- destruct (Z.eqb_spec y x); lia.
        -- intros Hin. apply Forall_cons in Hx as [_ Hx].
           apply StronglySorted_inv in Hs as [_ Hy].
           rewrite Forall_forall in Hy. specialize (Hy x Hin). lia.
      * rewrite E. apply Forall_fmap_ext.
        eapply Forall_impl; [exact Hall|]. intros v Hv. simpl.
        destruct (Z.eqb_spec v x), (Z.eqb_spec v y), (Z.eqb_spec y v);
          lia || congruence.
Qed.

End runs_facts.

(** * What [np.unique] returns *)

Section np_unique_spec.

Lemma np_sort_Permutation y : np_sort y ≡ₚ y.
Proof. apply merge_sort_Permutation. Qed.

Lemma np_sort_sorted y : StronglySorted Z.le (np_sort y).
Proof. apply StronglySorted_merge_sort; apply _. Qed.

(** The sorted array depends on the multiset of the labels only. *)
Lemma np_sort_unique y y' : y ≡ₚ y' → np_sort y = np_sort y'.
Proof.
  intros Hp. apply (StronglySorted_unique Z.le); try apply np_sort_sorted.
  by rewrite !np_sort_Permutation.
Qed.

Lemma length_np_sort y : length (np_sort y) = length y.
Proof. by rewrite np_sort_Permutation. Qed.

Lemma StronglySorted_lt_le l : StronglySorted Z.lt l → StronglySorted Z.le l.
Proof.
  induction 1 as [|x l Hs IH Hx]; constructor; [done|].
  eapply Forall_impl; [exact Hx|]. simpl. lia.
Qed.

Lemma StronglySorted_lt_NoDup l : StronglySorted Z.lt l → NoDup l.
Proof.
  induction 1 as [|x l Hs IH Hx]; constructor; [|done].
  intros Hin. rewrite Forall_forall in Hx. specialize (Hx x Hin). lia.
Qed.

Lemma np_unique_counts y :
  (np_unique y).2 = (λ v, count v y) <$> (np_unique y).1.
Proof.
  unfold np_unique. pose proof (np_sort_sorted y) as Hs.
  pose proof (np_sort_Permutation y) as Hp.
  destruct (np_sort y) as [|x t]; [done|].
  rewrite unique1d_cons. simpl.
  destruct (runs_sorted t x 1 Hs) as [-> _].
  apply Forall_fmap_ext, Forall_forall. intros v _. simpl.
  rewrite <- (count_Permutation v _ _ Hp). simpl.
  destruct (Z.eqb_spec v x), (Z.eqb_spec x v); lia || congruence.
Qed.

Lemma np_unique_values_sorted y : StronglySorted Z.lt (np_unique y).1.
Proof.
  unfold np_unique. pose proof (np_sort_sorted y) as Hs.
  destruct (np_sort y) as [|x t]; [constructor|].
  rewrite unique1d_cons. simpl. by destruct (runs_sorted t x 1 Hs).
Qed.

Lemma elem_of_np_unique y v : v ∈ (np_unique y).1 ↔ v ∈ y.
Proof.
  unfold np_unique. rewrite <- (np_sort_Permutation y) at 2.
  destruct (np_sort y) as [|x t]; [done|].
  rewrite unique1d_cons. simpl. by rewrite elem_of_runs, elem_of_cons.
Qed.

Lemma np_unique_Permutation y : (np_unique y).1 ≡ₚ distinct y.
Proof.
  apply NoDup_Permutation.
  - apply StronglySorted_lt_NoDup, np_unique_values_sorted.
  - apply NoDup_remove_dups.
  - intros v. unfold distinct.
    by rewrite elem_of_np_unique, elem_of_remove_dups.
Qed.

(** The values come out in ascending order. *)
Lemma np_unique_values y : (np_unique y).1 = np_sort (distinct y).
Proof.
  apply (StronglySorted_unique Z.le).
  - apply StronglySorted_lt_le, np_unique_values_sorted.
  - apply np_sort_sorted.
  - by rewrite np_sort_Permutation, np_unique_Permutation.
Qed.

Lemma total_np_unique y : total (np_unique y).2 = Z.of_nat (length y).
Proof.
  unfold np_unique. rewrite <- (length_np_sort y).
  destruct (np_sort y) as [|x t]; [done|].
  rewrite unique1d_cons. simpl fst; simpl snd. rewrite total_runs.
  simpl length. lia.
Qed.

Lemma np_unique_positive y : Forall (λ n, 0 < n) (np_unique y).2.
Proof.
  unfold np_unique. destruct (np_sort y) as [|x t]; [constructor|].
  rewrite unique1d_cons. simpl. apply runs_positive. lia.
Qed.

Lemma length_np_unique y : Z.of_nat (length (np_unique y).2) = n_classes y.
Proof.
  rewrite np_unique_counts, length_fmap. unfold n_classes.
  by rewrite np_unique_Permutation.
Qed.

Lemma np_unique_counts_Permutation y :
  (np_unique y).2 ≡ₚ (λ v, count v y) <$> distinct y.
Proof. by rewrite np_unique_counts, np_unique_Permutation. Qed.

End np_unique_spec.

(** * [np.sum] in exact arithmetic

    Over the rationals the order of the additions does not matter:
    NumPy's pairwise summation is the mathematical sum. *)

Section exact_sum.
Local Open Scope Q_scope.

Lemma Qsum_nil : Qsum [] = 0.
Proof. reflexivity. Qed.

Lemma Qsum_cons x l : Qsum (x :: l) = x + Qsum l.
Proof. reflexivity. Qed.

Lemma Qsum_app l1 l2 : Qsum (l1 ++ l2) == Qsum l1 + Qsum l2.
Proof.
  induction l1 as [|x l1 IH]; simpl app.
  - rewrite Qsum_nil. ring.
  - rewrite !Qsum_cons, IH. ring.
Qed.

Lemma Qsum_Permutation l l' : l ≡ₚ l' → Qsum l == Qsum l'.
Proof.
  induction 1 as [|x l l' _ IH|x y l|l l' l'' _ IH1 _ IH2].
  - reflexivity.
  - rewrite !Qsum_cons, IH. reflexivity.
  - rewrite !Qsum_cons. ring.
  - by rewrite IH1.
Qed.

Lemma Qsum_take_drop n l : Qsum (take n l) + Qsum (drop n l) == Qsum l.
Proof. by rewrite <- Qsum_app, take_drop. Qed.

Lemma foldl_fadd_exact l : ∀ init : Q, foldl fadd init l == init + Qsum l.
Proof.
  induction l as [|x l IH]; intros init; simpl foldl.
  - rewrite Qsum_nil. ring.
  - rewrite IH, Qsum_cons. simpl fadd. ring.
Qed.

Lemma Qsum_zip_with r : ∀ b : list Q,
  length r = length b → Qsum (zip_with fadd r b) == Qsum r + Qsum b.
Proof.
  induction r as [|x r IH]; intros [|y b] Hlen; try done.
  simpl zip_with. rewrite !Qsum_cons, IH by (simpl in Hlen; lia).
  simpl fadd. ring.
Qed.

Lemma unrolled_loop_exact iters : ∀ r a : list Q,
  length r = 8%nat → (8 * iters ≤ length a)%nat →
  length (unrolled_loop iters r a).1 = 8%nat
  ∧ Qsum (unrolled_loop iters r a).1 + Qsum (unrolled_loop iters r a).2
    == Qsum r + Qsum a.
Proof.
  induction iters as [|iters IH]; intros r a Hr Ha; simpl unrolled_loop.
  - split; [done|reflexivity].
  - assert (Ht : length (take 8 a) = 8%nat) by (rewrite length_take; lia).
    destruct (IH (zip_with fadd r (take 8 a)) (drop 8 a)) as [Hl E].
    + rewrite length_zip_with. lia.
    + rewrite length_drop. lia.
    + split; [done|]. rewrite E, Qsum_zip_with by lia.
      rewrite <- (Qsum_take_drop 8 a). ring.
Qed.

Lemma tree_reduce_exact (r : list Q) : tree_reduce r == Qsum r.
Proof.
  do 9 (destruct r as [|? r]; try (unfold tree_reduce, Qsum; simpl; ring)).
  unfold tree_reduce. rewrite foldl_fadd_exact. simpl. ring.
Qed.

Lemma block_sum_exact (a : list Q) : block_sum a == Qsum a.
Proof.
  unfold block_sum. destruct (Nat.ltb_spec (length a) 8) as [Hlt|Hge].
  - rewrite foldl_fadd_exact. simpl. ring.
  - pose proof (Nat.Div0.mul_div_le (length a) 8) as Hdiv.
    assert (1 ≤ length a / 8)%nat by (apply Nat.div_le_lower_bound; lia).
    destruct (unrolled_loop_exact (length a / 8 - 1) (take 8 a) (drop 8 a))
      as [Hl E].
    + rewrite length_take. lia.
    + rewrite length_drop. lia.
    + destruct (unrolled_loop _ _ _) as [r rest]. simpl in Hl, E.
      rewrite foldl_fadd_exact, tree_reduce_exact, E.
      apply Qsum_take_drop.
Qed.

Lemma pairwise_sum_exact fuel : ∀ a : list Q, pairwise_sum fuel a == Qsum a.
Proof.
  induction fuel as [|fuel IH]; intros a; simpl pairwise_sum.
  - apply block_sum_exact.
  - destruct (_ <=? _)%nat; [apply block_sum_exact|].
    rewrite !IH. simpl. apply Qsum_take_drop.
Qed.

Lemma np_sum_exact (a : list Q) : np_sum a == Qsum a.
Proof. unfold np_sum. rewrite pairwise_sum_exact. simpl. ring. Qed.

End exact_sum.

(** * Sums of counts *)

Section counting.

Lemma total_cons c cs : total (c :: cs) = c + total cs.
Proof. reflexivity. Qed.

Lemma sumsq_cons c cs : sumsq (c :: cs) = c * c + sumsq cs.
Proof. reflexivity. Qed.

Lemma sumsq_le_sq cs :
  Forall (λ c, 0 ≤ c) cs → 0 ≤ total cs ∧ sumsq cs ≤ total cs * total cs.
Proof.
  induction 1 as [|c cs Hc _ [IH1 IH2]]; [cbn; lia|].
  rewrite total_cons, sumsq_cons. nia.
Qed.

(** The sum of the squared deviations from any [c] is not negative. *)
Lemma sumsq_deviation cs c :
  0 ≤ sumsq cs - 2 * c * total cs + Z.of_nat (length cs) * (c * c).
Proof.
  induction cs as [|x cs IH]; [cbn; lia|].
  rewrite total_cons, sumsq_cons. simpl length.
  pose proof (Z.square_nonneg (x - c)). nia.
Qed.

(** Cauchy-Schwarz for a list of integers against the all-ones list. *)
Lemma sq_total_le cs :
  total cs * total cs ≤ Z.of_nat (length cs) * sumsq cs.
Proof.
  induction cs as [|c cs IH]; [cbn; lia|].
  pose proof (sumsq_deviation cs c).
  rewrite total_cons, sumsq_cons. simpl length. nia.
Qed.

Lemma sumsq_lt_sq cs :
  Forall (λ c, 0 < c) cs → (2 ≤ length cs)%nat →
  sumsq cs < total cs * total cs.
Proof.
  destruct cs as [|a [|b l]]; simpl length; try lia.
  intros [Ha Hl]%Forall_cons _.
  destruct (sumsq_le_sq (b :: l)) as [H1 H2].
  { eapply Forall_impl; [exact Hl|]. simpl. lia. }
  assert (0 < total (b :: l)).
  { apply Forall_cons in Hl as [Hb Hl]. rewrite total_cons.
    destruct (sumsq_le_sq l) as [? _]; [|lia].
    eapply Forall_impl; [exact Hl|]. simpl. lia. }
  rewrite (total_cons a), (sumsq_cons a). nia.
Qed.

Lemma total_sumsq_uniform cs c :
  Forall (λ x, x = c) cs →
  total cs = Z.of_nat (length cs) * c
  ∧ sumsq cs = Z.of_nat (length cs) * (c * c).
Proof.
  induction 1 as [|x cs -> _ [IH1 IH2]]; [cbn; lia|].
  rewrite total_cons, sumsq_cons, IH1, IH2. simpl length. lia.
Qed.

End counting.

(** * [gini] in exact arithmetic *)

Section exact_gini.
Local Open Scope Q_scope.

Lemma gini_unfold {F} `{Scalar F} (y : list Z) :
  gini y = fsub (of_int 1)
    (np_sum (np_square (np_true_divide (np_unique y).2 (Z.of_nat (length y))))).
Proof. unfold gini. by destruct (np_unique y). Qed.

Lemma Qsum_squares cs n :
  n ≠ 0%Z →
  Qsum (np_square (np_true_divide cs n))
  == inject_Z (sumsq cs) / inject_Z (n * n).
Proof.
  intros Hn. assert (Hq : ¬ inject_Z n == 0).
  { change 0 with (inject_Z 0). rewrite inject_Z_injective. done. }
  induction cs as [|c cs IH].
  - unfold np_square, np_true_divide. rewrite !fmap_nil, Qsum_nil.
    change (inject_Z (sumsq [])) with 0. unfold Qdiv. ring.
  - unfold np_square, np_true_divide in *. rewrite !fmap_cons, Qsum_cons, IH.
    rewrite sumsq_cons, inject_Z_plus, !inject_Z_mult. simpl. field. done.
Qed.

(** The value of [gini] as a fraction of integers. *)
Lemma gini_exact_fraction y :
  y ≠ [] →
  let n := Z.of_nat (length y) in
  gini (F:=Q) y
  == 1 - inject_Z (sumsq (np_unique y).2) / inject_Z (n * n).
Proof.
  intros Hy n. rewrite gini_unfold. cbn [fsub of_int rational].
  change (inject_Z 1) with 1.
  rewrite np_sum_exact, Qsum_squares; [reflexivity|].
  destruct y; [done|]. simpl length. lia.
Qed.

End exact_gini.

(** * The fuel of [pairwise_sum]

    The recursion of [pairwise_sum] halves arrays longer than
    [PW_BLOCKSIZE]; the length of the array is always enough fuel, and more
    fuel does not change the result. *)

Section fuel.
Context {F : Type} `{Scalar F}.

Lemma pairwise_sum_fuel f1 : ∀ f2 (a : list F),
  (length a ≤ PW_BLOCKSIZE + f1)%nat → (length a ≤ PW_BLOCKSIZE + f2)%nat →
  pairwise_sum f1 a = pairwise_sum f2 a.
Proof.
  assert (Hpw : PW_BLOCKSIZE = 128%nat) by reflexivity.
  induction f1 as [|f1 IH]; intros f2 a H1 H2;
    destruct f2 as [|f2]; cbn [pairwise_sum];
    destruct (Nat.leb_spec (length a) PW_BLOCKSIZE) as [Hle|Hgt];
    try done; try lia.
  pose proof (Nat.Div0.mul_div_le (length a) 2).
  pose proof (Nat.Div0.mod_le (length a / 2) 8).
  pose proof (Nat.mod_upper_bound (length a / 2) 8).
  assert (64 ≤ length a / 2)%nat by (apply Nat.div_le_lower_bound; lia).
  f_equal; apply IH; rewrite ?length_take, ?length_drop; lia.
Qed.

Lemma np_sum_fuel (a : list F) fuel :
  (length a ≤ fuel)%nat → np_sum a = fadd (of_int 0) (pairwise_sum fuel a).
Proof.
  intros Hf. unfold np_sum. f_equal. apply pairwise_sum_fuel; lia.
Qed.

(** Fewer than 8 elements are added from left to right. *)
Lemma np_sum_short (a : list F) :
  (length a < 8)%nat → np_sum a = fadd (of_int 0) (foldl fadd fneg_zero a).
Proof.
  intros Hlt. unfold np_sum. f_equal.
  assert (Hpw : PW_BLOCKSIZE = 128%nat) by reflexivity.
  assert (E : pairwise_sum (length a) a = block_sum a).
  { generalize (length a) at 1. intros [|fuel]; cbn [pairwise_sum]; [done|].
    destruct (Nat.leb_spec (length a) PW_BLOCKSIZE); [done|lia]. }
  rewrite E. unfold block_sum.
  by destruct (Nat.ltb_spec (length a) 8); [|lia].
Qed.

End fuel.

(** * Calls *)

Section call_facts.
Context {F : Type} `{Scalar F}.

Lemma bind_Returned {A B} (m : M A) (k : A → M B) w v w' :
  m w = (Returned v, w') → (m ≫= k) w = k v w'.
Proof. unfold mbind, M_bind. by intros ->. Qed.

Lemma load_Some l a w : heap w !! l = Some a → load l w = (Returned a, w).
Proof. unfold load. by intros ->. Qed.

Lemma flatten_spec w y ys :
  heap w !! y = Some ys →
  flatten y w
  = (Returned (fresh (dom (heap w))),
     World (<[fresh (dom (heap w)) := ys]> (heap w)) (stdout w) (globals w)).
Proof.
  intros Hy. unfold flatten.
  by rewrite (bind_Returned _ _ _ _ _ (load_Some _ _ _ Hy)).
Qed.

Lemma sort_in_place_spec w l a :
  heap w !! l = Some a →
  sort_in_place l w
  = (Returned (), World (<[l := np_sort a]> (heap w)) (stdout w) (globals w)).
Proof.
  intros Hl. unfold sort_in_place.
  by rewrite (bind_Returned _ _ _ _ _ (load_Some _ _ _ Hl)).
Qed.

Lemma np_unique_call_spec w y ys :
  heap w !! y = Some ys →
  np_unique_call y w
  = (Returned (np_unique ys),
     World (<[fresh (dom (heap w)) := np_sort ys]> (heap w))
           (stdout w) (globals w)).
Proof.
  intros Hy. unfold np_unique_call.
  rewrite (bind_Returned _ _ _ _ _ (flatten_spec _ _ _ Hy)).
  erewrite bind_Returned;
    [|apply sort_in_place_spec; cbn [heap]; apply lookup_insert_eq].
  cbn [heap stdout globals]. rewrite insert_insert_eq.
  erewrite bind_Returned; [|apply load_Some; cbn [heap]; apply lookup_insert_eq].
  reflexivity.
Qed.

(** A call on a live array returns the value of [gini] on its contents;
    the only change of the world is the scratch array of [np.unique]. *)
Lemma gini_call_spec (w : world) (y : positive) (ys : list Z) :
  heap w !! y = Some ys →
  gini_call y w
  = (Returned (gini ys),
     World (<[fresh (dom (heap w)) := np_sort ys]> (heap w))
           (stdout w) (globals w)).
Proof.
  intros Hy.
  assert (Hfresh : fresh (dom (heap w)) ≠ y).
  { intros E. apply (is_fresh (dom (heap w))). rewrite E.
    apply elem_of_dom. by eexists. }
  unfold gini_call.
  rewrite (bind_Returned _ _ _ _ _ (np_unique_call_spec _ _ _ Hy)).
  unfold gini. destruct (np_unique ys) as [u cs].
  unfold len. erewrite bind_Returned.
  2:{ erewrite bind_Returned; [reflexivity|].
      apply load_Some. cbn [heap]. by rewrite lookup_insert_ne. }
  reflexivity.
Qed.

End call_facts.

(** * Relabelling *)

Section relabel.
Context (f : Z → Z).

Lemma increasing_on_injective_on y : increasing_on f y → injective_on f y.
Proof.
  intros Hf a b Ha Hb E. destruct (Z.lt_trichotomy a b) as [Hlt|[->|Hlt]];
    [|done|]; apply Hf in Hlt; try done; lia.
Qed.

Lemma injective_on_Permutation y y' :
  y ≡ₚ y' → injective_on f y → injective_on f y'.
Proof. intros Hp Hf a b Ha Hb. apply Hf; by rewrite Hp. Qed.

Lemma count_fmap_inj_on i y :
  injective_on f y → i ∈ y → count (f i) (f <$> y) = count i y.
Proof.
  intros Hf Hi.
  assert (H : ∀ l, l ⊆ y → count (f i) (f <$> l) = count i l).
  { induction l as [|x l IH]; intros Hl; [done|].
    rewrite fmap_cons. simpl count. rewrite IH.
    2:{ intros z Hz. apply Hl. by right. }
    destruct (Z.eqb_spec x i) as [->|Hne].
    - by rewrite Z.eqb_refl.
    - destruct (Z.eqb_spec (f x) (f i)) as [E|]; [|done].
      apply Hf in E; [done| |done]. apply Hl. left. }
  by apply H.
Qed.

Lemma runs_fmap t : ∀ x c,
  injective_on f (x :: t) →
  runs (f x) c (f <$> t) = prod_map f id <$> runs x c t.
Proof.
  induction t as [|y t IH]; intros x c Hf; [done|].
  rewrite fmap_cons. cbn [runs].
  destruct (Z.eqb_spec y x) as [->|Hne].
  - rewrite Z.eqb_refl. apply IH.
    intros a b Ha Hb. apply Hf; by right.
  - destruct (Z.eqb_spec (f y) (f x)) as [E|_].
    + apply Hf in E; [done|right; left|left].
    + rewrite fmap_cons, IH; [done|].
      intros a b Ha Hb. apply Hf; by right.
Qed.

Lemma unique1d_fmap aux :
  injective_on f aux →
  unique1d (f <$> aux) = (f <$> (unique1d aux).1, (unique1d aux).2).
Proof.
  intros Hf. destruct aux as [|x t]; [done|].
  rewrite fmap_cons, !unique1d_cons, runs_fmap by done. cbn [fst snd].
  rewrite <- !list_fmap_compose. done.
Qed.

Lemma StronglySorted_fmap_on l :
  increasing_on f l → StronglySorted Z.le l → StronglySorted Z.le (f <$> l).
Proof.
  intros Hf Hs. induction Hs as [|a l Hs IH Ha]; [constructor|].
  rewrite fmap_cons. constructor.
  - apply IH. intros x z Hx Hz. apply Hf; by right.
  - apply Forall_fmap, Forall_forall. intros b Hb. simpl.
    rewrite Forall_forall in Ha. specialize (Ha b Hb).
    destruct (Z.eq_dec a b) as [->|]; [lia|].
    assert (f a < f b); [|lia]. apply Hf; [left|by right|lia].
Qed.

Lemma np_sort_fmap y :
  increasing_on f y → np_sort (f <$> y) = f <$> np_sort y.
Proof.
  intros Hf. apply (StronglySorted_unique Z.le).
  - apply np_sort_sorted.
  - apply StronglySorted_fmap_on; [|apply np_sort_sorted].
    intros a b Ha Hb. apply Hf; by rewrite <- np_sort_Permutation.
  - by rewrite !np_sort_Permutation.
Qed.

(** A relabelling that preserves the order of the labels of [y] leaves the
    counts, in their order. *)
Lemma np_unique_increasing y :
  increasing_on f y →
  np_unique (f <$> y) = (f <$> (np_unique y).1, (np_unique y).2).
Proof.
  intros Hf. unfold np_unique. rewrite np_sort_fmap by done.
  apply unique1d_fmap.
  apply (injective_on_Permutation y); [by rewrite np_sort_Permutation|].
  by apply increasing_on_injective_on.
Qed.

Lemma distinct_fmap y :
  injective_on f y → distinct (f <$> y) ≡ₚ f <$> distinct y.
Proof.
  intros Hf. unfold distinct. apply NoDup_Permutation.
  - apply NoDup_remove_dups.
  - apply NoDup_fmap_2_strong; [|apply NoDup_remove_dups].
    intros a b Ha Hb. apply Hf; by apply elem_of_remove_dups.
  - intros v. rewrite elem_of_remove_dups, !list_elem_of_fmap.
    by setoid_rewrite elem_of_remove_dups.
Qed.

(** A relabelling that is injective on the labels of [y] permutes the
    counts and keeps the number of classes. *)
Lemma np_unique_inj y :
  injective_on f y → (np_unique (f <$> y)).2 ≡ₚ (np_unique y).2.
Proof.
  intros Hf. rewrite !np_unique_counts_Permutation.
  rewrite (distinct_fmap y Hf), <- list_fmap_compose.
  assert (E : ((λ v, count v (f <$> y)) ∘ f) <$> distinct y
              = (λ v, count v y) <$> distinct y).
  { apply Forall_fmap_ext, Forall_forall. intros v Hv. unfold compose.
    apply count_fmap_inj_on; [done|]. by apply elem_of_remove_dups. }
  by rewrite E.
Qed.

End relabel.

(** * Exact arithmetic: the value as a fraction *)

Section exact_fraction.
Local Open Scope Q_scope.

Lemma inject_Z_pos z : (0 < z)%Z → 0 < inject_Z z.
Proof. intros Hz. change 0 with (inject_Z 0). by rewrite <- Zlt_Qlt. Qed.

Lemma inject_Z_nonzero z : (z ≠ 0)%Z → ¬ inject_Z z == 0.
Proof. intros Hz. change 0 with (inject_Z 0). by rewrite inject_Z_injective. Qed.

(** [1 - s/N] lies between [0] and [(K-1)/K] when [s <= N <= K s]. *)
Lemma fraction_range (s N K : Z) :
  (0 < N)%Z → (0 < K)%Z → (s ≤ N)%Z → (N ≤ K * s)%Z →
  0 <= 1 - inject_Z s / inject_Z N
  ∧ 1 - inject_Z s / inject_Z N <= (inject_Z K - 1) / inject_Z K.
Proof.
  intros HN HK Hs HKs.
  pose proof (inject_Z_pos N HN) as HN'. pose proof (inject_Z_pos K HK) as HK'.
  assert (H1 : inject_Z s / inject_Z N <= 1).
  { apply Qle_shift_div_r; [done|]. rewrite Qmult_1_l. by rewrite <- Zle_Qle. }
  assert (H2 : 1 / inject_Z K <= inject_Z s / inject_Z N).
  { apply Qle_shift_div_l; [done|]. unfold Qdiv. rewrite Qmult_1_l.
    rewrite Qmult_comm. apply Qle_shift_div_r; [done|].
    rewrite Qmult_comm, <- inject_Z_mult. by rewrite <- Zle_Qle. }
  assert (H3 : (inject_Z K - 1) / inject_Z K == 1 - 1 / inject_Z K).
  { field. apply inject_Z_nonzero. lia. }
  rewrite H3. split; lra.
Qed.

Lemma fraction_zero (s N : Z) :
  (0 < N)%Z → 1 - inject_Z s / inject_Z N == 0 ↔ s = N.
Proof.
  intros HN. pose proof (inject_Z_nonzero N ltac:(lia)) as HN'. split.
  - intros E. apply inject_Z_injective.
    rewrite <- (Qmult_div_r (inject_Z s) (inject_Z N)) by done.
    assert (E' : inject_Z s / inject_Z N == 1) by lra.
    rewrite E'. ring.
  - intros ->. field. done.
Qed.

(** The integers behind [gini y]: the counts [cs], their number [k], their
    sum [n] and the sum of their squares. *)
Lemma gini_exact_data y :
  y ≠ [] →
  let cs := (np_unique y).2 in
  let n := Z.of_nat (length y) in
  (0 < n)%Z ∧ (1 ≤ n_classes y)%Z
  ∧ Z.of_nat (length cs) = n_classes y
  ∧ total cs = n
  ∧ Forall (λ c, 0 < c)%Z cs
  ∧ gini (F:=Q) y == 1 - inject_Z (sumsq cs) / inject_Z (n * n).
Proof.
  intros Hy cs n.
  assert (Hn : (0 < n)%Z) by (subst n; destruct y; [done|simpl length; lia]).
  pose proof (length_np_unique y) as Hk.
  pose proof (total_np_unique y) as Ht.
  pose proof (np_unique_positive y) as Hp.
  repeat split; try done.
  - rewrite <- Hk. fold cs in Ht, Hk |- *.
    destruct cs; [|simpl length; lia].
    change (total []) with 0%Z in Ht. lia.
  - by apply gini_exact_fraction.
Qed.

End exact_fraction.

(** * One class *)

Section one_class.

Lemma n_classes_one y :
  n_classes y = 1 ↔ ∃ v, y ≠ [] ∧ ∀ x, x ∈ y → x = v.
Proof.
  unfold n_classes, distinct.
  pose proof (NoDup_remove_dups y) as Hnd.
  pose proof (λ x, elem_of_remove_dups y x) as Hin.
  destruct (remove_dups y) as [|a [|b l]] eqn:E; simpl length.
  - split; [lia|]. intros (v & Hy & _). destruct y as [|x y]; [done|].
    exfalso. eapply elem_of_nil, Hin. left.
  - split; [|done]. intros _. exists a. split.
    + intros ->. eapply elem_of_nil. rewrite <- (Hin a). left.
    + intros x Hx. apply Hin in Hx. by apply list_elem_of_singleton in Hx.
  - split; [lia|]. intros (v & _ & Hv). exfalso.
    assert (a = v) by (apply Hv, Hin; left).
    assert (b = v) by (apply Hv, Hin; right; left).
    apply NoDup_cons in Hnd as [Hnd _]. apply Hnd. subst. left.
Qed.

End one_class.

(** * binary64: a single class *)

Section binary64_facts.

Lemma div_eucl_mult (b k : Z) : 0 < b → Z.div_eucl (b * k) b = (k, 0).
Proof.
  intros Hb.
  assert (E : Z.div_eucl (b * k) b = ((b * k) / b, (b * k) mod b)).
  { unfold Z.div, Z.modulo. by destruct (Z.div_eucl (b * k) b). }
  rewrite E. f_equal.
  - rewrite Z.mul_comm. apply Z.div_mul. lia.
  - rewrite Z.mul_comm. apply Z.mod_mul. lia.
Qed.

Lemma new_location_0 n : new_location n 0 = loc_Exact.
Proof. unfold new_location. by destruct (Z.even n). Qed.

(** A finite value divided by itself is [1.0]. *)
Lemma SFdiv_self s m e :
  SFdiv 53 1024 (S754_finite s m e) (S754_finite s m e)
  = S754_finite false 4503599627370496 (-52).
Proof.
  unfold SFdiv, SFdiv_core_binary.
  rewrite !Z.sub_diag.
  change (Z.min (fexp 53 1024 0) 0) with (-53).
  change (0 - -53) with 53.
  cbv iota beta. rewrite Z.shiftl_mul_pow2 by lia.
  rewrite div_eucl_mult by lia.
  rewrite new_location_0. destruct s; vm_compute; reflexivity.
Qed.

Lemma digits2_pos_iter_xO p k :
  digits2_pos (Pos.iter xO p k) = (digits2_pos p + k)%positive.
Proof.
  induction k as [|k IH] using Pos.peano_ind.
  - simpl. lia.
  - rewrite Pos.iter_succ. simpl. rewrite IH. lia.
Qed.

Lemma digits2_pos_lower p : 2 ^ (Z.pos (digits2_pos p) - 1) ≤ Z.pos p.
Proof.
  induction p as [p IH|p IH|]; simpl digits2_pos; [| |simpl; lia].
  - rewrite Pos2Z.inj_succ.
    replace (Z.succ (Z.pos (digits2_pos p)) - 1)
      with (Z.succ (Z.pos (digits2_pos p) - 1)) by lia.
    rewrite Z.pow_succ_r by lia. lia.
  - rewrite Pos2Z.inj_succ.
    replace (Z.succ (Z.pos (digits2_pos p)) - 1)
      with (Z.succ (Z.pos (digits2_pos p) - 1)) by lia.
    rewrite Z.pow_succ_r by lia. lia.
Qed.

(** A mantissa of 53 bits with an exponent in range is not rounded. *)
Lemma binary_round_aux_exact s m e :
  digits2_pos m = 53%positive → -1074 ≤ e ≤ 971 →
  binary_round_aux 53 1024 s (Z.pos m) e loc_Exact = S754_finite s m e.
Proof.
  intros Hd He.
  assert (Hf : fexp 53 1024 (Z.pos (digits2_pos m) + e) - e = 0).
  { rewrite Hd. unfold fexp, emin. lia. }
  unfold binary_round_aux, shr_fexp. cbn [Zdigits2 shr_record_of_loc].
  rewrite Hf. cbn [shr shr_m loc_of_shr_record round_nearest_even].
  cbn [Zdigits2]. rewrite Hf. cbn [shr shr_m].
  destruct (Z.leb_spec e (1024 - 53)); [done|lia].
Qed.

(** An integer below [2^53] converts to a finite binary64 value. *)
Lemma of_int_finite n :
  0 < n < 2 ^ 53 → ∃ m e, of_int (F:=f64) n = S754_finite false m e.
Proof.
  intros [Hn Hlt]. destruct n as [|p|p]; try lia.
  pose proof (digits2_pos_lower p) as Hlow.
  assert (Hd : Z.pos (digits2_pos p) ≤ 53).
  { destruct (Z.le_gt_cases (Z.pos (digits2_pos p)) 53) as [|Hgt]; [done|].
    assert (2 ^ 53 ≤ 2 ^ (Z.pos (digits2_pos p) - 1))
      by (apply Z.pow_le_mono_r; lia). lia. }
  cbn [of_int binary64]. unfold binary_normalize, binary_round.
  assert (Hf : fexp 53 1024 (Z.pos (digits2_pos p) + 0) = Z.pos (digits2_pos p) - 53).
  { unfold fexp, emin. lia. }
  rewrite Hf. unfold shl_align. rewrite Z.sub_0_r.
  destruct (Z.pos (digits2_pos p) - 53) as [|k|k] eqn:E; try lia.
  - eexists _, _. apply binary_round_aux_exact; [lia|lia].
  - eexists _, _. apply binary_round_aux_exact; [|lia].
    rewrite digits2_pos_iter_xO. lia.
Qed.

(** When all labels are identical, the only frequency is [n / n = 1.0]
    and the result is [1.0 - 1.0 = 0.0]. *)
Lemma gini_binary64_one_class y :
  n_classes y = 1 → Z.of_nat (length y) < 2 ^ 53 →
  gini (F:=f64) y = S754_zero false.
Proof.
  intros Hk Hlen.
  pose proof (length_np_unique y) as Hl. pose proof (total_np_unique y) as Ht.
  rewrite gini_unfold.
  destruct (np_unique y).2 as [|c [|? ?]]; simpl length in Hl; try lia.
  change (total [c]) with (c + 0) in Ht. rewrite Z.add_0_r in Ht. subst c.
  assert (0 < Z.of_nat (length y)).
  { destruct y; [|simpl length; lia]. by vm_compute in Hk. }
  destruct (of_int_finite (Z.of_nat (length y))) as (m & e & E); [lia|].
  unfold np_true_divide. rewrite fmap_cons, fmap_nil, E.
  cbn [fdiv binary64]. rewrite SFdiv_self. vm_compute. reflexivity.
Qed.

End binary64_facts.

(** * binary64: rounding *)

Section pow2_facts.
Local Open Scope Q_scope.

Lemma pow2_pos e : 0 < pow2 e.
Proof. apply Qpower_0_lt. reflexivity. Qed.

Lemma pow2_add a b : pow2 (a + b) == pow2 a * pow2 b.
Proof. apply Qpower_plus. discriminate. Qed.

Lemma pow2_nonneg_Z e : (0 ≤ e)%Z → pow2 e == inject_Z (2 ^ e).
Proof. intros He. unfold pow2. by rewrite Zpower_Qpower. Qed.

Lemma pow2_le a b : (a ≤ b)%Z → pow2 a <= pow2 b.
Proof. intros Hab. apply Qpower_le_compat_l; [done|]. discriminate. Qed.

Lemma pow2_lt a b : (a < b)%Z → pow2 a < pow2 b.
Proof. intros Hab. apply Qpower_lt_compat_l; [done|]. reflexivity. Qed.

Lemma pow2_lt_inv a b : pow2 a < pow2 b → (a < b)%Z.
Proof.
  intros H. destruct (Z.lt_ge_cases a b) as [|Hge]; [done|].
  apply pow2_le in Hge. lra.
Qed.

Lemma pow2_sub a b : pow2 (a - b) == pow2 a / pow2 b.
Proof.
  pose proof (pow2_pos b). replace a with ((a - b) + b)%Z at 2 by lia.
  rewrite pow2_add. field. lra.
Qed.

Lemma inject_Z_pow2 e : (0 ≤ e)%Z → inject_Z (2 ^ e) == pow2 e.
Proof. intros. by rewrite pow2_nonneg_Z. Qed.

End pow2_facts.

Section digits_facts.

Lemma digits2_pos_bounds p :
  2 ^ (Z.pos (digits2_pos p) - 1) ≤ Z.pos p < 2 ^ Z.pos (digits2_pos p).
Proof.
  induction p as [p IH|p IH|]; simpl digits2_pos; [| |simpl; lia].
  - rewrite Pos2Z.inj_succ.
    replace (Z.succ (Z.pos (digits2_pos p)) - 1)
      with (Z.succ (Z.pos (digits2_pos p) - 1)) by lia.
    rewrite !Z.pow_succ_r by lia. lia.
  - rewrite Pos2Z.inj_succ.
    replace (Z.succ (Z.pos (digits2_pos p)) - 1)
      with (Z.succ (Z.pos (digits2_pos p) - 1)) by lia.
    rewrite !Z.pow_succ_r by lia. lia.
Qed.

Lemma digits2_pos_unique p k :
  2 ^ (k - 1) ≤ Z.pos p < 2 ^ k → Z.pos (digits2_pos p) = k.
Proof.
  intros [Hl Hu]. pose proof (digits2_pos_bounds p) as [Hl' Hu'].
  set (d := Z.pos (digits2_pos p)) in *.
  destruct (Z.lt_trichotomy d k) as [Hlt|[->|Hgt]]; [|done|].
  - assert (2 ^ d ≤ 2 ^ (k - 1)) by (apply Z.pow_le_mono_r; lia). lia.
  - assert (0 < k).
    { destruct (Z.lt_ge_cases 0 k); [done|].
      assert (2 ^ k ≤ 2 ^ 0) by (apply Z.pow_le_mono_r_iff; lia || (destruct k; simpl; lia)).
      lia. }
    assert (2 ^ k ≤ 2 ^ (d - 1)) by (apply Z.pow_le_mono_r; lia). lia.
Qed.

End digits_facts.

Section shr_facts.

Lemma iter_pos_nat {A} (f : A → A) p x :
  SpecFloat.iter_pos f p x = Nat.iter (Pos.to_nat p) f x.
Proof.
  revert x. induction p as [p IH|p IH|]; intros x; simpl SpecFloat.iter_pos.
  - rewrite !IH, Pos2Nat.inj_xI.
    rewrite <- Nat.iter_succ_r, <- Nat.iter_add. f_equal. lia.
  - rewrite !IH, Pos2Nat.inj_xO. rewrite <- Nat.iter_add. f_equal. lia.
  - reflexivity.
Qed.

Lemma shr_record_of_loc_m m l : shr_m (shr_record_of_loc m l) = m.
Proof. by destruct l as [|[]]. Qed.

Lemma loc_of_shr_record_of_loc m l :
  loc_of_shr_record (shr_record_of_loc m l) = l.
Proof. by destruct l as [|[]]. Qed.

Lemma shr_1_m mrs : 0 ≤ shr_m mrs → shr_m (shr_1 mrs) = shr_m mrs / 2.
Proof.
  destruct mrs as [m r s]. simpl. intros Hm.
  destruct m as [|[p|p|]|p]; try lia; simpl; try reflexivity.
  - rewrite Pos2Z.inj_xI. apply Z.div_unique with 1; lia.
  - rewrite Pos2Z.inj_xO. apply Z.div_unique with 0; lia.
Qed.

Lemma shr_1_loc mrs t :
  0 ≤ shr_m mrs →
  loc_ok (shr_m mrs) (loc_of_shr_record mrs) t →
  loc_ok (shr_m (shr_1 mrs)) (loc_of_shr_record (shr_1 mrs)) (t * (1 # 2)).
Proof.
  destruct mrs as [m r s]. cbn [shr_m]. intros Hm.
  assert (E1 : ∀ p, (inject_Z (Z.pos p~1) == 2 * inject_Z (Z.pos p) + 1)%Q).
  { intros p. rewrite Pos2Z.inj_xI, inject_Z_plus, inject_Z_mult. reflexivity. }
  assert (E0 : ∀ p, (inject_Z (Z.pos p~0) == 2 * inject_Z (Z.pos p))%Q).
  { intros p. rewrite Pos2Z.inj_xO, inject_Z_mult. reflexivity. }
  destruct m as [|[p|p|]|p]; try lia; unfold shr_1;
    destruct r, s; cbn [shr_m loc_of_shr_record orb loc_ok];
    rewrite ?E1, ?E0; change (inject_Z 1) with 1%Q;
    change (inject_Z 0) with 0%Q; intros H; lra.
Qed.

Lemma loc_ok_proper m l t t' : (t == t')%Q → loc_ok m l t → loc_ok m l t'.
Proof. intros E. destruct l as [|[]]; simpl; rewrite E; done. Qed.

Lemma shr_iter k : ∀ mrs t,
  0 ≤ shr_m mrs →
  loc_ok (shr_m mrs) (loc_of_shr_record mrs) t →
  let r := Nat.iter k shr_1 mrs in
  shr_m r = shr_m mrs / 2 ^ Z.of_nat k
  ∧ loc_ok (shr_m r) (loc_of_shr_record r) (t / inject_Z (2 ^ Z.of_nat k)).
Proof.
  induction k as [|k IH]; intros mrs t Hm Hl; cbv zeta.
  - simpl Nat.iter. change (2 ^ Z.of_nat 0) with 1. rewrite Z.div_1_r.
    split; [done|]. eapply loc_ok_proper; [|exact Hl].
    change (inject_Z 1) with 1%Q. field.
  - rewrite Nat.iter_succ. destruct (IH mrs t Hm Hl) as [Em Hloc].
    set (r := Nat.iter k shr_1 mrs) in *.
    assert (Hr : 0 ≤ shr_m r) by (rewrite Em; apply Z.div_pos; lia).
    split.
    + rewrite (shr_1_m r Hr), Em, Nat2Z.inj_succ, Z.pow_succ_r by lia.
      rewrite Z.div_div by lia. f_equal. lia.
    + pose proof (shr_1_loc r _ Hr Hloc) as H.
      eapply loc_ok_proper; [|exact H].
      rewrite Nat2Z.inj_succ, Z.pow_succ_r by lia.
      rewrite inject_Z_mult. change (inject_Z 2) with 2%Q. field.
      change 0%Q with (inject_Z 0). rewrite inject_Z_injective. lia.
Qed.

End shr_facts.

Section round_facts.

Lemma loc_ok_range m l t :
  loc_ok m l t → (inject_Z m <= t ∧ t < inject_Z m + 1)%Q.
Proof. destruct l as [|[]]; simpl; lra. Qed.

Lemma nearest_even_proper t t' M :
  (t == t')%Q → nearest_even t M → nearest_even t' M.
Proof. intros E [H1 H2]. unfold nearest_even. rewrite <- E. done. Qed.

Lemma round_nearest_even_spec m l t :
  loc_ok m l t →
  nearest_even t (round_nearest_even m l)
  ∧ m ≤ round_nearest_even m l ≤ m + 1.
Proof.
  assert (E : (inject_Z (m + 1) == inject_Z m + 1)%Q)
    by (rewrite inject_Z_plus; reflexivity).
  destruct l as [|[]]; simpl; intros H; (split; [split|]); try lia.
  - lra.
  - intros [H1|H1]; lra.
  - destruct (Z.even m); rewrite ?E; lra.
  - destruct (Z.even m) eqn:Hev; [done|].
    intros _. replace (m + 1) with (Z.succ m) by lia.
    rewrite Z.even_succ, <- Z.negb_even, Hev. done.
  - destruct (Z.even m); lia.
  - lra.
  - intros [H1|H1]; lra.
  - rewrite E. lra.
  - rewrite E. intros [H1|H1]; lra.
Qed.

Lemma fexp_normal e : -1074 ≤ e - 53 → fexp 53 1024 e = e - 53.
Proof. unfold fexp, emin. lia. Qed.

Lemma shr_fexp_spec mx ex l t :
  loc_ok (Z.pos mx) l t →
  let n := Z.pos (digits2_pos mx) - 53 in
  0 ≤ n → -1074 ≤ ex + n →
  ∃ mrs, shr_fexp 53 1024 (Z.pos mx) ex l = (mrs, ex + n)
    ∧ shr_m mrs = Z.pos mx / 2 ^ n
    ∧ loc_ok (shr_m mrs) (loc_of_shr_record mrs) (t / inject_Z (2 ^ n)).
Proof.
  intros Hl n Hn He. unfold shr_fexp. cbn [Zdigits2].
  rewrite fexp_normal by lia.
  replace (Z.pos (digits2_pos mx) + ex - 53 - ex) with n by lia.
  destruct n as [|p|p] eqn:En; [| |lia].
  - eexists. split; [cbn [shr]; by rewrite Z.add_0_r|].
    rewrite shr_record_of_loc_m, loc_of_shr_record_of_loc.
    change (2 ^ 0) with 1. rewrite Z.div_1_r. split; [done|].
    eapply loc_ok_proper; [|exact Hl]. change (inject_Z 1) with 1%Q. field.
  - eexists. split; [cbn [shr]; reflexivity|].
    rewrite iter_pos_nat.
    pose proof (shr_iter (Pos.to_nat p) (shr_record_of_loc (Z.pos mx) l) t) as H.
    rewrite shr_record_of_loc_m, loc_of_shr_record_of_loc in H.
    rewrite positive_nat_Z in H. cbv zeta in H. apply H; [lia|done].
Qed.

Lemma Zdigits2_53 M : 2 ^ 52 ≤ M < 2 ^ 53 → Zdigits2 M = 53.
Proof.
  intros HM. destruct M as [|p|p]; try lia. simpl.
  by apply digits2_pos_unique.
Qed.

Lemma binary_round_aux_spec mx ex l t :
  loc_ok (Z.pos mx) l t →
  let n := Z.pos (digits2_pos mx) - 53 in
  0 ≤ n → -1074 ≤ ex + n → ex + n < 971 →
  rounds_to (t * pow2 ex) (binary_round_aux 53 1024 false (Z.pos mx) ex l).
Proof.
  intros Hl n Hn Hlo Hhi.
  destruct (shr_fexp_spec mx ex l t Hl Hn Hlo) as (mrs & E1 & Em & Hloc).
  fold n in E1, Em, Hloc.
  unfold binary_round_aux. rewrite E1.
  pose proof (digits2_pos_bounds mx) as [Hdl Hdu].
  assert (Hpn : 0 < 2 ^ n) by (apply Z.pow_pos_nonneg; lia).
  assert (Hm1 : 2 ^ 52 ≤ shr_m mrs < 2 ^ 53).
  { rewrite Em.
    replace (Z.pos (digits2_pos mx) - 1) with (52 + n) in Hdl by lia.
    replace (Z.pos (digits2_pos mx)) with (53 + n) in Hdu by lia.
    rewrite Z.pow_add_r in Hdl, Hdu by lia. split.
    - apply Z.div_le_lower_bound; lia.
    - apply Z.div_lt_upper_bound; lia. }
  destruct (round_nearest_even_spec _ _ _ Hloc) as [Hne HM].
  set (M := round_nearest_even (shr_m mrs) (loc_of_shr_record mrs)) in *.
  set (t' := (t / inject_Z (2 ^ n))%Q) in *.
  pose proof (loc_ok_range _ _ _ Hloc) as Hr.
  assert (Hx : (t * pow2 ex == t' * pow2 (ex + n))%Q).
  { subst t'. rewrite pow2_add, (pow2_nonneg_Z n) by lia. field.
    change 0%Q with (inject_Z 0). rewrite inject_Z_injective. lia. }
  assert (Hxe : (t * pow2 ex / pow2 (ex + n) == t')%Q).
  { rewrite Hx. pose proof (pow2_pos (ex + n)). field. lra. }
  assert (Hb : (pow2 (52 + (ex + n)) <= t * pow2 ex
                ∧ t * pow2 ex < pow2 (53 + (ex + n)))%Q).
  { rewrite Hx, !(pow2_add _ (ex + n)).
    pose proof (pow2_pos (ex + n)).
    assert (inject_Z (2 ^ 52) <= t')%Q.
    { destruct Hm1 as [H1 _]. rewrite Zle_Qle in H1. lra. }
    assert (t' < inject_Z (2 ^ 53))%Q.
    { assert (H2 : shr_m mrs + 1 ≤ 2 ^ 53) by lia.
      rewrite Zle_Qle, inject_Z_plus in H2. change (inject_Z 1) with 1%Q in H2. lra. }
    rewrite (pow2_nonneg_Z 52), (pow2_nonneg_Z 53) by lia. split; nra. }
  destruct (Z.eq_dec M (2 ^ 53)) as [EM|NM].
  - (* the mantissa was rounded up to 2^53 *)
    rewrite EM.
    assert (Es : shr_fexp 53 1024 (2 ^ 53) (ex + n) loc_Exact
                 = (Build_shr_record (2 ^ 52) false false, ex + n + 1)).
    { unfold shr_fexp. change (Zdigits2 (2 ^ 53)) with 54.
      rewrite fexp_normal by lia.
      replace (54 + (ex + n) - 53 - (ex + n)) with 1 by lia. reflexivity. }
    rewrite Es. cbn [shr_m]. change (2 ^ 52) with (Z.pos (2 ^ 52)).
    cbv iota beta. destruct (Z.leb_spec (ex + n + 1) (1024 - 53)); [|lia].
    exists (ex + n), M, (2 ^ 52)%positive, (ex + n + 1).
    split; [done|]. split; [lia|]. split; [done|]. split.
    + eapply nearest_even_proper; [symmetry; exact Hxe|done].
    + right. done.
  - assert (HM' : 2 ^ 52 ≤ M < 2 ^ 53) by lia.
    assert (Es : shr_fexp 53 1024 M (ex + n) loc_Exact
                 = (Build_shr_record M false false, ex + n)).
    { unfold shr_fexp. rewrite (Zdigits2_53 M HM'), fexp_normal by lia.
      replace (53 + (ex + n) - 53 - (ex + n)) with 0 by lia. reflexivity. }
    rewrite Es. cbn [shr_m]. destruct M as [|m|m]; try lia.
    destruct (Z.leb_spec (ex + n) (1024 - 53)); [|lia].
    exists (ex + n), (Z.pos m), m, (ex + n).
    split; [done|]. split; [lia|]. split; [done|]. split.
    + eapply nearest_even_proper; [symmetry; exact Hxe|done].
    + left. done.
Qed.

End round_facts.

Section rounds_facts.
Local Open Scope Q_scope.

Lemma rounds_to_proper x x' v : x == x' → rounds_to x v → rounds_to x' v.
Proof.
  intros Hx (E & M & m & e & -> & Hm & Hb & Hne & Hc).
  exists E, M, m, e. split; [done|]. split; [done|].
  split; [by rewrite <- Hx|]. split; [|done].
  eapply nearest_even_proper; [|exact Hne].
  apply Qmult_comp; [exact Hx|reflexivity].
Qed.

Lemma inject_Z_half_le (a b : Z) : inject_Z a <= inject_Z b + (1 # 2) → (a ≤ b)%Z.
Proof.
  intros H. destruct (Z.le_gt_cases a b) as [|Hgt]; [done|].
  assert (H1 : (b + 1 ≤ a)%Z) by lia.
  rewrite Zle_Qle, inject_Z_plus in H1. change (inject_Z 1) with 1 in H1. lra.
Qed.

(** The value of the rounded number, and the interval it comes from. *)
Lemma rounds_to_val x v :
  rounds_to x v →
  ∃ E M, f64_val v == inject_Z M * pow2 E
    ∧ (2 ^ 52 ≤ M ≤ 2 ^ 53)%Z
    ∧ pow2 (52 + E) <= x ∧ x < pow2 (53 + E)
    ∧ nearest_even (x / pow2 E) M.
Proof.
  intros (E & M & m & e & -> & Hm & Hb & Hne & Hc).
  exists E, M. pose proof (pow2_pos E) as HE.
  assert (Ht : inject_Z (2 ^ 52) <= x / pow2 E ∧ x / pow2 E < inject_Z (2 ^ 53)).
  { rewrite <- !pow2_nonneg_Z by lia. destruct Hb as [H1 H2].
    rewrite pow2_add in H1, H2. split.
    - apply Qle_shift_div_l; [done|]. lra.
    - apply Qlt_shift_div_r; [done|]. lra. }
  destruct Hb as [Hb1 Hb2].
  split; [|split; [|split; [done|split; done]]].
  - cbn [f64_val cond_Zopp]. destruct Hc as [[-> <-]|(-> & -> & ->)]; [reflexivity|].
    rewrite pow2_add. change (pow2 1) with 2.
    change (inject_Z (2 ^ 52)) with (4503599627370496 # 1).
    change (inject_Z (2 ^ 53)) with (9007199254740992 # 1). ring.
  - destruct Hne as [[H1 H2] _]. split.
    + apply inject_Z_half_le. lra.
    + apply inject_Z_half_le.
      assert (inject_Z M <= inject_Z (2 ^ 53) + (1 # 2)) by lra. lra.
Qed.

Lemma rounds_to_pos x v : rounds_to x v → 0 < x ∧ 0 < f64_val v.
Proof.
  intros H. destruct (rounds_to_val x v H) as (E & M & Ev & HM & H1 & H2 & _).
  pose proof (pow2_pos (52 + E)). pose proof (pow2_pos E). split; [lra|].
  rewrite Ev. apply Qmult_lt_0_compat; [|done].
  change 0 with (inject_Z 0). rewrite <- Zlt_Qlt. lia.
Qed.

(** The relative error of a rounding is at most 2^-53. *)
Lemma rounds_to_rel x v :
  rounds_to x v →
  (1 - (1 # 2 ^ 53)) * x <= f64_val v ∧ f64_val v <= (1 + (1 # 2 ^ 53)) * x.
Proof.
  intros H. destruct (rounds_to_val x v H) as (E & M & Ev & HM & H1 & H2 & Hne).
  pose proof (pow2_pos E) as HE. rewrite Ev.
  set (t := x / pow2 E) in *.
  assert (Ex : x == t * pow2 E) by (subst t; field; lra).
  assert (Ht : inject_Z (2 ^ 52) <= t).
  { subst t. apply Qle_shift_div_l; [done|].
    rewrite <- pow2_nonneg_Z, <- pow2_add by lia. done. }
  change (inject_Z (2 ^ 52)) with (4503599627370496 # 1) in Ht.
  destruct Hne as [[Ha Hb] _]. rewrite Ex.
  change (1 # 2 ^ 53) with (1 # 9007199254740992). split; nra.
Qed.

Lemma pow2_int_mul (k : Z) (j E : Z) :
  (E ≤ j)%Z → inject_Z k * pow2 j == inject_Z (k * 2 ^ (j - E)) * pow2 E.
Proof.
  intros H. replace j with ((j - E) + E)%Z at 1 by lia.
  rewrite pow2_add, pow2_nonneg_Z, inject_Z_mult by lia. ring.
Qed.

(** Rounding is monotone: it does not cross a representable number. *)
Lemma rounds_to_ge x v (k j : Z) :
  rounds_to x v → (0 ≤ k ≤ 2 ^ 53)%Z →
  inject_Z k * pow2 j <= x → inject_Z k * pow2 j <= f64_val v.
Proof.
  intros H Hk Hr.
  destruct (rounds_to_val x v H) as (E & M & Ev & HM & H1 & H2 & [[Ha Hb] _]).
  pose proof (pow2_pos E) as HE. rewrite Ev.
  destruct (Z.le_gt_cases E j) as [Hle|Hgt].
  - rewrite (pow2_int_mul k j E Hle) in *.
    set (K := (k * 2 ^ (j - E))%Z) in *.
    assert (HK : (K ≤ M)%Z).
    { apply inject_Z_half_le.
      assert (inject_Z K <= x / pow2 E) by (apply Qle_shift_div_l; done). lra. }
    rewrite Zle_Qle in HK. nra.
  - assert (Hp : pow2 (53 + j) <= pow2 (52 + E)) by (apply pow2_le; lia).
    rewrite (pow2_add 53 j), (pow2_add 52 E) in Hp.
    rewrite (pow2_nonneg_Z 53), (pow2_nonneg_Z 52) in Hp by lia.
    pose proof (pow2_pos j) as Hj.
    assert (Hk' : inject_Z k <= inject_Z (2 ^ 53)) by (rewrite <- Zle_Qle; lia).
    assert (HM' : inject_Z (2 ^ 52) <= inject_Z M) by (rewrite <- Zle_Qle; lia).
    assert (inject_Z k * pow2 j <= inject_Z (2 ^ 53) * pow2 j)
      by (apply Qmult_le_compat_r; lra).
    assert (inject_Z (2 ^ 52) * pow2 E <= inject_Z M * pow2 E)
      by (apply Qmult_le_compat_r; lra).
    lra.
Qed.

Lemma rounds_to_le x v (k j : Z) :
  rounds_to x v → (0 ≤ k ≤ 2 ^ 53)%Z →
  x <= inject_Z k * pow2 j → f64_val v <= inject_Z k * pow2 j.
Proof.
  intros H Hk Hr.
  destruct (rounds_to_val x v H) as (E & M & Ev & HM & H1 & H2 & [[Ha Hb] _]).
  pose proof (pow2_pos E) as HE. rewrite Ev.
  destruct (Z.le_gt_cases E j) as [Hle|Hgt].
  - rewrite (pow2_int_mul k j E Hle) in *.
    set (K := (k * 2 ^ (j - E))%Z) in *.
    assert (HK : (M ≤ K)%Z).
    { apply inject_Z_half_le.
      assert (x / pow2 E <= inject_Z K) by (apply Qle_shift_div_r; done). lra. }
    rewrite Zle_Qle in HK. nra.
  - assert (Hp : pow2 (53 + j) <= pow2 (52 + E)) by (apply pow2_le; lia).
    pose proof (pow2_pos j) as Hj.
    assert (Hk' : inject_Z k <= inject_Z (2 ^ 53)) by (rewrite <- Zle_Qle; lia).
    assert (Hr' : inject_Z k * pow2 j <= pow2 (53 + j)).
    { rewrite (pow2_add 53 j), (pow2_nonneg_Z 53) by lia. nra. }
    assert (Ex : x == pow2 (52 + E)) by lra.
    assert (Et : x / pow2 E == inject_Z (2 ^ 52)).
    { rewrite Ex, pow2_add, pow2_nonneg_Z by lia. field. lra. }
    rewrite Et in Hb.
    assert (HM2 : (M ≤ 2 ^ 52)%Z) by (apply inject_Z_half_le; lra).
    assert (M = (2 ^ 52)%Z) as -> by lia.
    rewrite <- pow2_nonneg_Z, <- pow2_add by lia. lra.
Qed.

End rounds_facts.

Section op_facts.

Lemma iter_xO_pow p k : Z.pos (Pos.iter xO p k) = Z.pos p * 2 ^ Z.pos k.
Proof.
  induction k as [|k IH] using Pos.peano_ind.
  - simpl. lia.
  - rewrite Pos.iter_succ, Pos2Z.inj_xO, IH, Pos2Z.inj_succ, Z.pow_succ_r by lia.
    lia.
Qed.

Lemma shl_align_fst mx ex ez :
  ez ≤ ex → Z.pos (shl_align mx ex ez).1 = Z.pos mx * 2 ^ (ex - ez).
Proof.
  intros H. unfold shl_align.
  destruct (ez - ex) as [|d|d] eqn:E; try lia; cbn [fst].
  - replace (ex - ez) with 0 by lia. lia.
  - rewrite iter_xO_pow. f_equal. f_equal. lia.
Qed.

Lemma digits2_pos_gt p k : 2 ^ k ≤ Z.pos p → k < Z.pos (digits2_pos p).
Proof.
  intros H. pose proof (digits2_pos_bounds p) as [_ Hu].
  destruct (Z.lt_ge_cases k (Z.pos (digits2_pos p))) as [|Hge]; [done|].
  assert (2 ^ Z.pos (digits2_pos p) ≤ 2 ^ k) by (apply Z.pow_le_mono_r; lia). lia.
Qed.

Lemma digits2_pos_le p k : 0 ≤ k → Z.pos p < 2 ^ k → Z.pos (digits2_pos p) ≤ k.
Proof.
  intros Hk H. pose proof (digits2_pos_bounds p) as [Hl _].
  destruct (Z.le_gt_cases (Z.pos (digits2_pos p)) k) as [|Hgt]; [done|].
  assert (2 ^ k ≤ 2 ^ (Z.pos (digits2_pos p) - 1)) by (apply Z.pow_le_mono_r; lia).
  lia.
Qed.

(** [binary_round] of a positive integer mantissa, in the normal range. *)
Lemma binary_round_spec N ez :
  let d := Z.pos (digits2_pos N) in
  -1074 ≤ ez + d - 53 → ez + d - 53 < 971 →
  rounds_to (inject_Z (Z.pos N) * pow2 ez) (binary_round 53 1024 false N ez).
Proof.
  intros d Hlo Hhi. unfold binary_round. fold d.
  rewrite fexp_normal by lia. unfold shl_align.
  destruct (d + ez - 53 - ez) as [|k|k] eqn:E.
  - apply binary_round_aux_spec; [reflexivity|fold d; lia..].
  - apply binary_round_aux_spec; [reflexivity|fold d; lia..].
  - (* fewer than 53 digits: the mantissa is shifted left, exactly *)
    assert (Hd : Z.pos (digits2_pos (Pos.iter xO N k)) = 53).
    { apply digits2_pos_unique. rewrite iter_xO_pow.
      pose proof (digits2_pos_bounds N) as [Hl Hu]. fold d in Hl, Hu.
      assert (E52 : 2 ^ (53 - 1) = 2 ^ (d - 1) * 2 ^ Z.pos k)
        by (rewrite <- Z.pow_add_r by lia; f_equal; lia).
      assert (E53 : 2 ^ 53 = 2 ^ d * 2 ^ Z.pos k)
        by (rewrite <- Z.pow_add_r by lia; f_equal; lia).
      rewrite E52, E53.
      assert (0 < 2 ^ Z.pos k) by (apply Z.pow_pos_nonneg; lia). nia. }
    eapply rounds_to_proper.
    2:{ apply binary_round_aux_spec; [reflexivity|rewrite Hd; lia..]. }
    rewrite iter_xO_pow, inject_Z_mult.
    replace ez with ((d + ez - 53) + Z.pos k) at 2 by lia.
    rewrite pow2_add, (pow2_nonneg_Z (Z.pos k)) by lia. ring.
Qed.

Lemma f64_val_finite m e :
  (f64_val (S754_finite false m e) == inject_Z (Z.pos m) * pow2 e)%Q.
Proof. reflexivity. Qed.

Lemma SFmul_spec ma ea mb eb :
  2 ^ 52 ≤ Z.pos ma < 2 ^ 53 → 2 ^ 52 ≤ Z.pos mb < 2 ^ 53 →
  -1126 ≤ ea + eb → ea + eb < 917 →
  rounds_to (f64_val (S754_finite false ma ea) * f64_val (S754_finite false mb eb))
            (SFmul 53 1024 (S754_finite false ma ea) (S754_finite false mb eb)).
Proof.
  intros Ha Hb Hlo Hhi. cbn [SFmul xorb].
  assert (Hl : 2 ^ 104 ≤ Z.pos (ma * mb)) by (rewrite Pos2Z.inj_mul; nia).
  assert (Hu : Z.pos (ma * mb) < 2 ^ 106) by (rewrite Pos2Z.inj_mul; nia).
  apply digits2_pos_gt in Hl. apply digits2_pos_le in Hu; [|lia].
  eapply rounds_to_proper.
  2:{ apply binary_round_aux_spec; [reflexivity|lia..]. }
  rewrite !f64_val_finite, Pos2Z.inj_mul, inject_Z_mult, pow2_add. ring.
Qed.

Lemma new_location_spec (q b r : Z) :
  0 ≤ r < b →
  loc_ok q (new_location b r) (inject_Z (q * b + r) / inject_Z b).
Proof.
  intros Hr.
  assert (Hb : (0 < inject_Z b)%Q).
  { change 0%Q with (inject_Z 0). rewrite <- Zlt_Qlt. lia. }
  assert (E : (inject_Z (q * b + r) / inject_Z b == inject_Z q + inject_Z r / inject_Z b)%Q).
  { rewrite inject_Z_plus, inject_Z_mult. field. lra. }
  assert (Hr0 : (0 <= inject_Z r)%Q).
  { change 0%Q with (inject_Z 0). rewrite <- Zle_Qle. lia. }
  assert (Hlt : ∀ c d : Z, c < d → (inject_Z c < inject_Z d)%Q)
    by (intros c d; by rewrite <- Zlt_Qlt).
  assert (H2 : ∀ z, (inject_Z (2 * z) == 2 * inject_Z z)%Q)
    by (intros z; rewrite inject_Z_mult; reflexivity).
  assert (Hhalf_lt : 2 * r < b → (inject_Z r / inject_Z b < 1 # 2)%Q).
  { intros H. apply Qlt_shift_div_r; [done|]. apply Hlt in H. rewrite H2 in H. lra. }
  assert (Hhalf_gt : b < 2 * r → (1 # 2 < inject_Z r / inject_Z b)%Q).
  { intros H. apply Qlt_shift_div_l; [done|]. apply Hlt in H. rewrite H2 in H. lra. }
  assert (Hone : (inject_Z r / inject_Z b < 1)%Q).
  { apply Qlt_shift_div_r; [done|]. destruct Hr as [_ H]. apply Hlt in H. lra. }
  assert (Hpos : r ≠ 0 → (0 < inject_Z r / inject_Z b)%Q).
  { intros H. apply Qlt_shift_div_l; [done|].
    assert (H' : 0 < r) by lia. apply Hlt in H'. change (inject_Z 0) with 0%Q in H'. lra. }
  unfold new_location, new_location_even, new_location_odd.
  destruct (Z.even b) eqn:Hev; destruct (Z.eqb_spec r 0) as [->|Hne].
  - simpl. rewrite E. change (inject_Z 0) with 0%Q. field. lra.
  - destruct (Z.compare_spec (2 * r) b) as [Heq|Hlt'|Hgt']; simpl; rewrite E.
    + assert (Er : (inject_Z r / inject_Z b == 1 # 2)%Q).
      { rewrite <- Heq, H2. field.
        intros H0. assert (H' : 0 < r) by lia. apply Hlt in H'.
        change (inject_Z 0) with 0%Q in H'. lra. }
      rewrite Er. reflexivity.
    + specialize (Hhalf_lt Hlt'). specialize (Hpos Hne). lra.
    + specialize (Hhalf_gt Hgt'). lra.
  - simpl. rewrite E. change (inject_Z 0) with 0%Q. field. lra.
  - assert (Hodd : 2 * r ≠ b).
    { intros <-. rewrite Z.even_mul in Hev. done. }
    destruct (Z.compare_spec (2 * r + 1) b) as [Heq|Hlt'|Hgt']; simpl; rewrite E.
    + assert (H' : 2 * r < b) by lia. specialize (Hhalf_lt H'). specialize (Hpos Hne). lra.
    + assert (H' : 2 * r < b) by lia. specialize (Hhalf_lt H'). specialize (Hpos Hne). lra.
    + assert (H' : b < 2 * r) by lia. specialize (Hhalf_gt H'). lra.
Qed.

Lemma SFdiv_spec ma ea mb eb :
  2 ^ 52 ≤ Z.pos ma < 2 ^ 53 → 2 ^ 52 ≤ Z.pos mb < 2 ^ 53 →
  -1021 ≤ ea - eb → ea - eb < 1022 →
  rounds_to (f64_val (S754_finite false ma ea) / f64_val (S754_finite false mb eb))
            (SFdiv 53 1024 (S754_finite false ma ea) (S754_finite false mb eb)).
Proof.
  intros Ha Hb Hlo Hhi. cbn [SFdiv xorb]. unfold SFdiv_core_binary.
  cbn [Zdigits2].
  rewrite (digits2_pos_unique ma 53), (digits2_pos_unique mb 53) by (simpl; lia).
  replace (53 + ea - (53 + eb)) with (ea - eb) by lia.
  rewrite fexp_normal by lia.
  replace (Z.min (ea - eb - 53) (ea - eb)) with (ea - eb - 53) by lia.
  replace (ea - eb - (ea - eb - 53)) with 53 by lia.
  cbv iota beta. rewrite Z.shiftl_mul_pow2 by lia.
  pose proof (Z.div_eucl_eq (Z.pos ma * 2 ^ 53) (Z.pos mb) ltac:(lia)) as Hdiv.
  pose proof (Z.mod_pos_bound (Z.pos ma * 2 ^ 53) (Z.pos mb) ltac:(lia)) as Hmod.
  unfold Z.modulo in Hmod.
  destruct (Z.div_eucl (Z.pos ma * 2 ^ 53) (Z.pos mb)) as [q r].
  assert (Hq : 2 ^ 52 ≤ q < 2 ^ 54) by nia.
  destruct q as [|q|q]; try lia.
  assert (Hl : 2 ^ 52 ≤ Z.pos q) by lia.
  assert (Hu : Z.pos q < 2 ^ 54) by lia.
  apply digits2_pos_gt in Hl. apply digits2_pos_le in Hu; [|lia].
  eapply rounds_to_proper.
  2:{ apply binary_round_aux_spec;
        [apply (new_location_spec (Z.pos q) (Z.pos mb) r Hmod)|lia..]. }
  rewrite !f64_val_finite.
  replace (Z.pos q * Z.pos mb + r) with (Z.pos ma * 2 ^ 53) by lia.
  rewrite inject_Z_mult, <- (pow2_nonneg_Z 53) by lia.
  replace (ea - eb - 53) with (ea + (- eb + -53)) by lia.
  rewrite !pow2_add.
  pose proof (pow2_pos eb). pose proof (pow2_pos (-eb)).
  assert (E1 : (pow2 (- eb) * pow2 eb == 1)%Q).
  { rewrite <- pow2_add. replace (- eb + eb) with 0 by lia. reflexivity. }
  assert (E2 : (pow2 53 * pow2 (-53) == 1)%Q) by reflexivity.
  assert (Hmb : (0 < inject_Z (Z.pos mb))%Q).
  { change 0%Q with (inject_Z 0). rewrite <- Zlt_Qlt. lia. }
  transitivity (inject_Z (Z.pos ma) * pow2 ea / inject_Z (Z.pos mb)
                * (pow2 53 * pow2 (-53)) * pow2 (- eb))%Q; [field; lra|].
  rewrite E2.
  transitivity (inject_Z (Z.pos ma) * pow2 ea / (inject_Z (Z.pos mb) * pow2 eb)
                * (pow2 (- eb) * pow2 eb))%Q; [field; lra|].
  rewrite E1. field. lra.
Qed.

End op_facts.

Section ordinary_facts.
Local Open Scope Q_scope.

Lemma normal_bounds m e :
  (2 ^ 52 ≤ Z.pos m < 2 ^ 53)%Z →
  pow2 (52 + e) <= f64_val (S754_finite false m e)
  ∧ f64_val (S754_finite false m e) < pow2 (53 + e).
Proof.
  intros [Hl Hu]. rewrite f64_val_finite, !(pow2_add _ e).
  rewrite (pow2_nonneg_Z 52), (pow2_nonneg_Z 53) by lia.
  pose proof (pow2_pos e). rewrite Zle_Qle in Hl. rewrite Zlt_Qlt in Hu.
  split; nra.
Qed.

Lemma ordinary_exp m e :
  ordinary (S754_finite false m e) →
  (2 ^ 52 ≤ Z.pos m < 2 ^ 53)%Z ∧ (-253 ≤ e ≤ 148)%Z.
Proof.
  intros [(m' & e' & [= <- <-] & Hm) [Hl Hu]].
  destruct (normal_bounds m e Hm) as [H1 H2]. split; [done|].
  assert (H0 : pow2 (-200) < pow2 (53 + e)) by lra.
  apply pow2_lt_inv in H0.
  assert (H3 : ¬ (200 < 52 + e)%Z).
  { intros H4%pow2_lt. lra. }
  lia.
Qed.

Lemma rounds_to_normal x v : rounds_to x v → normal v.
Proof. intros (E & M & m & e & -> & Hm & _). by exists m, e. Qed.

Lemma rounds_to_ordinary x v :
  rounds_to x v → pow2 (-199) <= x → x <= pow2 199 → ordinary v.
Proof.
  intros H Hl Hu. split; [by eapply rounds_to_normal|].
  destruct (rounds_to_rel x v H) as [H1 H2].
  change (1 # 2 ^ 53) with (1 # 9007199254740992) in *.
  assert (E1 : pow2 (-199) == 2 * pow2 (-200)).
  { change (-199)%Z with (1 + -200)%Z. by rewrite pow2_add. }
  assert (E2 : pow2 200 == 2 * pow2 199).
  { change 200%Z with (1 + 199)%Z. by rewrite pow2_add. }
  pose proof (pow2_pos (-200)). pose proof (pow2_pos 199).
  rewrite E1 in Hl. rewrite E2. split; nra.
Qed.

End ordinary_facts.

Section arith_facts.
Local Open Scope Z_scope.

Lemma fmul_rounds (a b : f64) :
  ordinary a → ordinary b →
  rounds_to (f64_val a * f64_val b) (SFmul 53 1024 a b).
Proof.
  intros Ha Hb.
  destruct (Ha) as [(ma & ea & -> & _) _]. destruct (Hb) as [(mb & eb & -> & _) _].
  apply ordinary_exp in Ha as [Hma Hea]. apply ordinary_exp in Hb as [Hmb Heb].
  apply SFmul_spec; lia.
Qed.

Lemma fdiv_rounds (a b : f64) :
  ordinary a → ordinary b →
  rounds_to (f64_val a / f64_val b) (SFdiv 53 1024 a b).
Proof.
  intros Ha Hb.
  destruct (Ha) as [(ma & ea & -> & _) _]. destruct (Hb) as [(mb & eb & -> & _) _].
  apply ordinary_exp in Ha as [Hma Hea]. apply ordinary_exp in Hb as [Hmb Heb].
  apply SFdiv_spec; lia.
Qed.

(** A mantissa brought to a smaller exponent. *)
Lemma aligned_val m e ez :
  ez ≤ e →
  (inject_Z (Z.pos (shl_align m e ez).1) * pow2 ez
   == f64_val (S754_finite false m e))%Q.
Proof.
  intros H. rewrite shl_align_fst, f64_val_finite, inject_Z_mult by lia.
  rewrite <- (pow2_nonneg_Z (e - ez)) by lia.
  rewrite <- Qmult_assoc, <- pow2_add.
  replace (e - ez + ez) with e by lia. reflexivity.
Qed.

Lemma fadd_rounds (a b : f64) :
  ordinary a → ordinary b →
  rounds_to (f64_val a + f64_val b) (SFadd 53 1024 a b).
Proof.
  intros Ha Hb.
  destruct (Ha) as [(ma & ea & -> & _) _]. destruct (Hb) as [(mb & eb & -> & _) _].
  apply ordinary_exp in Ha as [Hma Hea]. apply ordinary_exp in Hb as [Hmb Heb].
  cbn [SFadd cond_Zopp].
  set (ez := Z.min ea eb) in *.
  assert (Hv : (inject_Z (Z.pos (shl_align ma ea ez).1 + Z.pos (shl_align mb eb ez).1)
                * pow2 ez
                == f64_val (S754_finite false ma ea)
                   + f64_val (S754_finite false mb eb))%Q).
  { rewrite <- (aligned_val ma ea ez), <- (aligned_val mb eb ez) by lia.
    rewrite inject_Z_plus. ring. }
  pose proof (shl_align_fst ma ea ez ltac:(lia)) as EA.
  pose proof (shl_align_fst mb eb ez ltac:(lia)) as EB.
  set (pa := (shl_align ma ea ez).1) in *. set (pb := (shl_align mb eb ez).1) in *.
  change (Z.pos pa + Z.pos pb) with (Z.pos (pa + pb)) in *.
  cbn [binary_normalize].
  eapply rounds_to_proper; [exact Hv|].
  assert (Hpa : 0 < 2 ^ (ea - ez)) by (apply Z.pow_pos_nonneg; lia).
  assert (Hpb : 0 < 2 ^ (eb - ez)) by (apply Z.pow_pos_nonneg; lia).
  assert (Hl : 2 ^ 52 ≤ Z.pos (pa + pb)) by (rewrite Pos2Z.inj_add; nia).
  set (k := Z.max ea eb - ez).
  assert (Hka : 2 ^ (ea - ez) ≤ 2 ^ k) by (apply Z.pow_le_mono_r; lia).
  assert (Hkb : 2 ^ (eb - ez) ≤ 2 ^ k) by (apply Z.pow_le_mono_r; lia).
  assert (Hu : Z.pos (pa + pb) < 2 ^ (54 + k)).
  { rewrite Z.pow_add_r by lia. rewrite Pos2Z.inj_add. nia. }
  apply digits2_pos_gt in Hl. apply digits2_pos_le in Hu; [|lia].
  apply binary_round_spec; lia.
Qed.

Lemma fsub_rounds (a b : f64) :
  ordinary a → ordinary b → (f64_val b < f64_val a)%Q →
  rounds_to (f64_val a - f64_val b) (SFsub 53 1024 a b).
Proof.
  intros Ha Hb Hlt.
  destruct (Ha) as [(ma & ea & -> & _) _]. destruct (Hb) as [(mb & eb & -> & _) _].
  apply ordinary_exp in Ha as [Hma Hea]. apply ordinary_exp in Hb as [Hmb Heb].
  cbn [SFsub cond_Zopp].
  set (ez := Z.min ea eb) in *.
  assert (Hv : (inject_Z (Z.pos (shl_align ma ea ez).1 - Z.pos (shl_align mb eb ez).1)
                * pow2 ez
                == f64_val (S754_finite false ma ea)
                   - f64_val (S754_finite false mb eb))%Q).
  { rewrite <- (aligned_val ma ea ez), <- (aligned_val mb eb ez) by lia.
    unfold Z.sub. rewrite inject_Z_plus, inject_Z_opp. ring. }
  pose proof (shl_align_fst ma ea ez ltac:(lia)) as EA.
  pose proof (shl_align_fst mb eb ez ltac:(lia)) as EB.
  set (pa := Z.pos (shl_align ma ea ez).1) in *.
  set (pb := Z.pos (shl_align mb eb ez).1) in *.
  assert (Hpos : 0 < pa - pb).
  { pose proof (pow2_pos ez).
    assert (0 < inject_Z (pa - pb) * pow2 ez)%Q by (rewrite Hv; lra).
    destruct (Z.lt_ge_cases 0 (pa - pb)) as [|Hge]; [done|].
    assert (H' : (inject_Z (pa - pb) <= 0)%Q).
    { change 0%Q with (inject_Z 0). rewrite <- Zle_Qle. lia. }
    nra. }
  destruct (pa - pb) as [|N|N] eqn:EN; try lia.
  cbn [binary_normalize].
  eapply rounds_to_proper; [exact Hv|].
  assert (Hpa : 0 < 2 ^ (ea - ez)) by (apply Z.pow_pos_nonneg; lia).
  set (k := Z.max ea eb - ez).
  assert (Hka : 2 ^ (ea - ez) ≤ 2 ^ k) by (apply Z.pow_le_mono_r; lia).
  assert (Hu : Z.pos N < 2 ^ (53 + k)).
  { rewrite Z.pow_add_r by lia. nia. }
  apply digits2_pos_le in Hu; [|lia].
  apply binary_round_spec; lia.
Qed.

Lemma fsub_zero (a b : f64) :
  ordinary a → ordinary b → (f64_val a == f64_val b)%Q →
  SFsub 53 1024 a b = S754_zero false.
Proof.
  intros Ha Hb Heq.
  destruct (Ha) as [(ma & ea & -> & _) _]. destruct (Hb) as [(mb & eb & -> & _) _].
  cbn [SFsub cond_Zopp].
  set (ez := Z.min ea eb) in *.
  assert (Hv : (inject_Z (Z.pos (shl_align ma ea ez).1 - Z.pos (shl_align mb eb ez).1)
                * pow2 ez
                == f64_val (S754_finite false ma ea)
                   - f64_val (S754_finite false mb eb))%Q).
  { rewrite <- (aligned_val ma ea ez), <- (aligned_val mb eb ez) by lia.
    unfold Z.sub. rewrite inject_Z_plus, inject_Z_opp. ring. }
  set (pa := Z.pos (shl_align ma ea ez).1) in *.
  set (pb := Z.pos (shl_align mb eb ez).1) in *.
  assert (E0 : pa - pb = 0).
  { pose proof (pow2_pos ez).
    assert (H0 : (inject_Z (pa - pb) * pow2 ez == 0)%Q) by (rewrite Hv; lra).
    apply Qmult_integral in H0 as [H0|H0]; [|lra].
    change 0%Q with (inject_Z 0) in H0. by rewrite inject_Z_injective in H0. }
  rewrite E0. reflexivity.
Qed.

(** Integers below 2^53 are converted exactly. *)
Lemma rounds_to_exact x v (k j : Z) :
  rounds_to x v → 0 ≤ k ≤ 2 ^ 53 → (x == inject_Z k * pow2 j)%Q →
  (f64_val v == x)%Q.
Proof.
  intros H Hk Ex.
  pose proof (rounds_to_ge x v k j H Hk ltac:(rewrite Ex; apply Qle_refl)).
  pose proof (rounds_to_le x v k j H Hk ltac:(rewrite Ex; apply Qle_refl)).
  rewrite Ex. lra.
Qed.

Lemma of_int_rounds n :
  0 < n < 2 ^ 1000 →
  rounds_to (inject_Z n) (binary_normalize 53 1024 n 0 false).
Proof.
  intros [Hn Hu]. destruct n as [|p|p]; try lia. cbn [binary_normalize].
  apply digits2_pos_le in Hu; [|lia].
  pose proof (Pos2Z.is_pos (digits2_pos p)).
  eapply rounds_to_proper; [|apply binary_round_spec; lia].
  change (pow2 0) with 1%Q. ring.
Qed.

Lemma of_int_exact n :
  0 < n ≤ 2 ^ 53 →
  ordinary (binary_normalize 53 1024 n 0 false)
  ∧ (f64_val (binary_normalize 53 1024 n 0 false) == inject_Z n)%Q.
Proof.
  intros Hn. pose proof (of_int_rounds n ltac:(lia)) as H.
  split.
  - apply (rounds_to_ordinary _ _ H).
    + assert (pow2 (-199) <= pow2 0)%Q by (by apply pow2_le).
      change (pow2 0) with (inject_Z 1) in *.
      assert (inject_Z 1 <= inject_Z n)%Q by (rewrite <- Zle_Qle; lia). lra.
    + assert (pow2 53 <= pow2 199)%Q by (by apply pow2_le).
      rewrite (pow2_nonneg_Z 53) in * by lia.
      assert (inject_Z n <= inject_Z (2 ^ 53))%Q by (rewrite <- Zle_Qle; lia). lra.
  - apply (rounds_to_exact _ _ n 0 H); [lia|].
    change (pow2 0) with 1%Q. ring.
Qed.

End arith_facts.

Section binade_facts.
Local Open Scope Q_scope.

(** The exponent of the rounding is determined by the magnitude. *)
Lemma rounds_to_binade x v (e : Z) :
  rounds_to x v → pow2 (52 + e) <= x → x < pow2 (53 + e) →
  ∃ M, f64_val v == inject_Z M * pow2 e
    ∧ nearest_even (x / pow2 e) M ∧ (2 ^ 52 ≤ M ≤ 2 ^ 53)%Z.
Proof.
  intros H Hl Hu.
  destruct (rounds_to_val x v H) as (E & M & Ev & HM & H1 & H2 & Hne).
  assert (Ha : pow2 (52 + e) < pow2 (53 + E)) by lra.
  assert (Hb : pow2 (52 + E) < pow2 (53 + e)) by lra.
  apply pow2_lt_inv in Ha, Hb.
  assert (E = e) as -> by lia.
  by exists M.
Qed.

(** A number at most half an ulp above 1/2 is rounded to at most 1/2:
    the tie goes to the even mantissa. *)
Lemma rounds_to_half x v :
  rounds_to x v → x <= (1 # 2) + (1 # 2 ^ 54) → f64_val v <= 1 # 2.
Proof.
  intros H Hx.
  destruct (Qlt_le_dec (1 # 2) x) as [Hgt|Hle].
  - destruct (rounds_to_binade x v (-53) H) as (M & Ev & [[Hm1 Hm2] Htie] & HM).
    + change (pow2 (52 + -53)) with (1 # 2). lra.
    + change (pow2 (53 + -53)) with 1.
      change (1 # 2 ^ 54) with (1 # 18014398509481984) in Hx. lra.
    + rewrite Ev. change (pow2 (-53)) with (1 # 9007199254740992) in *.
      change (1 # 2 ^ 54) with (1 # 18014398509481984) in Hx.
      assert (Et : x / (1 # 9007199254740992) == x * 9007199254740992) by (field).
      rewrite Et in Hm1, Hm2, Htie.
      assert (HM1 : (M ≤ 2 ^ 52 + 1)%Z).
      { apply inject_Z_half_le. rewrite inject_Z_plus.
        change (inject_Z (2 ^ 52)) with 4503599627370496.
        change (inject_Z 1) with 1. lra. }
      destruct (Z.eq_dec M (2 ^ 52 + 1)%Z) as [->|Hne].
      * exfalso. assert (Hev : Z.even (2 ^ 52 + 1)%Z = true); [|done].
        apply Htie. left.
        change (inject_Z (2 ^ 52 + 1)) with 4503599627370497 in *. lra.
      * assert (HM2 : (M ≤ 2 ^ 52)%Z) by lia. rewrite Zle_Qle in HM2.
        change (inject_Z (2 ^ 52)) with 4503599627370496 in HM2. lra.
  - pose proof (rounds_to_le x v 1 (-1) H ltac:(lia)) as H1.
    change (inject_Z 1 * pow2 (-1)) with (1 # 2) in H1. by apply H1.
Qed.

End binade_facts.

(** * binary64: the accuracy of [gini] *)

Section near_facts.
Local Open Scope Q_scope.

Lemma near_proper D X X' v : X == X' → near D X v → near D X' v.
Proof. intros E (H1 & H2 & H3). unfold near. rewrite <- E. done. Qed.

Lemma budget_small D :
  (0 ≤ D ≤ 100)%Z →
  0 <= inject_Z D * (1 # 2 ^ 52) ∧ inject_Z D * (1 # 2 ^ 52) <= 1 # 2 ^ 45.
Proof.
  intros [H0 H1]. rewrite Zle_Qle in H0, H1.
  change (inject_Z 0) with 0 in H0. change (inject_Z 100) with 100 in H1.
  change (1 # 2 ^ 52) with (1 # 4503599627370496).
  change (1 # 2 ^ 45) with (1 # 35184372088832). split; lra.
Qed.

Lemma near_mono D D' X v : (0 ≤ D ≤ D')%Z → near D X v → near D' X v.
Proof.
  intros HD ((Hl & Hu) & Ho & H1 & H2).
  assert (HX : 0 < X) by (pose proof (pow2_pos (-100)); lra).
  assert (Hp : pow2 D <= pow2 D') by (apply pow2_le; lia).
  assert (Hd : inject_Z D <= inject_Z D') by (rewrite <- Zle_Qle; lia).
  unfold near. change (1 # 2 ^ 52) with (1 # 4503599627370496) in *.
  assert (inject_Z D * X <= inject_Z D' * X) by (apply Qmult_le_compat_r; lra).
  split; [split; lra|]. split; [done|]. split; lra.
Qed.

Lemma near_fadd D a b x y :
  (0 ≤ D < 100)%Z → near D x a → near D y b →
  near (D + 1) (x + y) (SFadd 53 1024 a b).
Proof.
  intros HD ((Hxl & Hxu) & Hoa & Ha1 & Ha2) ((Hyl & Hyu) & Hob & Hb1 & Hb2).
  pose proof (fadd_rounds a b Hoa Hob) as Hr.
  destruct (rounds_to_rel _ _ Hr) as [Hr1 Hr2].
  destruct (budget_small D ltac:(lia)) as [Hd0 Hd1].
  unfold near. rewrite inject_Z_plus. change (inject_Z 1) with 1.
  set (d := inject_Z D * (1 # 2 ^ 52)) in *.
  change (1 # 2 ^ 53) with (1 # 9007199254740992) in *.
  change (1 # 2 ^ 52) with (1 # 4503599627370496) in *.
  change (1 # 2 ^ 45) with (1 # 35184372088832) in *.
  pose proof (pow2_pos (-100)) as Hp.
  assert (Hp1 : pow2 (D + 1) == 2 * pow2 D) by (rewrite pow2_add; change (pow2 1) with 2; ring).
  assert (Hp100 : pow2 D <= pow2 100) by (apply pow2_le; lia).
  assert (E199 : pow2 (-199) <= pow2 (-100)) by (by apply pow2_le).
  assert (E102 : pow2 102 <= pow2 199) by (by apply pow2_le).
  assert (E102' : pow2 102 == 4 * pow2 100) by reflexivity.
  assert (Hdx : 0 <= d * x ∧ d * x <= (1 # 2) * x).
  { split; [apply Qmult_le_0_compat; lra|apply Qmult_le_compat_r; lra]. }
  assert (Hdy : 0 <= d * y ∧ d * y <= (1 # 2) * y).
  { split; [apply Qmult_le_0_compat; lra|apply Qmult_le_compat_r; lra]. }
  split; [split; [lra|rewrite Hp1; lra]|]. split.
  - apply (rounds_to_ordinary _ _ Hr); lra.
  - subst d. split; lra.
Qed.

End near_facts.

Section sum_facts.

Lemma near_foldl l : ∀ ql acc qacc D,
  0 ≤ D → D + Z.of_nat (length l) ≤ 100 →
  near D qacc acc → Forall2 (near D) ql l →
  near (D + Z.of_nat (length l))
       (foldl (fadd (F:=Q)) qacc ql) (foldl (fadd (F:=f64)) acc l).
Proof.
  induction l as [|a l IH]; intros ql acc qacc D HD Hlen Hacc Hl.
  - apply Forall2_nil_inv_r in Hl as ->. simpl. by rewrite Z.add_0_r.
  - apply Forall2_cons_inv_r in Hl as (q & ql' & Hq & Hl & ->).
    simpl length in *. cbn [foldl].
    replace (D + Z.of_nat (S (length l))) with ((D + 1) + Z.of_nat (length l)) by lia.
    apply IH; [lia|lia| |].
    + apply near_fadd; [lia|done|done].
    + eapply Forall2_impl; [exact Hl|]. intros x y. apply near_mono. lia.
Qed.

Lemma near_zip_with D : ∀ qr r qa a,
  0 ≤ D < 100 →
  Forall2 (near D) qr r → Forall2 (near D) qa a →
  Forall2 (near (D + 1)) (zip_with (fadd (F:=Q)) qr qa)
                         (zip_with (fadd (F:=f64)) r a).
Proof.
  intros qr r qa a HD Hr. revert qa a.
  induction Hr as [|q v qr r Hq Hr IH]; intros qa a Ha; [constructor|].
  destruct Ha as [|q' v' qa a Hq' Ha]; [constructor|].
  cbn [zip_with]. constructor; [|by apply IH].
  by apply near_fadd.
Qed.

Lemma length_unrolled_loop {F} `{Scalar F} iters : ∀ r a : list F,
  length r = 8%nat → (8 * iters ≤ length a)%nat →
  length (unrolled_loop iters r a).1 = 8%nat
  ∧ length (unrolled_loop iters r a).2 = (length a - 8 * iters)%nat.
Proof.
  induction iters as [|iters IH]; intros r a Hr Ha; cbn [unrolled_loop].
  - split; [done|]. cbn [snd]. lia.
  - destruct (IH (zip_with fadd r (take 8 a)) (drop 8 a)) as [H1 H2].
    + rewrite length_zip_with, length_take. lia.
    + rewrite length_drop. lia.
    + split; [done|]. rewrite H2, length_drop. lia.
Qed.

Lemma near_unrolled_loop iters : ∀ D0 D qr r qa a,
  0 ≤ D0 ≤ D → D + Z.of_nat iters ≤ 100 →
  Forall2 (near D) qr r → Forall2 (near D0) qa a →
  Forall2 (near (D + Z.of_nat iters))
          (unrolled_loop (F:=Q) iters qr qa).1 (unrolled_loop (F:=f64) iters r a).1
  ∧ Forall2 (near D0)
          (unrolled_loop (F:=Q) iters qr qa).2 (unrolled_loop (F:=f64) iters r a).2.
Proof.
  induction iters as [|iters IH]; intros D0 D qr r qa a HD Hlen Hr Ha;
    cbn [unrolled_loop].
  - split; [|done]. cbn [fst]. by rewrite Z.add_0_r.
  - replace (D + Z.of_nat (S iters)) with ((D + 1) + Z.of_nat iters) by lia.
    apply IH; [lia|lia| |by apply Forall2_drop].
    apply near_zip_with; [lia|done|].
    apply Forall2_take. eapply Forall2_impl; [exact Ha|].
    intros x y. apply near_mono. lia.
Qed.

Lemma near_tree_reduce D qr r :
  0 ≤ D → D + 3 ≤ 100 → length r = 8%nat →
  Forall2 (near D) qr r →
  near (D + 3) (tree_reduce (F:=Q) qr) (tree_reduce (F:=f64) r).
Proof.
  intros HD Hlen Hr H.
  pose proof (Forall2_length _ _ _ H) as Hq. rewrite Hr in Hq.
  destruct r as [|r0 [|r1 [|r2 [|r3 [|r4 [|r5 [|r6 [|r7 [|? ?]]]]]]]]]; try done.
  destruct qr as [|q0 [|q1 [|q2 [|q3 [|q4 [|q5 [|q6 [|q7 [|? ?]]]]]]]]]; try done.
  repeat match goal with
  | H : Forall2 _ (_ :: _) (_ :: _) |- _ =>
      apply Forall2_cons_1 in H as [? H]
  end.
  cbn [tree_reduce].
  replace (D + 3) with (D + 1 + 1 + 1) by lia.
  repeat (apply near_fadd; [lia| |]); done.
Qed.

Lemma fadd_neg_zero (v : f64) :
  ordinary v → fadd (F:=f64) fneg_zero v = v.
Proof. intros [(m & e & -> & _) _]. reflexivity. Qed.

Lemma fadd_zero (v : f64) :
  ordinary v → fadd (F:=f64) (of_int 0) v = v.
Proof. intros [(m & e & -> & _) _]. reflexivity. Qed.

Lemma near_foldl_neg_zero D qa a :
  0 ≤ D → D + Z.of_nat (length a) ≤ 100 → a ≠ [] →
  Forall2 (near D) qa a →
  near (D + Z.of_nat (length a))
       (foldl (fadd (F:=Q)) fneg_zero qa) (foldl (fadd (F:=f64)) fneg_zero a).
Proof.
  intros HD Hlen Hne H. destruct H as [|q v qa a Hq Ha]; [done|].
  cbn [foldl]. rewrite fadd_neg_zero by apply Hq.
  simpl length in *.
  eapply near_mono; [|apply near_foldl; [| |
    eapply near_proper; [|exact Hq]|exact Ha]]; try lia.
  cbn [fadd fneg_zero rational]. ring.
Qed.

Lemma near_block_sum D qa a :
  0 ≤ D → D + 25 ≤ 100 → a ≠ [] → (length a ≤ 128)%nat →
  Forall2 (near D) qa a →
  near (D + 25) (block_sum (F:=Q) qa) (block_sum (F:=f64) a).
Proof.
  intros HD HD' Hne Hlen H. unfold block_sum.
  pose proof (Forall2_length _ _ _ H) as Hq. rewrite Hq.
  destruct (Nat.ltb_spec (length a) 8) as [Hlt|Hge].
  - eapply near_mono; [|apply near_foldl_neg_zero; [| | |exact H]]; try done; lia.
  - set (iters := (length a / 8 - 1)%nat).
    assert (Hdiv : (8 * (length a / 8) ≤ length a)%nat)
      by (apply Nat.Div0.mul_div_le).
    assert (Hdiv2 : (length a / 8 ≤ 16)%nat)
      by (apply Nat.Div0.div_le_upper_bound; lia).
    assert (Hdiv3 : (1 ≤ length a / 8)%nat)
      by (apply Nat.div_le_lower_bound; lia).
    assert (Hmod : (length a < 8 * (length a / 8) + 8)%nat).
    { pose proof (Nat.div_mod_eq (length a) 8).
      pose proof (Nat.mod_upper_bound (length a) 8). lia. }
    destruct (near_unrolled_loop iters D D (take 8 qa) (take 8 a)
                (drop 8 qa) (drop 8 a)) as [Hr Hrest];
      [lia|lia|by apply Forall2_take|by apply Forall2_drop|].
    destruct (length_unrolled_loop (F:=f64) iters (take 8 a) (drop 8 a))
      as [Hl1 Hl2]; [rewrite length_take; lia|rewrite length_drop; lia|].
    rewrite length_drop in Hl2.
    destruct (unrolled_loop (F:=Q) iters (take 8 qa) (drop 8 qa)) as [qr qrest].
    destruct (unrolled_loop (F:=f64) iters (take 8 a) (drop 8 a)) as [r rest].
    cbn [fst snd] in *.
    assert (Ht : near (D + Z.of_nat iters + 3)
                      (tree_reduce (F:=Q) qr) (tree_reduce (F:=f64) r)).
    { apply near_tree_reduce; [lia|lia|done|exact Hr]. }
    assert (Hf : near (D + Z.of_nat iters + 3 + Z.of_nat (length rest))
                      (foldl (fadd (F:=Q)) (tree_reduce (F:=Q) qr) qrest)
                      (foldl (fadd (F:=f64)) (tree_reduce (F:=f64) r) rest)).
    { apply near_foldl; [lia|lia|exact Ht|].
      eapply Forall2_impl; [exact Hrest|]. intros x y. apply near_mono. lia. }
    eapply near_mono; [|exact Hf]. lia.
Qed.

End sum_facts.

Section pairwise_facts.

Lemma near_pairwise_sum j : ∀ fuel D qa a,
  0 ≤ D → D + 25 + Z.of_nat j ≤ 100 → (j ≤ fuel)%nat → a ≠ [] →
  Z.of_nat (length a) ≤ 112 * 2 ^ Z.of_nat j + 16 →
  Forall2 (near D) qa a →
  near (D + 25 + Z.of_nat j)
       (pairwise_sum (F:=Q) fuel qa) (pairwise_sum (F:=f64) fuel a).
Proof.
  induction j as [|j IH]; intros fuel D qa a HD HD' Hfuel Hne Hlen H;
    pose proof (Forall2_length _ _ _ H) as Hq.
  - change (2 ^ Z.of_nat 0) with 1 in Hlen.
    assert (Hn : (length a ≤ 128)%nat) by lia.
    replace (D + 25 + Z.of_nat 0) with (D + 25) by lia.
    destruct fuel as [|fuel]; cbn [pairwise_sum]; rewrite ?Hq.
    + apply near_block_sum; [lia|lia|done|done|done].
    + unfold PW_BLOCKSIZE. destruct (Nat.leb_spec (length a) 128); [|lia].
      apply near_block_sum; [lia|lia|done|done|done].
  - destruct fuel as [|fuel]; [lia|]. cbn [pairwise_sum]. rewrite Hq.
    unfold PW_BLOCKSIZE. destruct (Nat.leb_spec (length a) 128) as [Hn|Hn].
    + eapply near_mono; [|apply near_block_sum; [| | | |exact H]]; try done; lia.
    + set (n := length a) in *.
      set (n2 := (n / 2 - (n / 2) mod 8)%nat).
      pose proof (Nat.div_mod_eq n 2) as E2.
      pose proof (Nat.mod_upper_bound n 2 ltac:(lia)) as M2.
      pose proof (Nat.mod_upper_bound (n / 2) 8 ltac:(lia)) as M8.
      pose proof (Nat.Div0.mod_le (n / 2) 8) as M8'.
      assert (Hp : 2 ^ Z.of_nat (S j) = 2 * 2 ^ Z.of_nat j).
      { rewrite Nat2Z.inj_succ, Z.pow_succ_r by lia. done. }
      rewrite Hp in Hlen.
      assert (H1 : (0 < n2 < n)%nat) by lia.
      replace (D + 25 + Z.of_nat (S j)) with (D + 25 + Z.of_nat j + 1) by lia.
      apply near_fadd; [lia| |].
      * apply IH; [lia|lia|lia| |rewrite length_take; lia|by apply Forall2_take].
        intros E%(f_equal length). rewrite length_take in E. simpl in E. lia.
      * apply IH; [lia|lia|lia| |rewrite length_drop; lia|by apply Forall2_drop].
        intros E%(f_equal length). rewrite length_drop in E. simpl in E. lia.
Qed.

Lemma near_ordinary D X v : near D X v → ordinary v.
Proof. by intros (_ & H & _). Qed.

(** [np.sum] of at most 2^44 terms: at most 63 roundings deep. *)
Lemma near_np_sum D qa a :
  0 ≤ D → D + 63 ≤ 100 → a ≠ [] → Z.of_nat (length a) ≤ 2 ^ 44 →
  Forall2 (near D) qa a →
  near (D + 63) (np_sum (F:=Q) qa) (np_sum (F:=f64) a).
Proof.
  intros HD HD' Hne Hlen H. unfold np_sum.
  pose proof (Forall2_length _ _ _ H) as Hq. rewrite Hq.
  assert (Hp : near (D + 63) (pairwise_sum (F:=Q) (length a) qa)
                             (pairwise_sum (F:=f64) (length a) a)).
  { destruct (le_gt_dec (length a) 128) as [Hn|Hn].
    - eapply near_mono; [|apply (near_pairwise_sum 0); [| | | | |exact H]];
        try done; try lia.
    - eapply near_mono; [|apply (near_pairwise_sum 38); [| | | | |exact H]];
        try done; change (Z.of_nat 38) with 38; try lia. }
  rewrite fadd_zero by (by eapply near_ordinary).
  eapply near_proper; [|exact Hp]. cbn [fadd of_int rational].
  change (inject_Z 0) with 0%Q. ring.
Qed.

End pairwise_facts.

Section impurity_facts.
Local Open Scope Q_scope.

Lemma f64_to_Q_val v : normal v → f64_to_Q v = Some (f64_val v).
Proof. intros (m & e & -> & _). reflexivity. Qed.

Lemma inv_bounds (c n : Z) :
  (0 < c ≤ n)%Z → (n ≤ 2 ^ 44)%Z →
  pow2 (-44) <= inject_Z c / inject_Z n ∧ inject_Z c / inject_Z n <= 1.
Proof.
  intros [Hc Hcn] Hn.
  assert (Hn' : 0 < inject_Z n) by (apply inject_Z_pos; lia).
  assert (Hc' : 1 <= inject_Z c) by (change 1 with (inject_Z 1); rewrite <- Zle_Qle; lia).
  assert (Hcn' : inject_Z c <= inject_Z n) by (by rewrite <- Zle_Qle).
  assert (Hn2 : inject_Z n <= inject_Z (2 ^ 44)) by (by rewrite <- Zle_Qle).
  change (inject_Z (2 ^ 44)) with 17592186044416 in Hn2.
  split.
  - apply Qle_shift_div_l; [done|].
    change (pow2 (-44)) with (1 # 17592186044416). lra.
  - apply Qle_shift_div_r; [done|]. lra.
Qed.

(** One frequency and its square: three roundings. *)
Lemma near_square (c n : Z) :
  (0 < c ≤ n)%Z → (n ≤ 2 ^ 44)%Z →
  near 3 (inject_Z c / inject_Z n * (inject_Z c / inject_Z n))
    (fmul (F:=f64) (fdiv (of_int c) (of_int n)) (fdiv (of_int c) (of_int n))).
Proof.
  intros Hc Hn.
  destruct (of_int_exact c ltac:(lia)) as [Hoc Evc].
  destruct (of_int_exact n ltac:(lia)) as [Hon Evn].
  cbn [fmul fdiv of_int binary64].
  pose proof (fdiv_rounds _ _ Hoc Hon) as Hp.
  eapply rounds_to_proper in Hp; [|by rewrite Evc, Evn].
  destruct (inv_bounds c n Hc Hn) as [Hxl Hxu].
  set (x := inject_Z c / inject_Z n) in *.
  set (p := SFdiv 53 1024 _ _) in *.
  assert (E199 : pow2 (-199) <= pow2 (-100)) by (by apply pow2_le).
  assert (E100 : pow2 (-100) <= pow2 (-90)) by (by apply pow2_le).
  assert (E3 : 8 <= pow2 199).
  { assert (pow2 3 <= pow2 199) by (by apply pow2_le). by change (pow2 3) with 8 in *. }
  pose proof (pow2_pos (-199)) as P199.
  change (pow2 (-44)) with (1 # 17592186044416) in *.
  change (pow2 (-90)) with (1 # 1237940039285380274899124224) in *.
  assert (Hop : ordinary p) by (apply (rounds_to_ordinary _ _ Hp); lra).
  destruct (rounds_to_rel _ _ Hp) as [Hp1 Hp2].
  pose proof (fmul_rounds p p Hop Hop) as Hs.
  destruct (rounds_to_rel _ _ Hs) as [Hs1 Hs2].
  change (1 # 2 ^ 53) with (1 # 9007199254740992) in *.
  set (P := f64_val p) in *.
  assert (HPl : (1 # 35184372088832) <= P) by lra.
  assert (HPu : P <= 2) by lra.
  assert (HPP : (1 # 1237940039285380274899124224) <= P * P ∧ P * P <= 4) by nra.
  assert (Hxx : (1 # 309485009821345068724781056) <= x * x ∧ x * x <= 1) by nra.
  assert (HPx : (1 - (1 # 4503599627370496)) * (x * x) <= P * P
                ∧ P * P <= (1 + (1 # 4503599627370496) + (1 # 9007199254740992)) * (x * x)).
  { split; nra. }
  split; [|split].
  - change (pow2 3) with 8.
    assert (pow2 (-100) <= 1 # 309485009821345068724781056).
    { assert (pow2 (-100) <= pow2 (-88)) by (by apply pow2_le).
      by change (pow2 (-88)) with (1 # 309485009821345068724781056) in *. }
    lra.
  - apply (rounds_to_ordinary _ _ Hs); lra.
  - change (inject_Z 3) with 3. change (1 # 2 ^ 52) with (1 # 4503599627370496).
    split; nra.
Qed.

Lemma near_squares cs n :
  (n ≤ 2 ^ 44)%Z → Forall (λ c, 0 < c ≤ n)%Z cs →
  Forall2 (near 3) (np_square (np_true_divide (F:=Q) cs n))
                   (np_square (np_true_divide (F:=f64) cs n)).
Proof.
  intros Hn. unfold np_square, np_true_divide.
  induction 1 as [|c cs Hc _ IH]; [constructor|].
  rewrite !fmap_cons. constructor; [|exact IH].
  by apply near_square.
Qed.

End impurity_facts.

Section impurity_value.
Local Open Scope Z_scope.

Lemma total_bounds cs :
  Forall (λ c, 0 < c) cs →
  Forall (λ c, 0 < c ≤ total cs) cs ∧ Z.of_nat (length cs) ≤ total cs.
Proof.
  induction 1 as [|c cs Hc Hcs [IH1 IH2]]; [split; [constructor|cbn; lia]|].
  rewrite total_cons. simpl length. split; [|lia].
  constructor; [lia|]. eapply Forall_impl; [exact IH1|]. simpl. lia.
Qed.

Lemma sumsq_two_classes cs :
  Forall (λ c, 0 < c) cs → (2 ≤ length cs)%nat →
  sumsq cs ≤ total cs * total cs - total cs.
Proof.
  destruct cs as [|a [|b l]]; simpl length; try lia.
  intros [Ha Hl]%Forall_cons _.
  destruct (sumsq_le_sq (b :: l)) as [H1 H2].
  { eapply Forall_impl; [exact Hl|]. simpl. lia. }
  destruct (total_bounds (b :: l) Hl) as [_ H3]. simpl length in H3.
  rewrite (total_cons a), (sumsq_cons a). nia.
Qed.

Lemma binary64_impurity cs n :
  Forall (λ c, 0 < c) cs → total cs = n → (2 ≤ length cs)%nat → n ≤ 2 ^ 44 →
  let s := np_sum (np_square (np_true_divide (F:=f64) cs n)) in
  let X := (inject_Z (sumsq cs) / inject_Z (n * n))%Q in
  let g := fsub (F:=f64) (of_int 1) s in
  near 66 X s
  ∧ rounds_to (1 - f64_val s) g
  ∧ (0 < f64_val g ∧ f64_val g <= 1
     ∧ 1 - X - (1 # 2 ^ 45) <= f64_val g
     ∧ f64_val g <= 1 - X + (1 # 2 ^ 45))%Q.
Proof.
  intros Hpos Htot Hk Hn s X g.
  destruct (total_bounds cs Hpos) as [Hb Hlen]. rewrite Htot in Hb, Hlen.
  assert (Hn2 : 2 ≤ n) by lia.
  assert (Hs : near 66 X s).
  { subst s X. eapply near_proper; [|apply (near_np_sum 3)].
    - rewrite np_sum_exact. apply Qsum_squares. lia.
    - lia.
    - lia.
    - destruct cs; [simpl in Hk; lia|done].
    - unfold np_square, np_true_divide. rewrite !length_fmap. lia.
    - by apply near_squares. }
  pose proof (sumsq_two_classes cs Hpos Hk) as Hss. rewrite Htot in Hss.
  destruct (sumsq_le_sq cs) as [_ Hs0].
  { eapply Forall_impl; [exact Hpos|]. simpl. lia. }
  assert (HX : (0 < X ∧ X <= 1 - 1 / inject_Z n)%Q).
  { destruct Hs as ((HXl & _) & _). pose proof (pow2_pos (-100)).
    split; [lra|]. subst X.
    assert (Hn' : (0 < inject_Z n)%Q) by (apply inject_Z_pos; lia).
    assert (Hnn : (0 < inject_Z (n * n))%Q) by (apply inject_Z_pos; nia).
    apply Qle_shift_div_r; [done|].
    rewrite Zle_Qle in Hss. unfold Z.sub in Hss.
    rewrite inject_Z_plus, inject_Z_opp in Hss.
    rewrite inject_Z_mult in *.
    assert (E : ((1 - 1 / inject_Z n) * (inject_Z n * inject_Z n)
                 == inject_Z n * inject_Z n - inject_Z n)%Q) by (field; lra).
    rewrite E. lra. }
  destruct (inv_bounds 1 n ltac:(lia) Hn) as [Hr _].
  change (inject_Z 1) with 1%Q in Hr.
  change (pow2 (-44)) with (1 # 17592186044416) in Hr.
  destruct Hs as (HXr & Hos & Hs1 & Hs2).
  change (inject_Z 66) with 66%Q in *.
  change (1 # 2 ^ 52) with (1 # 4503599627370496) in *.
  set (S := f64_val s) in *. set (r := (1 / inject_Z n)%Q) in *.
  assert (HS1 : (S < 1)%Q) by nra.
  assert (HS0 : (0 < S)%Q) by nra.
  destruct (of_int_exact 1 ltac:(lia)) as [Ho1 Ev1].
  change (inject_Z 1) with 1%Q in Ev1.
  assert (Hg : rounds_to (1 - S) g).
  { subst g S. eapply rounds_to_proper; [|apply fsub_rounds; [exact Ho1|exact Hos|]].
    - by rewrite Ev1.
    - rewrite Ev1. done. }
  destruct (rounds_to_pos _ _ Hg) as [_ Hg0].
  destruct (rounds_to_rel _ _ Hg) as [Hg1 Hg2].
  pose proof (rounds_to_le _ _ 1 0 Hg ltac:(lia)) as Hg3.
  change (inject_Z 1 * pow2 0)%Q with 1%Q in Hg3.
  specialize (Hg3 ltac:(lra)).
  change (1 # 2 ^ 53) with (1 # 9007199254740992) in *.
  change (1 # 2 ^ 45) with (1 # 35184372088832).
  split; [done|]. split; [done|]. split; [done|]. split; [done|].
  split; nra.
Qed.

End impurity_value.

Section two_classes.
Local Open Scope Q_scope.

Lemma frequency_rounds (c n : Z) :
  (0 < c ≤ n)%Z → (n ≤ 2 ^ 44)%Z →
  rounds_to (inject_Z c / inject_Z n) (fdiv (F:=f64) (of_int c) (of_int n))
  ∧ ordinary (fdiv (F:=f64) (of_int c) (of_int n)).
Proof.
  intros Hc Hn.
  destruct (of_int_exact c ltac:(lia)) as [Hoc Evc].
  destruct (of_int_exact n ltac:(lia)) as [Hon Evn].
  cbn [fdiv of_int binary64].
  pose proof (fdiv_rounds _ _ Hoc Hon) as Hp.
  eapply rounds_to_proper in Hp; [|by rewrite Evc, Evn].
  split; [done|].
  destruct (inv_bounds c n Hc Hn) as [Hxl Hxu].
  assert (E199 : pow2 (-199) <= pow2 (-44)) by (by apply pow2_le).
  assert (E0 : pow2 0 <= pow2 199) by (by apply pow2_le).
  change (pow2 0) with 1 in E0.
  apply (rounds_to_ordinary _ _ Hp); lra.
Qed.

(** Two frequencies [x1 >= 1/2 >= x2] of sum 1: the rounded squares of the
    rounded frequencies add up to at least [1/2 - 2^-54]. *)
Lemma two_squares_half (x1 x2 : Q) (p1 p2 a b : f64) :
  x1 + x2 == 1 → 1 # 2 <= x1 → 0 < x2 →
  rounds_to x1 p1 → rounds_to x2 p2 →
  rounds_to (f64_val p1 * f64_val p1) a →
  rounds_to (f64_val p2 * f64_val p2) b →
  (1 # 2) - (1 # 2 ^ 54) <= f64_val a + f64_val b.
Proof.
  intros Hsum Hx1 Hx2 Hp1 Hp2 Ha Hb.
  change (1 # 2 ^ 54) with (1 # 18014398509481984).
  destruct (rounds_to_pos _ _ Hb) as [_ HB0].
  destruct (Qlt_le_dec x2 (1 # 4)) as [Hlt|Hge].
  - (* one frequency above 3/4: its square alone is above 1/2 *)
    pose proof (rounds_to_ge x1 p1 3 (-2) Hp1 ltac:(lia)) as HP1.
    change (inject_Z 3 * pow2 (-2)) with (3 # 4) in HP1.
    specialize (HP1 ltac:(lra)).
    pose proof (rounds_to_ge _ a 1 (-1) Ha ltac:(lia)) as HA.
    change (inject_Z 1 * pow2 (-1)) with (1 # 2) in HA.
    specialize (HA ltac:(nra)). lra.
  - destruct (rounds_to_binade x1 p1 (-53) Hp1) as (M1 & E1 & [[Hm1 Hm1'] _] & HM1).
    { change (pow2 (52 + -53)) with (1 # 2). lra. }
    { change (pow2 (53 + -53)) with 1. lra. }
    change (pow2 (-53)) with (1 # 9007199254740992) in *.
    assert (Et1 : x1 / (1 # 9007199254740992) == x1 * 9007199254740992) by field.
    rewrite Et1 in Hm1, Hm1'.
    assert (H2 : ∃ M2, f64_val p2 == inject_Z M2 * (1 # 18014398509481984)
                 ∧ x2 * 18014398509481984 <= inject_Z M2 + (1 # 2)
                 ∧ (2 ^ 52 ≤ M2 ≤ 2 ^ 53)%Z).
    { destruct (Qlt_le_dec x2 (1 # 2)) as [Hlt2|Hge2].
      - destruct (rounds_to_binade x2 p2 (-54) Hp2) as (M2 & E2 & [[_ Hm2] _] & HM2).
        { change (pow2 (52 + -54)) with (1 # 4). lra. }
        { change (pow2 (53 + -54)) with (1 # 2). lra. }
        exists M2. change (pow2 (-54)) with (1 # 18014398509481984) in *.
        assert (Et2 : x2 / (1 # 18014398509481984) == x2 * 18014398509481984) by field.
        rewrite Et2 in Hm2. done.
      - exists (2 ^ 53)%Z.
        assert (Ex : x2 == inject_Z 1 * pow2 (-1)).
        { change (inject_Z 1 * pow2 (-1)) with (1 # 2). lra. }
        pose proof (rounds_to_exact x2 p2 1 (-1) Hp2 ltac:(lia) Ex) as Ev.
        change (inject_Z (2 ^ 53)) with 9007199254740992.
        split; [rewrite Ev; lra|]. split; [lra|lia]. }
    destruct H2 as (M2 & E2 & Hm2 & HM2).
    assert (HK : (2 ^ 54 - 1 ≤ 2 * M1 + M2)%Z).
    { apply inject_Z_half_le.
      rewrite inject_Z_plus, inject_Z_mult.
      change (inject_Z (2 ^ 54 - 1)) with 18014398509481983.
      change (inject_Z 2) with 2. lra. }
    rewrite Zle_Qle, inject_Z_plus, inject_Z_mult in HK.
    change (inject_Z (2 ^ 54 - 1)) with 18014398509481983 in HK.
    change (inject_Z 2) with 2 in HK.
    destruct HM1 as [HM1l HM1u]. destruct HM2 as [HM2l HM2u].
    pose proof (rounds_to_ge _ a (M1 - 2 ^ 51) (-53) Ha ltac:(lia)) as HA.
    pose proof (rounds_to_ge _ b (M2 - 2 ^ 52) (-54) Hb ltac:(lia)) as HB.
    unfold Z.sub in HA, HB. rewrite inject_Z_plus in HA, HB.
    change (inject_Z (- 2 ^ 51)) with (-2251799813685248) in HA.
    change (inject_Z (- 2 ^ 52)) with (-4503599627370496) in HB.
    change (pow2 (-53)) with (1 # 9007199254740992) in HA.
    change (pow2 (-54)) with (1 # 18014398509481984) in HB.
    rewrite Zle_Qle in HM1l, HM1u, HM2l, HM2u.
    change (inject_Z (2 ^ 52)) with 4503599627370496 in *.
    change (inject_Z (2 ^ 53)) with 9007199254740992 in *.
    set (P1 := f64_val p1) in *. set (P2 := f64_val p2) in *.
    assert (HA' : P1 - (1 # 4) <= f64_val a).
    { assert (HA1 : (inject_Z M1 + -2251799813685248) * (1 # 9007199254740992)
                    == P1 - (1 # 4)) by (rewrite E1; ring).
      rewrite HA1 in HA. apply HA.
      assert (0 <= (P1 - (1 # 2)) * (P1 - (1 # 2))) by nra. lra. }
    assert (HB' : P2 - (1 # 4) <= f64_val b).
    { assert (HB1 : (inject_Z M2 + -4503599627370496) * (1 # 18014398509481984)
                    == P2 - (1 # 4)) by (rewrite E2; ring).
      rewrite HB1 in HB. apply HB.
      assert (0 <= (P2 - (1 # 2)) * (P2 - (1 # 2))) by nra. lra. }
    assert (P1 + P2 >= 1 - (1 # 18014398509481984)) by (rewrite E1, E2; lra).
    lra.
Qed.

End two_classes.

Section two_classes_value.
Local Open Scope Z_scope.

(** With two classes the binary64 result is at most 1/2. *)
Lemma binary64_two_classes c1 c2 :
  0 < c1 → 0 < c2 → c1 + c2 ≤ 2 ^ 44 →
  (f64_val (fsub (F:=f64) (of_int 1)
     (np_sum (np_square (np_true_divide [c1; c2] (c1 + c2))))) <= 1 # 2)%Q.
Proof.
  intros H1 H2 Hn. set (n := c1 + c2) in *.
  destruct (binary64_impurity [c1; c2] n) as (_ & Hg & _);
    [repeat constructor; lia|cbn; lia|simpl; lia|done|].
  apply (rounds_to_half _ _ Hg).
  destruct (frequency_rounds c1 n ltac:(lia) Hn) as [Hp1 Hop1].
  destruct (frequency_rounds c2 n ltac:(lia) Hn) as [Hp2 Hop2].
  pose proof (fmul_rounds _ _ Hop1 Hop1) as Ha.
  pose proof (fmul_rounds _ _ Hop2 Hop2) as Hb.
  pose proof (near_square c1 n ltac:(lia) Hn) as Hna.
  pose proof (near_square c2 n ltac:(lia) Hn) as Hnb.
  pose proof (near_fadd 3 _ _ _ _ ltac:(lia) Hna Hnb) as Hns.
  cbn [fmul fdiv fadd binary64] in *.
  set (p1 := SFdiv 53 1024 (of_int c1) (of_int n)) in *.
  set (p2 := SFdiv 53 1024 (of_int c2) (of_int n)) in *.
  set (a := SFmul 53 1024 p1 p1) in *. set (b := SFmul 53 1024 p2 p2) in *.
  assert (Es : np_sum (np_square (np_true_divide (F:=f64) [c1; c2] n))
               = SFadd 53 1024 a b).
  { rewrite np_sum_short by (simpl; lia).
    unfold np_square, np_true_divide. rewrite !fmap_cons, !fmap_nil.
    cbn [foldl]. rewrite fadd_neg_zero by (by eapply near_ordinary).
    apply fadd_zero. by eapply near_ordinary. }
  rewrite Es.
  pose proof (fadd_rounds a b (near_ordinary _ _ _ Hna) (near_ordinary _ _ _ Hnb))
    as Hs.
  assert (Hx : (inject_Z c1 / inject_Z n + inject_Z c2 / inject_Z n == 1)%Q).
  { subst n. rewrite inject_Z_plus. field.
    rewrite <- inject_Z_plus. apply inject_Z_nonzero. lia. }
  destruct (inv_bounds c1 n ltac:(lia) Hn) as [Hx1 _].
  destruct (inv_bounds c2 n ltac:(lia) Hn) as [Hx2 _].
  pose proof (pow2_pos (-44)) as P44.
  assert (Hab : ((1 # 2) - (1 # 2 ^ 54) <= f64_val a + f64_val b)%Q).
  { set (x1 := (inject_Z c1 / inject_Z n)%Q) in *.
    set (x2 := (inject_Z c2 / inject_Z n)%Q) in *.
    destruct (Qlt_le_dec x1 (1 # 2)) as [Hlt|Hge].
    - rewrite Qplus_comm.
      apply (two_squares_half x2 x1 p2 p1 b a); try done; [|lra..].
      rewrite Qplus_comm. exact Hx.
    - apply (two_squares_half x1 x2 p1 p2 a b); try done. lra. }
  pose proof (rounds_to_ge _ _ (2 ^ 53 - 1) (-54) Hs ltac:(lia)) as Hge.
  change (inject_Z (2 ^ 53 - 1) * pow2 (-54))%Q
    with (9007199254740991 # 18014398509481984) in Hge.
  change (1 # 2 ^ 54) with (1 # 18014398509481984) in *.
  specialize (Hge ltac:(lra)). lra.
Qed.

End two_classes_value.

(** * The conversion to [float64] *)

Section conversion_monotone.
Local Open Scope Z_scope.


(** Rounding to nearest is monotone. *)
Lemma rounds_to_mono x y v w :
  rounds_to x v → rounds_to y w → (x <= y)%Q → (f64_val v <= f64_val w)%Q.
Proof.
  intros Hv Hw Hxy.
  destruct (rounds_to_val x v Hv) as (E & M & Ev & HM & Hx1 & Hx2 & [[Ha Hb] Hta]).
  destruct (rounds_to_val y w Hw) as (E' & M' & Ew & HM' & Hy1 & Hy2 & [[Ha' Hb'] Htb]).
  assert (HE : E ≤ E').
  { assert (H : (pow2 (52 + E) < pow2 (53 + E'))%Q) by lra.
    apply pow2_lt_inv in H. lia. }
  rewrite Ev, Ew. pose proof (pow2_pos E) as HpE. pose proof (pow2_pos E') as HpE'.
  destruct (Z.eq_dec E E') as [<-|Hne].
  - assert (Ht : (x / pow2 E <= y / pow2 E)%Q).
    { apply Qle_shift_div_l; [done|].
      assert (E0 : (x / pow2 E * pow2 E == x)%Q) by (field; lra). by rewrite E0. }
    assert (HM1 : M ≤ M' + 1).
    { apply inject_Z_half_le. rewrite inject_Z_plus. change (inject_Z 1) with 1%Q. lra. }
    assert (HMM : M ≤ M').
    { destruct (Z.eq_dec M (M' + 1)) as [EM|]; [|lia]. exfalso.
      rewrite EM, inject_Z_plus in Ha. change (inject_Z 1) with 1%Q in Ha.
      assert (Hev : Z.even M = true).
      { apply Hta. left. rewrite EM, inject_Z_plus. change (inject_Z 1) with 1%Q. lra. }
      assert (Hev' : Z.even M' = true) by (apply Htb; right; lra).
      rewrite EM in Hev. replace (M' + 1) with (Z.succ M') in Hev by lia.
      rewrite Z.even_succ, <- Z.negb_even, Hev' in Hev. done. }
    rewrite Zle_Qle in HMM. apply Qmult_le_compat_r; lra.
  - assert (Hp : (pow2 (53 + E) <= pow2 (52 + E'))%Q) by (apply pow2_le; lia).
    rewrite (pow2_add 53 E), (pow2_add 52 E') in Hp.
    rewrite (pow2_nonneg_Z 53), (pow2_nonneg_Z 52) in Hp by lia.
    destruct HM as [_ HMu]. destruct HM' as [HMl _].
    rewrite Zle_Qle in HMu, HMl.
    assert (inject_Z M * pow2 E <= inject_Z (2 ^ 53) * pow2 E)%Q
      by (apply Qmult_le_compat_r; lra).
    assert (inject_Z (2 ^ 52) * pow2 E' <= inject_Z M' * pow2 E')%Q
      by (apply Qmult_le_compat_r; lra).
    lra.
Qed.

(** The sign of [binary_round] is the sign it is given. *)
Lemma binary_round_opp m e :
  binary_round 53 1024 true m e = SFopp (binary_round 53 1024 false m e).
Proof.
  unfold binary_round. destruct (shl_align m e _) as [mz ez].
  unfold binary_round_aux.
  destruct (shr_fexp 53 1024 (Z.pos mz) ez loc_Exact) as [mrs e'].
  destruct (shr_fexp 53 1024 _ e' loc_Exact) as [mrs' e''].
  destruct (shr_m mrs') as [|p|p]; try done.
  by destruct (e'' <=? 1024 - 53).
Qed.

Lemma float64_to_int_opp v : float64_to_int (SFopp v) = - float64_to_int v.
Proof. destruct v as [| | |[] m e]; simpl; lia. Qed.

(** [float64_to_int] is the integer part of the value. *)
Lemma float64_to_int_floor m e :
  (inject_Z (float64_to_int (S754_finite false m e))
   <= f64_val (S754_finite false m e))%Q
  ∧ (f64_val (S754_finite false m e)
     < inject_Z (float64_to_int (S754_finite false m e)) + 1)%Q.
Proof.
  cbn [float64_to_int f64_val cond_Zopp].
  destruct (Z.le_gt_cases 0 e) as [He|He].
  - rewrite Z.shiftl_mul_pow2, inject_Z_mult, <- pow2_nonneg_Z by lia.
    split; lra.
  - rewrite Z.shiftl_div_pow2 by lia.
    assert (Hp : 0 < 2 ^ (- e)) by (apply Z.pow_pos_nonneg; lia).
    pose proof (Z.div_mod (Z.pos m) (2 ^ (- e)) (Z.neq_sym _ _ (Z.lt_neq _ _ Hp))) as Hdm.
    pose proof (Z.mod_pos_bound (Z.pos m) (2 ^ (- e)) Hp) as Hmod.
    set (k := Z.pos m / 2 ^ (- e)) in *. set (r := Z.pos m mod 2 ^ (- e)) in *.
    assert (Ep : (pow2 e * inject_Z (2 ^ (- e)) == 1)%Q).
    { rewrite <- pow2_nonneg_Z, <- pow2_add by lia.
      replace (e + - e) with 0 by lia. reflexivity. }
    pose proof (pow2_pos e) as Hpe.
    assert (Em : (inject_Z (Z.pos m) * pow2 e == inject_Z k + inject_Z r * pow2 e)%Q).
    { rewrite Hdm, inject_Z_plus, inject_Z_mult.
      transitivity (inject_Z k * (pow2 e * inject_Z (2 ^ (- e))) + inject_Z r * pow2 e)%Q;
        [ring|]. rewrite Ep. ring. }
    assert (Hr0 : (0 <= inject_Z r)%Q).
    { change 0%Q with (inject_Z 0). rewrite <- Zle_Qle. lia. }
    assert (Hr1 : (inject_Z r * pow2 e < 1)%Q).
    { rewrite <- Ep. rewrite (Qmult_comm (pow2 e)).
      apply Qmult_lt_compat_r; [done|]. rewrite <- Zlt_Qlt. lia. }
    rewrite Em. split; [|lra].
    assert (0 <= inject_Z r * pow2 e)%Q by (apply Qmult_le_0_compat; lra). lra.
Qed.

Lemma float64_to_int_mono v w :
  normal v → normal w → (f64_val v <= f64_val w)%Q →
  float64_to_int v ≤ float64_to_int w.
Proof.
  intros (m & e & -> & _) (m' & e' & -> & _) H.
  destruct (float64_to_int_floor m e) as [H1 _].
  destruct (float64_to_int_floor m' e') as [_ H2].
  assert (H3 : (inject_Z (float64_to_int (S754_finite false m e))
                < inject_Z (float64_to_int (S754_finite false m' e') + 1))%Q).
  { rewrite inject_Z_plus. change (inject_Z 1) with 1%Q. lra. }
  rewrite <- Zlt_Qlt in H3. lia.
Qed.

(** The value stored for an integer in a [float64] array. *)
Lemma astype_float64_pos x :
  0 < x < 2 ^ 1000 →
  1 ≤ astype float64 x ∧ normal (of_int (F:=f64) x)
  ∧ rounds_to (inject_Z x) (of_int (F:=f64) x).
Proof.
  intros Hx. pose proof (of_int_rounds x Hx) as Hr.
  pose proof (rounds_to_normal _ _ Hr) as Hn.
  split; [|split; done]. cbn [astype].
  pose proof (rounds_to_ge _ _ 1 0 Hr ltac:(lia)) as Hge.
  change (inject_Z 1 * pow2 0)%Q with 1%Q in Hge.
  assert (H1 : (1 <= inject_Z x)%Q).
  { change 1%Q with (inject_Z 1). rewrite <- Zle_Qle. lia. }
  specialize (Hge H1).
  destruct Hn as (m & e & E & _). cbn [of_int binary64] in *. rewrite E in *.
  destruct (float64_to_int_floor m e) as [_ H2].
  assert (H3 : (inject_Z 1 < inject_Z (float64_to_int (S754_finite false m e) + 1))%Q).
  { rewrite inject_Z_plus. change (inject_Z 1) with 1%Q. lra. }
  rewrite <- Zlt_Qlt in H3. lia.
Qed.

Lemma astype_float64_opp x : astype float64 (- x) = - astype float64 x.
Proof.
  destruct x as [|p|p]; [done| |].
  - change (float64_to_int (binary_round 53 1024 true p 0)
            = - float64_to_int (binary_round 53 1024 false p 0)).
    by rewrite binary_round_opp, float64_to_int_opp.
  - change (float64_to_int (binary_round 53 1024 false p 0)
            = - float64_to_int (binary_round 53 1024 true p 0)).
    rewrite binary_round_opp, float64_to_int_opp. lia.
Qed.

Lemma astype_float64_mono_pos a b :
  0 < a ≤ b → b < 2 ^ 1000 → astype float64 a ≤ astype float64 b.
Proof.
  intros Hab Hb.
  destruct (astype_float64_pos a ltac:(lia)) as (_ & Hna & Hra).
  destruct (astype_float64_pos b ltac:(lia)) as (_ & Hnb & Hrb).
  cbn [astype]. apply float64_to_int_mono; [done|done|].
  apply (rounds_to_mono _ _ _ _ Hra Hrb). rewrite <- Zle_Qle. lia.
Qed.

(** On integers that a binary64 number can hold, the conversion is
    monotone. *)
Lemma astype_float64_mono a b :
  - 2 ^ 1000 < a → a ≤ b → b < 2 ^ 1000 →
  astype float64 a ≤ astype float64 b.
Proof.
  intros Ha Hab Hb.
  assert (H0 : astype float64 0 = 0) by reflexivity.
  destruct (Z.lt_trichotomy a 0) as [Han|[->|Hap]];
    destruct (Z.lt_trichotomy b 0) as [Hbn|[->|Hbp]]; try lia.
  - pose proof (astype_float64_mono_pos (- b) (- a) ltac:(lia) ltac:(lia)) as H.
    rewrite !astype_float64_opp in H. lia.
  - rewrite H0. destruct (astype_float64_pos (- a) ltac:(lia)) as [H _].
    rewrite astype_float64_opp in H. lia.
  - destruct (astype_float64_pos (- a) ltac:(lia)) as [H _].
    destruct (astype_float64_pos b ltac:(lia)) as [H' _].
    rewrite astype_float64_opp in H. lia.
  - rewrite H0. destruct (astype_float64_pos b ltac:(lia)) as [H _]. lia.
  - by apply astype_float64_mono_pos.
Qed.

(** The dtype of the array is [object] as soon as one label, or the
    dtype so far, is. *)
Lemma foldl_promote_not_object d l :
  foldl (λ d z, promote_types d (discover_dtype z)) d l ≠ object →
  d ≠ object ∧ Forall (λ z, discover_dtype z ≠ object) l.
Proof.
  revert d. induction l as [|z l IH]; intros d Hd; cbn [foldl] in Hd.
  - by split.
  - destruct (IH _ Hd) as [Hg Hl].
    assert (d ≠ object ∧ discover_dtype z ≠ object) as [? ?]
      by (by destruct d, (discover_dtype z)).
    split; [done|by constructor].
Qed.

Lemma discover_dtype_bounds z :
  discover_dtype z ≠ object → - 2 ^ 63 ≤ z < 2 ^ 64.
Proof.
  unfold discover_dtype.
  destruct (Z.leb_spec (- 2 ^ 63) z), (Z.ltb_spec z (2 ^ 63)),
    (Z.leb_spec 0 z), (Z.ltb_spec z (2 ^ 64)); simpl; try done; lia.
Qed.

Lemma result_type_float64_bounds y :
  result_type y = float64 → Forall (λ x, - 2 ^ 63 ≤ x < 2 ^ 64) y.
Proof.
  destruct y as [|x y]; [by constructor|]. unfold result_type. intros Hd.
  destruct (foldl_promote_not_object (discover_dtype x) y) as [Hx Hy];
    [by rewrite Hd|].
  constructor; [by apply discover_dtype_bounds|].
  eapply Forall_impl; [exact Hy|]. intros z. apply discover_dtype_bounds.
Qed.

(** The dtype does not depend on the order of the labels. *)
Lemma foldl_promote_Permutation l l' d :
  l ≡ₚ l' →
  foldl (λ d z, promote_types d (discover_dtype z)) d l
  = foldl (λ d z, promote_types d (discover_dtype z)) d l'.
Proof.
  intros Hp. revert d.
  induction Hp as [|x l l' _ IH|x z l|l l' l'' _ IH1 _ IH2]; intros d.
  - done.
  - cbn [foldl]. apply IH.
  - cbn [foldl]. f_equal.
    by destruct d, (discover_dtype x), (discover_dtype z).
  - by rewrite IH1.
Qed.

Lemma result_type_Permutation y y' : y ≡ₚ y' → result_type y = result_type y'.
Proof.
  induction 1 as [|x l l' Hp _|x z l|l l' l'' _ IH1 _ IH2].
  - done.
  - unfold result_type. by apply foldl_promote_Permutation.
  - unfold result_type. cbn [foldl]. f_equal.
    by destruct (discover_dtype x), (discover_dtype z).
  - by rewrite IH1.
Qed.

Lemma np_asanyarray_Permutation y y' :
  y ≡ₚ y' → np_asanyarray y ≡ₚ np_asanyarray y'.
Proof.
  intros Hp. unfold np_asanyarray.
  rewrite (result_type_Permutation _ _ Hp). by apply fmap_Permutation.
Qed.

(** Labels that stay distinct stay in their order. *)
Lemma injective_on_astype_increasing y :
  injective_on (astype (result_type y)) y →
  increasing_on (astype (result_type y)) y.
Proof.
  intros Hk a b Ha Hb Hab.
  destruct (result_type y) eqn:Hd; try done.
  pose proof (result_type_float64_bounds y Hd) as Hy.
  rewrite Forall_forall in Hy.
  pose proof (Hy a Ha) as Hba. pose proof (Hy b Hb) as Hbb.
  assert (H2 : 2 ^ 64 < 2 ^ 1000) by (apply Z.pow_lt_mono_r; lia).
  assert (2 ^ 63 < 2 ^ 64) by (apply Z.pow_lt_mono_r; lia).
  pose proof (astype_float64_mono a b ltac:(lia) ltac:(lia) ltac:(lia)) as Hm.
  destruct (Z.eq_dec (astype float64 a) (astype float64 b)) as [E|]; [|lia].
  apply (Hk a b Ha Hb) in E. lia.
Qed.

End conversion_monotone.


(** * Lists and arrays *)

Section conversion.

Lemma length_np_asanyarray y : length (np_asanyarray y) = length y.
Proof. unfold np_asanyarray. by rewrite length_fmap. Qed.

Lemma np_asanyarray_nonempty y : y ≠ [] → np_asanyarray y ≠ [].
Proof. by destruct y. Qed.

(** Arrays of the integer dtypes and of dtype [object] hold the labels
    themselves. *)
Lemma labels_kept_exact y : result_type y ≠ float64 → labels_kept y.
Proof. intros Hd a b _ _. unfold astype. by destruct (result_type y). Qed.

(** Labels that stay distinct stay in their order. *)
Lemma labels_kept_increasing y :
  labels_kept y → increasing_on (astype (result_type y)) y.
Proof. apply injective_on_astype_increasing. Qed.

Lemma np_asanyarray_exact y : result_type y ≠ float64 → np_asanyarray y = y.
Proof.
  intros Hd. unfold np_asanyarray.
  transitivity (id <$> y); [|apply list_fmap_id].
  apply list_fmap_ext. intros _ x _. unfold astype. by destruct (result_type y).
Qed.

Lemma result_type_int64 y :
  y ≠ [] → Forall (λ x, - 2 ^ 63 ≤ x < 2 ^ 63) y → result_type y = int64.
Proof.
  destruct y as [|x y]; [done|]. intros _ [Hx Hy]%Forall_cons.
  unfold result_type.
  assert (Hd : ∀ z, - 2 ^ 63 ≤ z < 2 ^ 63 → discover_dtype z = int64).
  { intros z Hz. unfold discover_dtype.
    destruct (Z.leb_spec (- 2 ^ 63) z), (Z.ltb_spec z (2 ^ 63)); simpl; try lia.
    done. }
  rewrite (Hd x Hx). induction Hy as [|z y Hz Hy IH]; [done|].
  cbn [foldl]. by rewrite (Hd z Hz).
Qed.

Lemma labels_kept_int64 y :
  Forall (λ x, - 2 ^ 63 ≤ x < 2 ^ 63) y → labels_kept y.
Proof.
  intros Hy. destruct y as [|x y]; [by intros a b ?%elem_of_nil|].
  apply labels_kept_exact. by rewrite result_type_int64.
Qed.

(** When the conversion keeps the labels, [np.unique] finds the same
    counts in the same order, and [gini] returns the same value, in every
    arithmetic. *)
Lemma np_unique_asanyarray y :
  labels_kept y →
  np_unique (np_asanyarray y)
  = (astype (result_type y) <$> (np_unique y).1, (np_unique y).2).
Proof. intros Hk. by apply np_unique_increasing, labels_kept_increasing. Qed.

Lemma gini_asanyarray {F} `{Scalar F} y :
  labels_kept y → gini (np_asanyarray y) = gini y.
Proof.
  intros Hk.
  by rewrite !gini_unfold, np_unique_asanyarray, length_np_asanyarray.
Qed.

Lemma n_classes_fmap_le (f : Z → Z) y : n_classes (f <$> y) ≤ n_classes y.
Proof.
  unfold n_classes, distinct. apply inj_le.
  rewrite <- (length_fmap f (remove_dups y)).
  apply submseteq_length, NoDup_submseteq; [apply NoDup_remove_dups|].
  intros v. rewrite elem_of_remove_dups, !list_elem_of_fmap.
  by setoid_rewrite elem_of_remove_dups.
Qed.

Lemma n_classes_fmap (f : Z → Z) y :
  injective_on f y → n_classes (f <$> y) = n_classes y.
Proof.
  intros Hf. unfold n_classes.
  by rewrite (Permutation_length (distinct_fmap f y Hf)), length_fmap.
Qed.

Lemma n_classes_asanyarray y :
  labels_kept y → n_classes (np_asanyarray y) = n_classes y.
Proof. apply n_classes_fmap. Qed.

Lemma n_classes_pos y : y ≠ [] → 1 ≤ n_classes y.
Proof.
  intros Hy. unfold n_classes, distinct.
  destruct (remove_dups y) as [|a l] eqn:E; [|simpl length; lia].
  destruct y as [|x y]; [done|]. exfalso.
  eapply elem_of_nil. rewrite <- E, elem_of_remove_dups. left.
Qed.

End conversion.

(** * binary64: the value of [gini] on an array *)

Section binary64_gini.

(** On an array of at most 2^44 labels (an array of 128 TiB), the binary64
    result is a number between 0 and 1, within 2^-45 of the exact value; it
    is 0 exactly when there is one class, and at most 1/2 when there are
    two.  The bound on the length keeps the length and the counts exactly
    representable, the squares of the frequencies far from underflow, and
    the number of roundings of [np.sum] on any path at most 63. *)
Lemma gini_binary64_accuracy (a : list Z) :
  a ≠ [] → Z.of_nat (length a) ≤ 2 ^ 44 →
  ∃ q, f64_to_Q (gini (F:=f64) a) = Some q
    ∧ (0 <= q ∧ q <= 1)%Q
    ∧ (gini (F:=Q) a - (1 # 2 ^ 45) <= q ∧ q <= gini (F:=Q) a + (1 # 2 ^ 45))%Q
    ∧ (gini (F:=f64) a = S754_zero false ↔ n_classes a = 1)
    ∧ ((q == 0)%Q ↔ n_classes a = 1)
    ∧ (n_classes a ≤ 2 → (q <= 1 # 2)%Q).
Proof.
  intros Ha Hlen.
  destruct (gini_exact_data a Ha) as (Hn & Hk & Hl & Htot & Hpos & Eg).
  destruct (Z.eq_dec (n_classes a) 1) as [E1|Hne].
  - (* one class *)
    pose proof (gini_binary64_one_class a E1 ltac:(lia)) as E.
    assert (E0 : (gini (F:=Q) a == 0)%Q).
    { rewrite Eg, fraction_zero by nia. rewrite <- Htot.
      destruct (np_unique a).2 as [|c [|? ?]]; simpl length in Hl; try lia.
      cbn. lia. }
    exists 0%Q. rewrite E, E0. change (1 # 2 ^ 45) with (1 # 35184372088832).
    split; [done|]. split; [split; lra|]. split; [split; lra|].
    split; [done|]. split; [done|]. intros _. lra.
  - (* at least two classes *)
    destruct (binary64_impurity (np_unique a).2 (Z.of_nat (length a)))
      as (_ & Hg & Hg0 & Hg1 & Hlo & Hhi); [done|done|lia|done|].
    rewrite <- gini_unfold in Hg, Hg0, Hg1, Hlo, Hhi.
    pose proof (rounds_to_normal _ _ Hg) as Hnorm.
    exists (f64_val (gini (F:=f64) a)). rewrite Eg.
    split; [by apply f64_to_Q_val|]. split; [split; lra|].
    split; [split; lra|]. split; [|split].
    + split; [|done]. intros E. destruct Hnorm as (m & e & E' & _). congruence.
    + split; [|done]. intros E. lra.
    + intros Hk2. assert (Hk2' : length (np_unique a).2 = 2%nat) by lia.
      rewrite gini_unfold.
      destruct (np_unique a).2 as [|c1 [|c2 [|? ?]]]; simpl in Hk2'; try lia.
      apply Forall_cons in Hpos as [H1 [H2 _]%Forall_cons].
      rewrite <- Htot. cbn [total foldr]. rewrite Z.add_0_r.
      apply binary64_two_classes; [done|done|].
      cbn [total foldr] in Htot. lia.
Qed.

Lemma n_classes_le_length y : n_classes y ≤ Z.of_nat (length y).
Proof.
  rewrite <- length_np_unique, <- (total_np_unique y).
  apply total_bounds, np_unique_positive.
Qed.

(** The binary64 quotient [(k-1)/k] is within 2^-53 of the rational. *)
Lemma class_bound_binary64 (k : Z) :
  1 ≤ k ≤ 2 ^ 44 →
  ∃ r, f64_to_Q (fdiv (F:=f64) (of_int (k - 1)) (of_int k)) = Some r
    ∧ ((inject_Z k - 1) / inject_Z k - (1 # 2 ^ 53) <= r
       ∧ r <= (inject_Z k - 1) / inject_Z k + (1 # 2 ^ 53))%Q.
Proof.
  intros Hk. destruct (Z.eq_dec k 1) as [->|Hne].
  { exists 0%Q. split; [vm_compute; reflexivity|].
    split; vm_compute; discriminate. }
  destruct (frequency_rounds (k - 1) k ltac:(lia) ltac:(lia)) as [Hr [Hn _]].
  destruct (inv_bounds (k - 1) k ltac:(lia) ltac:(lia)) as [Hl Hu].
  exists (f64_val (fdiv (F:=f64) (of_int (k - 1)) (of_int k))).
  split; [by apply f64_to_Q_val|].
  destruct (rounds_to_rel _ _ Hr) as [H1 H2].
  assert (E : (inject_Z (k - 1) / inject_Z k
               == (inject_Z k - 1) / inject_Z k)%Q).
  { unfold Z.sub. rewrite inject_Z_plus. reflexivity. }
  rewrite E in *. pose proof (pow2_pos (-44)).
  set (x := ((inject_Z k - 1) / inject_Z k)%Q) in *.
  set (v := f64_val _) in *.
  change (1 # 2 ^ 53) with (1 # 9007199254740992) in *.
  assert ((1 # 9007199254740992) * x <= (1 # 9007199254740992) * 1)%Q
    by (apply Qmult_le_l; [reflexivity|done]).
  split; lra.
Qed.

End binary64_gini.

(** * Exact arithmetic on an array *)

Section exact_array.
Local Open Scope Q_scope.

(** The exact value lies between 0 and [(k-1)/k]. *)
Lemma gini_exact_range_array (a : list Z) :
  a ≠ [] →
  0 <= gini (F:=Q) a
  ∧ gini (F:=Q) a <= (inject_Z (n_classes a) - 1) / inject_Z (n_classes a).
Proof.
  intros Ha.
  destruct (gini_exact_data a Ha) as (Hn & Hk & Hlen & Htot & Hpos & E).
  set (cs := (np_unique a).2) in *. set (n := Z.of_nat (length a)) in *.
  set (k := n_classes a) in *.
  destruct (sumsq_le_sq cs) as [_ Hle].
  { eapply Forall_impl; [exact Hpos|]. simpl. lia. }
  pose proof (sq_total_le cs) as Hcs. rewrite Htot, Hlen in Hcs.
  rewrite Htot in Hle.
  destruct (fraction_range (sumsq cs) (n * n) k) as [H0 H1]; try lia.
  by rewrite <- E in H0, H1.
Qed.

(** [(k-1)/k] grows with [k], and stays below 1, and below 1/2 up to
    [k = 2]. *)
Lemma class_bound_mono (k' k : Z) :
  (1 ≤ k' ≤ k)%Z →
  (inject_Z k' - 1) / inject_Z k' <= (inject_Z k - 1) / inject_Z k
  ∧ (inject_Z k - 1) / inject_Z k <= 1
  ∧ ((k ≤ 2)%Z → (inject_Z k - 1) / inject_Z k <= 1 # 2).
Proof.
  intros [H1 H2].
  pose proof (inject_Z_pos k' ltac:(lia)) as Hk'.
  pose proof (inject_Z_pos k ltac:(lia)) as Hk.
  rewrite Zle_Qle in H2. split; [|split].
  - apply Qle_shift_div_l; [done|].
    assert (E : (inject_Z k' - 1) / inject_Z k' * inject_Z k
                == inject_Z k - inject_Z k / inject_Z k') by (field; lra).
    rewrite E.
    assert (1 <= inject_Z k / inject_Z k'); [|lra].
    apply Qle_shift_div_l; [done|]. lra.
  - apply Qle_shift_div_r; [done|]. lra.
  - intros Hk2. rewrite Zle_Qle in Hk2. change (inject_Z 2) with 2 in Hk2.
    apply Qle_shift_div_r; [done|]. lra.
Qed.

(** The exact value is 0 exactly when there is one class. *)
Lemma gini_exact_zero_array (a : list Z) :
  a ≠ [] → gini (F:=Q) a == 0 ↔ n_classes a = 1%Z.
Proof.
  intros Ha.
  destruct (gini_exact_data a Ha) as (Hn & Hk & Hlen & Htot & Hpos & E).
  set (cs := (np_unique a).2) in *. set (n := Z.of_nat (length a)) in *.
  rewrite E, fraction_zero by lia. rewrite <- Htot. split.
  - intros Hs. destruct (decide (2 ≤ length cs)%nat) as [H2|H2]; [|lia].
    pose proof (sumsq_lt_sq cs Hpos H2). lia.
  - intros Hk1. rewrite <- Hlen in Hk1.
    destruct cs as [|c [|? ?]]; simpl length in Hk1; try lia.
    cbn. lia.
Qed.

(** Equal frequencies: the exact value is [(k-1)/k]. *)
Lemma gini_exact_uniform_array (a : list Z) :
  a ≠ [] →
  (∀ i, i ∈ a → frequency i a == 1 / inject_Z (n_classes a)) →
  gini (F:=Q) a == (inject_Z (n_classes a) - 1) / inject_Z (n_classes a).
Proof.
  intros Hy Hfreq.
  destruct (gini_exact_data a Hy) as (Hn & Hk & Hlen & Htot & Hpos & E).
  set (cs := (np_unique a).2) in *. set (n := Z.of_nat (length a)) in *.
  set (k := n_classes a) in *.
  pose proof (inject_Z_nonzero n ltac:(lia)) as Hn'.
  pose proof (inject_Z_nonzero k ltac:(lia)) as Hk'.
  assert (Hcount : ∀ i, i ∈ a → count i a = (n / k)%Z).
  { intros i Hi. specialize (Hfreq i Hi). unfold frequency in Hfreq.
    fold n in Hfreq. apply Z.div_unique_exact; [lia|].
    apply inject_Z_injective. rewrite inject_Z_mult.
    rewrite <- (Qmult_div_r (inject_Z (count i a)) (inject_Z n)) by done.
    rewrite Hfreq. field. done. }
  assert (Hall : Forall (λ x, x = (n / k)%Z) cs).
  { subst cs. rewrite np_unique_counts. apply Forall_fmap, Forall_forall.
    intros i Hi. simpl. apply Hcount. by apply elem_of_np_unique. }
  destruct (total_sumsq_uniform cs (n / k) Hall) as [Ht Hs].
  rewrite Hlen, Htot in Ht. rewrite Hlen in Hs.
  assert (Hc : ¬ (inject_Z (n / k) == 0)%Q) by (apply inject_Z_nonzero; nia).
  set (c := (n / k)%Z) in *. rewrite E, Hs, Ht.
  rewrite !inject_Z_mult. field. split; done.
Qed.

(** A relabelling that is injective on the labels leaves the exact
    value. *)
Lemma gini_exact_relabel (f : Z → Z) (y : list Z) :
  injective_on f y → gini (F:=Q) (f <$> y) == gini (F:=Q) y.
Proof.
  intros Hf. rewrite !gini_unfold. cbn [fsub of_int rational].
  rewrite !np_sum_exact, length_fmap. unfold np_square, np_true_divide.
  rewrite (Qsum_Permutation _ _
    (fmap_Permutation _ _ _ (fmap_Permutation _ _ _ (np_unique_inj f y Hf)))).
  reflexivity.
Qed.

End exact_array.

(** * The properties of [gini] *)

(** C1, as the code has it.  For every non-empty sequence of labels [y]
    whose labels the conversion to an array keeps distinct, [gini(y)] is 1
    minus the sum, over the distinct label values [i]
    appearing in [y], of [p_i] squared, where [p_i = count(i) / len(y)]: in
    exact arithmetic whatever the order of the sum, and in every arithmetic
    (binary64 included) with NumPy's sum taken over the distinct labels in
    ascending order. *)
Theorem gini_is_formula (y : list Z) :
  y ≠ [] → labels_kept y →
  (gini (F:=Q) (np_asanyarray y) == gini_formula y)%Q
  ∧ ∀ (F : Type) (SF : Scalar F), gini (np_asanyarray y) = gini_formula_in F y.
Proof.
  intros _ Hk. split.
  - rewrite gini_asanyarray by done.
    rewrite gini_unfold. cbn [fsub of_int rational]. rewrite np_sum_exact.
    unfold gini_formula, np_square, np_true_divide.
    rewrite <- list_fmap_compose.
    rewrite (Qsum_Permutation _ _
      (fmap_Permutation _ _ _ (np_unique_counts_Permutation y))).
    rewrite <- list_fmap_compose. reflexivity.
  - intros F SF. rewrite gini_asanyarray by done.
    rewrite gini_unfold. unfold gini_formula_in.
    rewrite np_unique_counts, np_unique_values.
    unfold np_square, np_true_divide. by rewrite <- !list_fmap_compose.
Qed.

(** A list that NumPy stores as [float64], with labels that stay apart. *)
Lemma gini_is_formula_witness :
  [2 ^ 63; -1; -1; 5] ≠ [] ∧ labels_kept [2 ^ 63; -1; -1; 5]
  ∧ result_type [2 ^ 63; -1; -1; 5] = float64
  ∧ (gini (F:=Q) (np_asanyarray [2 ^ 63; -1; -1; 5]%Z)
     == gini_formula [2 ^ 63; -1; -1; 5]%Z)%Q
  ∧ gini (F:=f64) (np_asanyarray [2 ^ 63; -1; -1; 5])
    = gini_formula_in f64 [2 ^ 63; -1; -1; 5].
Proof.
  assert (Hne : [2 ^ 63; -1; -1; 5] ≠ @nil Z) by discriminate.
  assert (Hk : labels_kept [2 ^ 63; -1; -1; 5]).
  { intros a b Ha Hb Hab.
    repeat (apply elem_of_cons in Ha as [->|Ha]);
      try (by apply elem_of_nil in Ha);
      repeat (apply elem_of_cons in Hb as [->|Hb]);
      try (by apply elem_of_nil in Hb); try reflexivity;
      vm_compute in Hab; discriminate. }
  split; [exact Hne|]. split; [exact Hk|]. split; [vm_compute; reflexivity|].
  destruct (gini_is_formula [2 ^ 63; -1; -1; 5] Hne Hk) as [HQ HF].
  split; [exact HQ|apply HF].
Defined.

(** C1 fails as stated: NumPy stores the list [[2^63, 2^63+1, -1]] as
    [float64], where [2^63 + 1] becomes [2^63]; [np.unique] finds two
    classes, of counts 1 and 2, and [gini] returns 4/9 (0.4444 in
    binary64) where the formula over the three distinct labels gives
    2/3. *)
Lemma gini_merged_labels_formula :
  [2 ^ 63; 2 ^ 63 + 1; -1] ≠ []
  ∧ result_type [2 ^ 63; 2 ^ 63 + 1; -1] = float64
  ∧ np_asanyarray [2 ^ 63; 2 ^ 63 + 1; -1] = [2 ^ 63; 2 ^ 63; -1]
  ∧ np_unique (np_asanyarray [2 ^ 63; 2 ^ 63 + 1; -1]) = ([-1; 2 ^ 63], [1; 2])
  ∧ (gini (F:=Q) (np_asanyarray [2 ^ 63; 2 ^ 63 + 1; -1]%Z) == 4 # 9)%Q
  ∧ (gini_formula [2 ^ 63; 2 ^ 63 + 1; -1]%Z == 2 # 3)%Q
  ∧ ¬ (gini (F:=Q) (np_asanyarray [2 ^ 63; 2 ^ 63 + 1; -1]%Z)
       == gini_formula [2 ^ 63; 2 ^ 63 + 1; -1]%Z)%Q
  ∧ gini (F:=f64) (np_asanyarray [2 ^ 63; 2 ^ 63 + 1; -1])
    = S754_finite false 8006399337547548 (-54)
  ∧ gini_formula_in f64 [2 ^ 63; 2 ^ 63 + 1; -1]
    = S754_finite false 6004799503160662 (-53)
  ∧ gini (F:=f64) (np_asanyarray [2 ^ 63; 2 ^ 63 + 1; -1])
    ≠ gini_formula_in f64 [2 ^ 63; 2 ^ 63 + 1; -1].
Proof.
  split; [discriminate|].
  do 5 (split; [vm_compute; reflexivity|]).
  split; [vm_compute; discriminate|].
  do 2 (split; [vm_compute; reflexivity|]).
  vm_compute. discriminate.
Qed.

(** C5. For every non-empty [y] and every permutation [y'] of [y],
    [gini y'] equals [gini y], in every arithmetic (bit for bit in
    binary64): [np.unique] sorts its argument, so the result depends on the
    multiset of the labels only.  This holds for arrays, and for lists as
    well: the dtype of the array made of a list does not depend on the
    order of the list. *)
Theorem gini_permutation {F : Type} `{Scalar F} (y y' : list Z) :
  y ≠ [] → y' ≡ₚ y →
  gini y' = gini y ∧ gini (np_asanyarray y') = gini (np_asanyarray y).
Proof.
  intros _ Hp. split.
  - unfold gini, np_unique.
    by rewrite (np_sort_unique _ _ Hp), (Permutation_length Hp).
  - pose proof (np_asanyarray_Permutation _ _ Hp) as Hp'.
    unfold gini, np_unique.
    by rewrite (np_sort_unique _ _ Hp'), (Permutation_length Hp').
Qed.

Lemma gini_permutation_witness :
  [0; 0; 1] ≠ [] ∧ [1; 0; 0] ≡ₚ [0; 0; 1]
  ∧ gini (F:=f64) [1; 0; 0] = gini (F:=f64) [0; 0; 1]
  ∧ gini (F:=f64) (np_asanyarray [1; 0; 0])
    = gini (F:=f64) (np_asanyarray [0; 0; 1]).
Proof.
  assert (Hne : [0; 0; 1] ≠ @nil Z) by discriminate.
  assert (Hp : [1; 0; 0] ≡ₚ [0; 0; 1]).
  { etrans; [apply perm_swap|]. apply perm_skip, perm_swap. }
  split; [exact Hne|]. split; [exact Hp|].
  exact (gini_permutation [0; 0; 1] [1; 0; 0] Hne Hp).
Defined.

(** C7. The concrete scenarios, in binary64: [gini [0,0,0,0]] is [0.0],
    [gini [0,0,1,1]] is [0.5] and [gini [0,0,0,1]] is [0.375]; the same
    values come out in exact arithmetic.  The three lists are stored as
    they are. *)
Theorem gini_scenarios :
  gini (F:=f64) [0; 0; 0; 0] = S754_zero false
  ∧ gini (F:=f64) [0; 0; 1; 1] = fdiv (of_int 1) (of_int 2)
  ∧ denotes (gini (F:=f64) [0; 0; 1; 1]) 0.5
  ∧ gini (F:=f64) [0; 0; 0; 1] = fdiv (of_int 3) (of_int 8)
  ∧ denotes (gini (F:=f64) [0; 0; 0; 1]) 0.375
  ∧ (gini (F:=Q) [0; 0; 0; 0]%Z == 0)%Q
  ∧ (gini (F:=Q) [0; 0; 1; 1]%Z == 0.5)%Q
  ∧ (gini (F:=Q) [0; 0; 0; 1]%Z == 0.375)%Q
  ∧ np_asanyarray [0; 0; 0; 0] = [0; 0; 0; 0]
  ∧ np_asanyarray [0; 0; 1; 1] = [0; 0; 1; 1]
  ∧ np_asanyarray [0; 0; 0; 1] = [0; 0; 0; 1].
Proof.
  do 10 (split; [vm_compute; reflexivity|]). vm_compute; reflexivity.
Qed.

(** C8. [gini] has no side effect: after a call on the array [y], [y] and
    every other array that existed hold what they held before, nothing has
    been printed and no global name has changed. *)
Theorem gini_call_no_side_effect {F : Type} `{Scalar F}
    (w : world) (y : positive) (ys : list Z) :
  heap w !! y = Some ys →
  ∃ v w',
    gini_call y w = (Returned v, w')
    ∧ v = gini ys
    ∧ heap w' !! y = Some ys
    ∧ (∀ l a, heap w !! l = Some a → heap w' !! l = Some a)
    ∧ stdout w' = stdout w
    ∧ globals w' = globals w.
Proof.
  intros Hy. eexists _, _. split; [by apply gini_call_spec|].
  cbn [heap stdout globals].
  assert (Hfresh : ∀ l a, heap w !! l = Some a → fresh (dom (heap w)) ≠ l).
  { intros l a Hl E. apply (is_fresh (dom (heap w))). rewrite E.
    apply elem_of_dom. by eexists. }
  repeat split.
  - rewrite lookup_insert_ne; [done|]. by eapply Hfresh.
  - intros l a Hl. rewrite lookup_insert_ne; [done|]. by eapply Hfresh.
Qed.

Lemma gini_call_no_side_effect_witness :
  heap (sample_world [0; 0; 0; 1]) !! 1%positive = Some [0; 0; 0; 1]
  ∧ ∃ v w',
      gini_call (F:=f64) 1%positive (sample_world [0; 0; 0; 1]) = (Returned v, w')
      ∧ v = gini [0; 0; 0; 1]
      ∧ heap w' !! 1%positive = Some [0; 0; 0; 1]
      ∧ (∀ l a, heap (sample_world [0; 0; 0; 1]) !! l = Some a →
                heap w' !! l = Some a)
      ∧ stdout w' = stdout (sample_world [0; 0; 0; 1])
      ∧ globals w' = globals (sample_world [0; 0; 0; 1]).
Proof.
  assert (Hy : heap (sample_world [0; 0; 0; 1]) !! 1%positive
               = Some [0; 0; 0; 1]) by reflexivity.
  split; [exact Hy|].
  exact (gini_call_no_side_effect (sample_world [0; 0; 0; 1]) 1 [0; 0; 0; 1] Hy).
Defined.

(** C9. On the empty label sequence [gini] raises no error and returns
    exactly [1.0]: [np.unique] yields an empty array of counts, the division
    by [len(y) = 0] of an empty array is the empty array, its sum is [0.0],
    and [1 - 0.0] is [1.0]. *)
Theorem gini_empty_returns_one (w : world) (y : positive) :
  heap w !! y = Some [] →
  (gini_call (F:=f64) y w).1 = Returned (of_int 1)
  ∧ denotes (of_int 1) 1
  ∧ (np_unique []).2 = []
  ∧ np_true_divide (F:=f64) [] 0 = []
  ∧ np_sum (F:=f64) (np_square []) = S754_zero false
  ∧ fsub (of_int 1) (S754_zero false) = (of_int 1 : f64).
Proof.
  intros Hy. rewrite (gini_call_spec w y [] Hy). cbn [fst].
  do 5 (split; [vm_compute; reflexivity|]). vm_compute. reflexivity.
Qed.

Lemma gini_empty_returns_one_witness :
  heap (sample_world []) !! 1%positive = Some []
  ∧ (gini_call (F:=f64) 1%positive (sample_world [])).1 = Returned (of_int 1).
Proof.
  assert (Hy : heap (sample_world []) !! 1%positive = Some []) by reflexivity.
  split; [exact Hy|].
  exact (proj1 (gini_empty_returns_one (sample_world []) 1 Hy)).
Defined.

(** C2, as the code has it: called on an empty label sequence, [gini]
    raises nothing; the call returns a value, 1 minus the empty sum, in
    every arithmetic. *)
Theorem gini_empty_no_error {F : Type} `{Scalar F} (w : world) (y : positive) :
  heap w !! y = Some [] →
  ∃ v : F,
    (gini_call y w).1 = Returned v
    ∧ v = fsub (of_int 1) (fadd (of_int 0) fneg_zero).
Proof.
  intros Hy. eexists. rewrite (gini_call_spec w y [] Hy). by split.
Qed.

Lemma gini_empty_no_error_witness :
  heap (sample_world []) !! 1%positive = Some []
  ∧ ∃ v : f64,
      (gini_call 1%positive (sample_world [])).1 = Returned v
      ∧ v = fsub (of_int 1) (fadd (of_int 0) fneg_zero).
Proof.
  assert (Hy : heap (sample_world []) !! 1%positive = Some []) by reflexivity.
  split; [exact Hy|].
  exact (gini_empty_no_error (sample_world []) 1 Hy).
Defined.

(** C2 fails as stated: the call on the empty array returns [1.0]; it
    does not raise the Empty Input error. *)
Lemma gini_empty_not_raised :
  heap (sample_world []) !! 1%positive = Some []
  ∧ (gini_call (F:=f64) 1%positive (sample_world [])).1 = Returned (of_int 1)
  ∧ (gini_call (F:=f64) 1%positive (sample_world [])).1 ≠ Raised EmptyInput.
Proof.
  split; [reflexivity|].
  assert (E : (gini_call (F:=f64) 1%positive (sample_world [])).1
              = Returned (of_int 1)) by (vm_compute; reflexivity).
  split; [exact E|]. rewrite E. discriminate.
Qed.

(** C3, as the code has it.  For every non-empty [y] with [k] distinct
    labels, the exact value of [gini(y)] lies in the closed interval
    [[0, (k-1)/k]], hence is at most 1, and is at most 1/2 when [k <= 2];
    the binary64 result (for at most 2^44 labels) lies between 0 and 1, is
    at most 1/2 when [k <= 2], and exceeds [(k-1)/k] by at most 2^-45. *)
Theorem gini_range (y : list Z) :
  y ≠ [] →
  ((0 <= gini (F:=Q) (np_asanyarray y))%Q
   ∧ (gini (F:=Q) (np_asanyarray y)
      <= (inject_Z (n_classes y) - 1) / inject_Z (n_classes y))%Q
   ∧ (gini (F:=Q) (np_asanyarray y) <= 1)%Q
   ∧ (n_classes y ≤ 2 → (gini (F:=Q) (np_asanyarray y) <= 1 # 2)%Q))
  ∧ (Z.of_nat (length y) ≤ 2 ^ 44 →
     ∃ q, f64_to_Q (gini (F:=f64) (np_asanyarray y)) = Some q
       ∧ (0 <= q)%Q ∧ (q <= 1)%Q
       ∧ (n_classes y ≤ 2 → (q <= 1 # 2)%Q)
       ∧ (q <= (inject_Z (n_classes y) - 1) / inject_Z (n_classes y)
               + (1 # 2 ^ 45))%Q).
Proof.
  intros Hy. pose proof (np_asanyarray_nonempty y Hy) as Ha.
  set (a := np_asanyarray y) in *.
  pose proof (n_classes_pos a Ha) as Hk1.
  pose proof (n_classes_fmap_le (astype (result_type y)) y) as Hk2.
  fold (np_asanyarray y) in Hk2. fold a in Hk2.
  destruct (gini_exact_range_array a Ha) as [H0 H1].
  destruct (class_bound_mono (n_classes a) (n_classes y) ltac:(lia))
    as (Hm & Hm1 & Hm2).
  split.
  - split; [done|]. split; [lra|]. split; [lra|].
    intros Hk. specialize (Hm2 Hk). lra.
  - intros Hlen.
    destruct (gini_binary64_accuracy a Ha) as (q & Eq & [Hq0 Hq1] & [_ Hhi] & _ & _ & H2).
    { subst a. by rewrite length_np_asanyarray. }
    exists q. split; [done|]. split; [done|]. split; [done|]. split.
    + intros Hk. apply H2. lia.
    + lra.
Qed.

Lemma gini_range_witness :
  [0; 1; 1; 0; 1] ≠ []
  ∧ (0 <= gini (F:=Q) (np_asanyarray [0; 1; 1; 0; 1]%Z))%Q
  ∧ ∃ q, f64_to_Q (gini (F:=f64) (np_asanyarray [0; 1; 1; 0; 1])) = Some q
      ∧ (0 <= q)%Q ∧ (q <= 1)%Q ∧ (q <= 1 # 2)%Q.
Proof.
  assert (Hne : [0; 1; 1; 0; 1] ≠ @nil Z) by discriminate.
  split; [exact Hne|].
  destruct (gini_range [0; 1; 1; 0; 1] Hne) as [(H0 & _) HF].
  split; [exact H0|].
  destruct HF as (q & Eq & Hq0 & Hq1 & Hq2 & _); [vm_compute; discriminate|].
  exists q. split; [exact Eq|]. split; [exact Hq0|]. split; [exact Hq1|].
  apply Hq2. vm_compute. discriminate.
Defined.

(** C3 fails as stated in binary64: for [y = [0,1,2]] (k = 3, stored as
    [int64]) the result, 0.6666666666666667, is above (3-1)/3, both as the
    binary64 quotient 0.6666666666666666 and as the rational 2/3. *)
Lemma gini_binary64_above_range :
  [0; 1; 2] ≠ []
  ∧ np_asanyarray [0; 1; 2] = [0; 1; 2]
  ∧ n_classes [0; 1; 2] = 3
  ∧ gini (F:=f64) (np_asanyarray [0; 1; 2])
    = S754_finite false 6004799503160662 (-53)
  ∧ SFltb (fdiv (of_int (3 - 1)) (of_int 3))
          (gini (F:=f64) (np_asanyarray [0; 1; 2])) = true
  ∧ ∃ q, f64_to_Q (gini (F:=f64) (np_asanyarray [0; 1; 2])) = Some q
      ∧ ((3 - 1) / 3 < q)%Q.
Proof.
  split; [discriminate|].
  do 4 (split; [vm_compute; reflexivity|]).
  eexists. split; [vm_compute; reflexivity|]. vm_compute. reflexivity.
Qed.

(** C4, as the code has it.  For every non-empty [y], the exact value of
    [gini(y)] is 0 if and only if the array NumPy makes of [y] holds
    exactly one distinct value, and so is the binary64 result (for at most
    2^44 labels): it is [0.0] in that case and compares different from 0
    otherwise.  When the conversion keeps the labels of [y], the array has
    as many distinct values as [y]: then [gini(y)] is 0 if and only if [y]
    contains exactly one distinct label value, that is, if and only if
    all the elements of [y] are identical. *)
Theorem gini_zero_iff_one_class (y : list Z) :
  y ≠ [] →
  ((gini (F:=Q) (np_asanyarray y) == 0)%Q ↔ n_classes (np_asanyarray y) = 1)
  ∧ (Z.of_nat (length y) ≤ 2 ^ 44 →
     (gini (F:=f64) (np_asanyarray y) = S754_zero false
      ↔ n_classes (np_asanyarray y) = 1)
     ∧ (SFeqb (gini (F:=f64) (np_asanyarray y)) (of_int 0) = true
        ↔ n_classes (np_asanyarray y) = 1))
  ∧ (labels_kept y → n_classes (np_asanyarray y) = n_classes y)
  ∧ (n_classes y = 1 → n_classes (np_asanyarray y) = 1)
  ∧ (n_classes y = 1 ↔ ∃ v, ∀ x, x ∈ y → x = v).
Proof.
  intros Hy. pose proof (np_asanyarray_nonempty y Hy) as Ha.
  split; [by apply gini_exact_zero_array|]. split; [|split; [|split]].
  - intros Hlen.
    destruct (gini_binary64_accuracy (np_asanyarray y) Ha)
      as (q & Eq & _ & _ & Hz & Hq & _).
    { by rewrite length_np_asanyarray. }
    split; [done|]. rewrite <- Hz. split.
    + intros E. destruct (gini (F:=f64) (np_asanyarray y)) as [[]| | |[] m e];
        try done; cbn in E; try done.
      * exfalso. injection Eq as <-.
        assert (n_classes (np_asanyarray y) = 1) as Hk by (by apply Hq).
        apply Hz in Hk. done.
    + intros ->. reflexivity.
  - apply n_classes_asanyarray.
  - intros Hk. pose proof (n_classes_pos _ Ha).
    pose proof (n_classes_fmap_le (astype (result_type y)) y) as Hle.
    fold (np_asanyarray y) in Hle. lia.
  - rewrite n_classes_one. split.
    + intros (v & _ & Hv). by exists v.
    + intros (v & Hv). by exists v.
Qed.

Lemma gini_zero_iff_one_class_witness :
  [5; 5; 5] ≠ []
  ∧ ((gini (F:=Q) (np_asanyarray [5; 5; 5]%Z) == 0)%Q
     ↔ n_classes (np_asanyarray [5; 5; 5]) = 1)
  ∧ (gini (F:=f64) (np_asanyarray [5; 5; 5]) = S754_zero false
     ↔ n_classes (np_asanyarray [5; 5; 5]) = 1)
  ∧ n_classes (np_asanyarray [5; 5; 5]) = n_classes [5; 5; 5].
Proof.
  assert (Hne : [5; 5; 5] ≠ @nil Z) by discriminate.
  split; [exact Hne|].
  destruct (gini_zero_iff_one_class [5; 5; 5] Hne) as (HQ & HF & Hk & _).
  split; [exact HQ|]. split.
  - apply HF. vm_compute. discriminate.
  - apply Hk. apply labels_kept_int64. repeat constructor; lia.
Defined.

(** C4 fails as stated: the list [[2^63 - 1, 2^63]] has two distinct
    labels; NumPy stores it as [float64], where both become [2^63], and
    [gini] returns 0 (exactly [0.0] in binary64). *)
Lemma gini_zero_two_labels :
  [2 ^ 63 - 1; 2 ^ 63] ≠ []
  ∧ n_classes [2 ^ 63 - 1; 2 ^ 63] = 2
  ∧ result_type [2 ^ 63 - 1; 2 ^ 63] = float64
  ∧ np_asanyarray [2 ^ 63 - 1; 2 ^ 63] = [2 ^ 63; 2 ^ 63]
  ∧ np_unique (np_asanyarray [2 ^ 63 - 1; 2 ^ 63]) = ([2 ^ 63], [2])
  ∧ gini (F:=f64) (np_asanyarray [2 ^ 63 - 1; 2 ^ 63]) = S754_zero false
  ∧ (gini (F:=Q) (np_asanyarray [2 ^ 63 - 1; 2 ^ 63]%Z) == 0)%Q
  ∧ ¬ (gini (F:=f64) (np_asanyarray [2 ^ 63 - 1; 2 ^ 63]) = S754_zero false
       ↔ n_classes [2 ^ 63 - 1; 2 ^ 63] = 1).
Proof.
  split; [discriminate|].
  do 6 (split; [vm_compute; reflexivity|]).
  intros [H _]. specialize (H ltac:(vm_compute; reflexivity)).
  vm_compute in H. discriminate.
Qed.

(** C6, as the code has it.  For every non-empty [y] with [k] distinct
    labels, each of frequency exactly [1/k], whose labels the conversion to
    an array keeps distinct, [gini(y)] is [(k-1)/k]: exactly so for the
    exact value, and within floating-point tolerance for the binary64
    result (for at most 2^44 labels), which is within 2^-45 of the rational
    [(k-1)/k], hence within 1e-9 of it and of the binary64 quotient
    [(k-1)/k]. *)
Theorem gini_uniform (y : list Z) :
  y ≠ [] → labels_kept y →
  (∀ i, i ∈ y → (frequency i y == 1 / inject_Z (n_classes y))%Q) →
  (gini (F:=Q) (np_asanyarray y)
   == (inject_Z (n_classes y) - 1) / inject_Z (n_classes y))%Q
  ∧ (Z.of_nat (length y) ≤ 2 ^ 44 →
     ∃ q r, f64_to_Q (gini (F:=f64) (np_asanyarray y)) = Some q
       ∧ f64_to_Q (fdiv (F:=f64) (of_int (n_classes y - 1))
                                 (of_int (n_classes y))) = Some r
       ∧ (Qabs (q - (inject_Z (n_classes y) - 1) / inject_Z (n_classes y))
          <= 1 # 2 ^ 45)%Q
       ∧ (Qabs (q - (inject_Z (n_classes y) - 1) / inject_Z (n_classes y))
          <= 1 # 1000000000)%Q
       ∧ (Qabs (q - r) <= 1 # 1000000000)%Q).
Proof.
  intros Hy Hk Hfreq.
  pose proof (gini_exact_uniform_array y Hy Hfreq) as E.
  rewrite <- (gini_asanyarray (F:=Q) y Hk) in E.
  split; [exact E|]. intros Hlen.
  destruct (gini_binary64_accuracy (np_asanyarray y))
    as (q & Eq & _ & [Hlo Hhi] & _).
  { by apply np_asanyarray_nonempty. }
  { by rewrite length_np_asanyarray. }
  pose proof (n_classes_pos y Hy) as Hk1.
  pose proof (n_classes_le_length y) as Hk2.
  destruct (class_bound_binary64 (n_classes y) ltac:(lia)) as (r & Er & Hr1 & Hr2).
  exists q, r. split; [exact Eq|]. split; [exact Er|].
  rewrite E in Hlo, Hhi.
  change (1 # 2 ^ 45) with (1 # 35184372088832) in *.
  change (1 # 2 ^ 53) with (1 # 9007199254740992) in *.
  split; [|split]; apply Qabs_Qle_condition; split; lra.
Qed.

Lemma gini_uniform_witness :
  [0; 1; 2] ≠ [] ∧ labels_kept [0; 1; 2]
  ∧ (gini (F:=Q) (np_asanyarray [0; 1; 2]%Z)
     == (inject_Z (n_classes [0; 1; 2]%Z) - 1) / inject_Z (n_classes [0; 1; 2]%Z))%Q
  ∧ ∃ q r, f64_to_Q (gini (F:=f64) (np_asanyarray [0; 1; 2])) = Some q
      ∧ f64_to_Q (fdiv (F:=f64) (of_int (n_classes [0; 1; 2] - 1))
                                (of_int (n_classes [0; 1; 2]))) = Some r
      ∧ (Qabs (q - (inject_Z (n_classes [0; 1; 2]%Z) - 1)
                   / inject_Z (n_classes [0; 1; 2]%Z))
         <= 1 # 1000000000)%Q
      ∧ (Qabs (q - r) <= 1 # 1000000000)%Q.
Proof.
  assert (Hne : [0; 1; 2] ≠ @nil Z) by discriminate.
  assert (Hk : labels_kept [0; 1; 2]).
  { apply labels_kept_int64. repeat constructor; lia. }
  assert (Hf : ∀ i, i ∈ [0; 1; 2] →
    (frequency i [0; 1; 2]%Z == 1 / inject_Z (n_classes [0; 1; 2]%Z))%Q).
  { intros i Hi.
    repeat (apply elem_of_cons in Hi as [->|Hi]; [vm_compute; reflexivity|]).
    by apply elem_of_nil in Hi. }
  split; [exact Hne|]. split; [exact Hk|].
  destruct (gini_uniform [0; 1; 2] Hne Hk Hf) as [HQ HF].
  split; [exact HQ|].
  destruct HF as (q & r & Eq & Er & _ & Hq & Hqr); [vm_compute; discriminate|].
  exists q, r. split; [exact Eq|]. split; [exact Er|]. split; [exact Hq|exact Hqr].
Defined.

(** C6 fails as stated: in the list [[2^63, 2^63+1, -1]] every label has
    frequency exactly 1/3, but NumPy stores the list as [float64], where
    two of the labels become one, and [gini] returns 4/9 (0.4444 in
    binary64), far from (3-1)/3, whatever the tolerance below 0.2. *)
Lemma gini_merged_labels_uniform :
  [2 ^ 63; 2 ^ 63 + 1; -1] ≠ []
  ∧ n_classes [2 ^ 63; 2 ^ 63 + 1; -1] = 3
  ∧ (frequency (2 ^ 63) [2 ^ 63; 2 ^ 63 + 1; -1]%Z == 1 / 3)%Q
  ∧ (frequency (2 ^ 63 + 1) [2 ^ 63; 2 ^ 63 + 1; -1]%Z == 1 / 3)%Q
  ∧ (frequency (-1) [2 ^ 63; 2 ^ 63 + 1; -1]%Z == 1 / 3)%Q
  ∧ np_asanyarray [2 ^ 63; 2 ^ 63 + 1; -1] = [2 ^ 63; 2 ^ 63; -1]
  ∧ (gini (F:=Q) (np_asanyarray [2 ^ 63; 2 ^ 63 + 1; -1]%Z) == 4 # 9)%Q
  ∧ ∃ q, f64_to_Q (gini (F:=f64) (np_asanyarray [2 ^ 63; 2 ^ 63 + 1; -1])) = Some q
      ∧ (q < 45 # 100)%Q
      ∧ (1 # 5 < Qabs (q - (3 - 1) / 3))%Q.
Proof.
  split; [discriminate|].
  do 6 (split; [vm_compute; reflexivity|]).
  eexists. split; [vm_compute; reflexivity|].
  split; vm_compute; reflexivity.
Qed.

(** C10, as the code has it.  For every non-empty [y] and every
    relabelling [f] that is injective (on the labels of [y] at least),
    when the conversion to an array keeps the labels of [y] and of
    [map f y], the exact value of [gini] is the same on [map f y] and on
    [y]; when [f] moreover preserves the order of the labels of [y], the
    result is the same in every arithmetic, bit for bit in binary64; and
    in any case the two binary64 results (for at most 2^44 labels) differ
    by at most 2^-44. *)
Theorem gini_relabel (f : Z → Z) (y : list Z) :
  y ≠ [] → injective_on f y → labels_kept y → labels_kept (f <$> y) →
  (gini (F:=Q) (np_asanyarray (f <$> y)) == gini (F:=Q) (np_asanyarray y))%Q
  ∧ (increasing_on f y →
     ∀ (F : Type) (SF : Scalar F),
       gini (np_asanyarray (f <$> y)) = gini (np_asanyarray y))
  ∧ (Z.of_nat (length y) ≤ 2 ^ 44 →
     ∃ q q', f64_to_Q (gini (F:=f64) (np_asanyarray y)) = Some q
       ∧ f64_to_Q (gini (F:=f64) (np_asanyarray (f <$> y))) = Some q'
       ∧ (Qabs (q' - q) <= 1 # 2 ^ 44)%Q).
Proof.
  intros Hy Hf Hk Hk'.
  assert (EQ : (gini (F:=Q) (np_asanyarray (f <$> y))
                == gini (F:=Q) (np_asanyarray y))%Q).
  { rewrite !gini_asanyarray by done. by apply gini_exact_relabel. }
  split; [exact EQ|]. split.
  - intros Hinc F SF. rewrite !gini_asanyarray by done.
    by rewrite !gini_unfold, np_unique_increasing, length_fmap.
  - intros Hlen.
    destruct (gini_binary64_accuracy (np_asanyarray y))
      as (q & Eq & _ & [Hlo Hhi] & _).
    { by apply np_asanyarray_nonempty. }
    { by rewrite length_np_asanyarray. }
    destruct (gini_binary64_accuracy (np_asanyarray (f <$> y)))
      as (q' & Eq' & _ & [Hlo' Hhi'] & _).
    { apply np_asanyarray_nonempty. by destruct y. }
    { by rewrite length_np_asanyarray, length_fmap. }
    exists q, q'. split; [exact Eq|]. split; [exact Eq'|].
    rewrite EQ in Hlo', Hhi'.
    change (1 # 2 ^ 45) with (1 # 35184372088832) in *.
    change (1 # 2 ^ 44) with (1 # 17592186044416).
    apply Qabs_Qle_condition. split; lra.
Qed.

(** The relabelling 10, 20, 30 -> 0, 1, 2 by [x / 10 - 1] preserves the
    order of the labels of [y], although it is neither increasing nor
    injective on all the integers. *)
Lemma gini_relabel_witness :
  [10; 20; 30; 30; 30] ≠ []
  ∧ injective_on (λ x, x / 10 - 1) [10; 20; 30; 30; 30]
  ∧ increasing_on (λ x, x / 10 - 1) [10; 20; 30; 30; 30]
  ∧ (λ x, x / 10 - 1) <$> [10; 20; 30; 30; 30] = [0; 1; 2; 2; 2]
  ∧ (gini (F:=Q) (np_asanyarray ((λ x, x / 10 - 1)%Z <$> [10; 20; 30; 30; 30]%Z))
     == gini (F:=Q) (np_asanyarray [10; 20; 30; 30; 30]%Z))%Q
  ∧ gini (F:=f64) (np_asanyarray ((λ x, x / 10 - 1) <$> [10; 20; 30; 30; 30]))
    = gini (F:=f64) (np_asanyarray [10; 20; 30; 30; 30]).
Proof.
  assert (Hne : [10; 20; 30; 30; 30] ≠ @nil Z) by discriminate.
  assert (Hinc : increasing_on (λ x, x / 10 - 1) [10; 20; 30; 30; 30]).
  { intros a b Ha Hb Hab.
    repeat (apply elem_of_cons in Ha as [->|Ha]);
      try (by apply elem_of_nil in Ha);
      repeat (apply elem_of_cons in Hb as [->|Hb]);
      try (by apply elem_of_nil in Hb); try lia; vm_compute; reflexivity. }
  assert (Hinj : injective_on (λ x, x / 10 - 1) [10; 20; 30; 30; 30])
    by (by apply increasing_on_injective_on).
  assert (Hk : labels_kept [10; 20; 30; 30; 30]).
  { apply labels_kept_int64. repeat constructor; lia. }
  assert (Hk' : labels_kept ((λ x, x / 10 - 1) <$> [10; 20; 30; 30; 30])).
  { apply labels_kept_int64. repeat constructor; vm_compute; done. }
  split; [exact Hne|]. split; [exact Hinj|]. split; [exact Hinc|].
  split; [reflexivity|].
  destruct (gini_relabel (λ x, x / 10 - 1) [10; 20; 30; 30; 30] Hne Hinj Hk Hk')
    as (HQ & HF & _).
  split; [exact HQ|exact (HF Hinc f64 binary64)].
Defined.

(** C10 fails as stated, in two ways.  In binary64: negation is
    injective, and [gini [0,1,2,2,2]] is 0.56 while [gini [0,-1,-2,-2,-2]]
    is 0.5599999999999999, because [np.unique] lists the counts in the
    order of the labels and the sum of the squares is rounded in that
    order.  In exact arithmetic too: the injective relabelling that adds
    [2^63] to the labels from 0 on sends [[0, 1, -1]] to
    [[2^63, 2^63+1, -1]], which NumPy stores as [float64] with two labels
    become one: the value goes from 2/3 to 4/9. *)
Lemma gini_relabel_differs :
  ([0; 1; 2; 2; 2] ≠ []
   ∧ Inj (=) (=) Z.opp
   ∧ np_unique (np_asanyarray [0; 1; 2; 2; 2]) = ([0; 1; 2], [1; 1; 3])
   ∧ np_unique (np_asanyarray (Z.opp <$> [0; 1; 2; 2; 2]))
     = ([-2; -1; 0], [3; 1; 1])
   ∧ gini (F:=f64) (np_asanyarray [0; 1; 2; 2; 2])
     = S754_finite false 5044031582654956 (-53)
   ∧ gini (F:=f64) (np_asanyarray (Z.opp <$> [0; 1; 2; 2; 2]))
     = S754_finite false 5044031582654955 (-53)
   ∧ SFeqb (gini (F:=f64) (np_asanyarray (Z.opp <$> [0; 1; 2; 2; 2])))
           (gini (F:=f64) (np_asanyarray [0; 1; 2; 2; 2])) = false)
  ∧ ([0; 1; -1] ≠ []
     ∧ Inj (=) (=) (λ x, if 0 <=? x then x + 2 ^ 63 else x)
     ∧ (λ x, if 0 <=? x then x + 2 ^ 63 else x) <$> [0; 1; -1]
       = [2 ^ 63; 2 ^ 63 + 1; -1]
     ∧ (gini (F:=Q) (np_asanyarray [0; 1; -1]%Z) == 2 # 3)%Q
     ∧ (gini (F:=Q) (np_asanyarray
          ((λ x, if 0 <=? x then x + 2 ^ 63 else x)%Z <$> [0; 1; -1]%Z))
        == 4 # 9)%Q
     ∧ ¬ (gini (F:=Q) (np_asanyarray
            ((λ x, if 0 <=? x then x + 2 ^ 63 else x)%Z <$> [0; 1; -1]%Z))
          == gini (F:=Q) (np_asanyarray [0; 1; -1]%Z))%Q).
Proof.
  split.
  - split; [discriminate|]. split; [intros a b; lia|].
    do 4 (split; [vm_compute; reflexivity|]). vm_compute. reflexivity.
  - split; [discriminate|]. split.
    { intros a b. destruct (Z.leb_spec 0 a), (Z.leb_spec 0 b); lia. }
    do 3 (split; [vm_compute; reflexivity|]).
    vm_compute. discriminate.
Qed.

(** * Further properties *)

Section frequencies_facts.
Local Open Scope Q_scope.

Lemma Qsum_fmap_ext {A} (f g : A → Q) l :
  (∀ x, x ∈ l → f x == g x) → Qsum (f <$> l) == Qsum (g <$> l).
Proof.
  induction l as [|x l IH]; intros Hfg; [reflexivity|].
  rewrite !fmap_cons, !Qsum_cons, IH.
  - rewrite (Hfg x) by left. reflexivity.
  - intros z Hz. apply Hfg. by right.
Qed.

Lemma Qsum_true_divide cs n :
  Qsum (np_true_divide cs n) == inject_Z (total cs) / inject_Z n.
Proof.
  unfold np_true_divide. induction cs as [|c cs IH].
  - rewrite fmap_nil, Qsum_nil. change (inject_Z (total [])) with 0.
    unfold Qdiv. ring.
  - rewrite fmap_cons, Qsum_cons, IH, total_cons, inject_Z_plus.
    cbn [fdiv of_int rational]. unfold Qdiv. ring.
Qed.

Lemma gini_frequencies {F} `{Scalar F} (y : list Z) :
  gini y = fsub (of_int 1) (np_sum (np_square (frequencies y))).
Proof. apply gini_unfold. Qed.

Lemma frequencies_sum y : y ≠ [] → Qsum (frequencies y) == 1.
Proof.
  intros Hy. unfold frequencies.
  rewrite Qsum_true_divide, total_np_unique.
  field. apply inject_Z_nonzero. destruct y; [done|simpl length; lia].
Qed.

Lemma Qsum_complement p :
  Qsum ((λ x, x * (1 - x)) <$> p) == Qsum p - Qsum ((λ x, x ^ 2) <$> p).
Proof.
  induction p as [|x p IH]; [rewrite !fmap_nil, Qsum_nil; ring|].
  rewrite !fmap_cons, !Qsum_cons, IH. simpl. ring.
Qed.

Lemma Qsum_delete l : ∀ i x, l !! i = Some x → Qsum (delete i l) == Qsum l - x.
Proof.
  induction l as [|y l IH]; intros [|i] x Hx; try done.
  - injection Hx as ->. change (delete 0%nat (x :: l)) with l.
    rewrite Qsum_cons. ring.
  - change (delete (S i) (y :: l)) with (y :: delete i l).
    rewrite !Qsum_cons, (IH i x Hx). ring.
Qed.

Lemma Qsum_imap_ext {A} (f g : nat → A → Q) l :
  (∀ i x, l !! i = Some x → f i x == g i x) →
  Qsum (imap f l) == Qsum (imap g l).
Proof.
  revert f g. induction l as [|y l IH]; intros f g Hfg; [reflexivity|].
  rewrite !imap_cons, !Qsum_cons, (Hfg 0%nat y) by done.
  rewrite (IH (f ∘ S) (g ∘ S)); [reflexivity|].
  intros i x Hx. by apply Hfg.
Qed.

Lemma gini_pairwise_complement p :
  Qsum p == 1 → gini_pairwise p == gini_complement p.
Proof.
  intros Hp. unfold gini_pairwise, gini_complement.
  rewrite <- (imap_const (λ x, x * (1 - x)) p).
  apply Qsum_imap_ext. intros i x Hx. unfold const.
  rewrite (Qsum_delete p i x Hx), Hp. reflexivity.
Qed.

End frequencies_facts.



(** X2. For a non-empty list [y], the vector [p = counts / len(y)] of
    [gini] is, in exact arithmetic, a probability distribution: its
    entries lie in (0, 1] and add up to 1; it has one entry for each
    distinct value of the array NumPy makes of [y], at most [k] of them,
    and exactly the [k] distinct labels of [y] when the conversion keeps
    the labels. *)
Theorem frequencies_distribution (y : list Z) :
  y ≠ [] →
  Z.of_nat (length (frequencies (F:=Q) (np_asanyarray y)))
  = n_classes (np_asanyarray y)
  ∧ n_classes (np_asanyarray y) ≤ n_classes y
  ∧ (labels_kept y →
     Z.of_nat (length (frequencies (F:=Q) (np_asanyarray y))) = n_classes y)
  ∧ Forall (λ q, 0 < q ∧ q <= 1)%Q (frequencies (F:=Q) (np_asanyarray y))
  ∧ (Qsum (frequencies (np_asanyarray y)) == 1)%Q.
Proof.
  intros Hy. pose proof (np_asanyarray_nonempty y Hy) as Ha.
  assert (El : Z.of_nat (length (frequencies (F:=Q) (np_asanyarray y)))
               = n_classes (np_asanyarray y)).
  { unfold frequencies, np_true_divide. rewrite length_fmap.
    apply length_np_unique. }
  split; [exact El|]. split; [apply n_classes_fmap_le|].
  split; [intros Hk; by rewrite El, n_classes_asanyarray|].
  split; [|by apply frequencies_sum].
  set (a := np_asanyarray y) in *.
  assert (Hn : 0 < Z.of_nat (length a)) by (destruct a; [done|simpl length; lia]).
  pose proof (inject_Z_pos _ Hn) as Hn'.
  unfold frequencies, np_true_divide. apply Forall_fmap, Forall_forall.
  intros c Hc. cbn [fdiv of_int rational].
  assert (Hc0 : 0 < c).
  { pose proof (np_unique_positive a) as Hp.
    rewrite Forall_forall in Hp. by apply Hp. }
  assert (Hcn : c ≤ Z.of_nat (length a)).
  { rewrite np_unique_counts in Hc. apply list_elem_of_fmap in Hc as (v & -> & Hv).
    clear. induction a as [|x a IH]; simpl; [lia|].
    destruct (x =? v); lia. }
  split.
  - apply Qlt_shift_div_l; [done|]. rewrite Qmult_0_l. by apply inject_Z_pos.
  - apply Qle_shift_div_r; [done|]. rewrite Qmult_1_l. by rewrite <- Zle_Qle.
Qed.

Lemma frequencies_distribution_witness :
  [0; 0; 0; 1] ≠ []
  ∧ Z.of_nat (length (frequencies (F:=Q) (np_asanyarray [0; 0; 0; 1])))
    = n_classes [0; 0; 0; 1]
  ∧ (Qsum (frequencies (np_asanyarray [0; 0; 0; 1]%Z)) == 1)%Q.
Proof.
  assert (Hne : [0; 0; 0; 1] ≠ @nil Z) by discriminate.
  split; [exact Hne|].
  destruct (frequencies_distribution [0; 0; 0; 1] Hne) as (_ & _ & Hk & _ & Hs).
  split; [|exact Hs].
  apply Hk. apply labels_kept_int64. repeat constructor; lia.
Defined.

(** X3. The four forms of the impurity given in the first cell agree, in
    exact arithmetic, on the vector [p] that [gini] computes, and their
    common value is [gini y]: the pairwise-product sum, the sum of
    [p_i (1 - p_i)], [sum p_i - sum p_i^2] and [1 - sum p_i^2]. *)
Theorem gini_equivalent_forms (y : list Z) :
  y ≠ [] →
  (gini (F:=Q) y == gini_squares (frequencies y))%Q
  ∧ (gini_squares (frequencies y) == gini_difference (frequencies y))%Q
  ∧ (gini_difference (frequencies y) == gini_complement (frequencies y))%Q
  ∧ (gini_complement (frequencies y) == gini_pairwise (frequencies y))%Q.
Proof.
  intros Hy. pose proof (frequencies_sum y Hy) as Hp.
  split; [|split; [|split]].
  - rewrite gini_frequencies. cbn [fsub of_int rational].
    rewrite np_sum_exact. reflexivity.
  - unfold gini_squares, gini_difference. rewrite Hp. reflexivity.
  - unfold gini_difference, gini_complement. by rewrite Qsum_complement.
  - by rewrite gini_pairwise_complement.
Qed.

Lemma gini_equivalent_forms_witness :
  [0; 0; 0; 1] ≠ []
  ∧ (gini (F:=Q) [0; 0; 0; 1]%Z == gini_squares (frequencies [0; 0; 0; 1]%Z))%Q
  ∧ (gini_complement (frequencies [0; 0; 0; 1]%Z)
     == gini_pairwise (frequencies [0; 0; 0; 1]%Z))%Q.
Proof.
  assert (Hne : [0; 0; 0; 1] ≠ @nil Z) by discriminate.
  split; [exact Hne|].
  destruct (gini_equivalent_forms [0; 0; 0; 1] Hne) as (H1 & _ & _ & H4).
  split; [exact H1|exact H4].
Defined.


(** * The value depends on the frequencies only *)

Section frequency_determined.

Lemma count_elem_of i y : i ∈ y → 0 < count i y.
Proof.
  induction y as [|x y IH]; [by intros ?%elem_of_nil|].
  rewrite elem_of_cons. simpl. pose proof (count_nonneg i y).
  destruct (Z.eqb_spec x i); [lia|].
  intros [->|Hin]; [congruence|]. specialize (IH Hin). lia.
Qed.

Lemma count_pos_iff i y : 0 < count i y ↔ i ∈ y.
Proof.
  split; [|apply count_elem_of].
  intros Hc. destruct (decide (i ∈ y)) as [|Hni]; [done|].
  rewrite (count_not_elem_of i y Hni) in Hc. lia.
Qed.

Lemma gini_exact_sum (y : list Z) : (gini (F:=Q) y == gini_formula y)%Q.
Proof.
  rewrite gini_unfold. cbn [fsub of_int rational]. rewrite np_sum_exact.
  unfold gini_formula, np_square, np_true_divide.
  rewrite <- list_fmap_compose.
  rewrite (Qsum_Permutation _ _
    (fmap_Permutation _ _ _ (np_unique_counts_Permutation y))).
  rewrite <- list_fmap_compose. reflexivity.
Qed.

Lemma frequency_pos_iff i y : y ≠ [] → (0 < frequency i y)%Q ↔ i ∈ y.
Proof.
  intros Hy. rewrite <- count_pos_iff. unfold frequency.
  assert (Hn : 0 < Z.of_nat (length y)) by (destruct y; [done|simpl length; lia]).
  pose proof (inject_Z_pos _ Hn) as Hn'. split.
  - intros Hf. rewrite Zlt_Qlt. change (inject_Z 0) with 0%Q.
    rewrite <- (Qmult_div_r (inject_Z (count i y)) (inject_Z (Z.of_nat (length y))))
      by (apply inject_Z_nonzero; lia).
    by apply Qmult_lt_0_compat.
  - intros Hc. apply Qlt_shift_div_l; [done|]. rewrite Qmult_0_l.
    by apply inject_Z_pos.
Qed.

End frequency_determined.

Lemma gini_formula_same_frequencies (y y' : list Z) :
  y ≠ [] → y' ≠ [] →
  (∀ i, (frequency i y' == frequency i y)%Q) →
  (gini_formula y' == gini_formula y)%Q.
Proof.
  intros Hy Hy' Hf. unfold gini_formula.
  assert (Hd : distinct y' ≡ₚ distinct y).
  { unfold distinct. apply NoDup_Permutation; try apply NoDup_remove_dups.
    intros i. rewrite !elem_of_remove_dups.
    rewrite <- !frequency_pos_iff by done. by rewrite Hf. }
  rewrite (Qsum_Permutation _ _ (fmap_Permutation _ _ _ Hd)).
  rewrite (Qsum_fmap_ext (λ i, frequency i y' ^ 2)%Q (λ i, frequency i y ^ 2)%Q);
    [reflexivity|].
  intros i _. simpl. by rewrite Hf.
Qed.

(** X4. In exact arithmetic [gini] depends on the label frequencies
    only: two non-empty samples in which every label has the same
    frequency have the same impurity, whatever their lengths. *)
Theorem gini_frequency_determined (y y' : list Z) :
  y ≠ [] → y' ≠ [] →
  (∀ i, (frequency i y' == frequency i y)%Q) →
  (gini (F:=Q) y' == gini (F:=Q) y)%Q.
Proof.
  intros Hy Hy' Hf. rewrite !gini_exact_sum.
  by apply gini_formula_same_frequencies.
Qed.

Lemma gini_frequency_determined_witness :
  [0; 1; 1] ≠ [] ∧ [1; 0; 1; 1; 0; 1] ≠ []
  ∧ (gini (F:=Q) [1; 0; 1; 1; 0; 1]%Z == gini (F:=Q) [0; 1; 1]%Z)%Q.
Proof.
  assert (Hy : [0; 1; 1] ≠ @nil Z) by discriminate.
  assert (Hy' : [1; 0; 1; 1; 0; 1] ≠ @nil Z) by discriminate.
  split; [exact Hy|]. split; [exact Hy'|].
  apply (gini_frequency_determined [0; 1; 1] [1; 0; 1; 1; 0; 1] Hy Hy').
  intros i. destruct i as [|[p|p|]|p]; vm_compute; reflexivity.
Defined.

(** * Repeating the sample *)

Section repetition.

Lemma count_app i a b : count i (a ++ b) = count i a + count i b.
Proof. induction a as [|x a IH]; simpl; [done|]. rewrite IH. lia. Qed.

Lemma count_repeat_sample i m y :
  count i (repeat_sample m y) = Z.of_nat m * count i y.
Proof.
  unfold repeat_sample. induction m as [|m IH]; [simpl; lia|].
  rewrite replicate_S.
  change (mjoin (y :: replicate m y)) with (y ++ mjoin (replicate m y)).
  rewrite count_app, IH. lia.
Qed.

Lemma length_repeat_sample m y :
  length (repeat_sample m y) = (m * length y)%nat.
Proof.
  unfold repeat_sample. induction m as [|m IH]; [done|].
  rewrite replicate_S.
  change (mjoin (y :: replicate m y)) with (y ++ mjoin (replicate m y)).
  rewrite length_app, IH. lia.
Qed.

Lemma frequency_repeat_sample i m y :
  (0 < m)%nat → (frequency i (repeat_sample m y) == frequency i y)%Q.
Proof.
  intros Hm. unfold frequency.
  rewrite count_repeat_sample, length_repeat_sample, Nat2Z.inj_mul.
  rewrite !inject_Z_mult.
  destruct y as [|x y].
  - simpl. unfold Qdiv. simpl. ring.
  - field. split; apply inject_Z_nonzero; simpl length; lia.
Qed.

(** Division in binary64 depends on the difference of the exponents only. *)
Lemma SFdiv_double s1 m1 e1 s2 m2 e2 :
  SFdiv 53 1024 (S754_finite s1 m1 (e1 + 1)) (S754_finite s2 m2 (e2 + 1))
  = SFdiv 53 1024 (S754_finite s1 m1 e1) (S754_finite s2 m2 e2).
Proof.
  unfold SFdiv, SFdiv_core_binary.
  replace (Zdigits2 (Z.pos m1) + (e1 + 1) - (Zdigits2 (Z.pos m2) + (e2 + 1)))
    with (Zdigits2 (Z.pos m1) + e1 - (Zdigits2 (Z.pos m2) + e2)) by lia.
  replace (e1 + 1 - (e2 + 1)) with (e1 - e2) by lia.
  reflexivity.
Qed.

Lemma iter_xO_double p k :
  (Pos.iter xO (p~0) k = (Pos.iter xO p k)~0)%positive.
Proof.
  induction k as [|k IH] using Pos.peano_ind; [done|].
  by rewrite !Pos.iter_succ, IH.
Qed.

(** Doubling an integer below [2^52] adds one to the exponent of its
    binary64 image. *)
Lemma of_int_double n :
  0 < n → 2 * n < 2 ^ 53 →
  ∃ m e, of_int (F:=f64) n = S754_finite false m e
         ∧ of_int (F:=f64) (2 * n) = S754_finite false m (e + 1).
Proof.
  intros Hn Hlt. destruct n as [|p|p]; try lia.
  change (2 * Z.pos p) with (Z.pos p~0) in *.
  pose proof (digits2_pos_lower p~0) as Hlow. simpl digits2_pos in Hlow.
  assert (Hd : Z.pos (digits2_pos p) < 53).
  { destruct (Z.lt_ge_cases (Z.pos (digits2_pos p)) 53) as [|Hge]; [done|].
    assert (2 ^ 53 ≤ 2 ^ (Z.pos (Pos.succ (digits2_pos p)) - 1))
      by (apply Z.pow_le_mono_r; lia). lia. }
  cbn [of_int binary64]. unfold binary_normalize, binary_round.
  simpl digits2_pos.
  assert (Hf : fexp 53 1024 (Z.pos (digits2_pos p) + 0)
               = Z.pos (digits2_pos p) - 53) by (unfold fexp, emin; lia).
  assert (Hf2 : fexp 53 1024 (Z.pos (Pos.succ (digits2_pos p)) + 0)
                = Z.pos (digits2_pos p) - 53 + 1) by (unfold fexp, emin; lia).
  rewrite Hf, Hf2. unfold shl_align. rewrite !Z.sub_0_r.
  destruct (Z.pos (digits2_pos p) - 53) as [|k|k] eqn:E; try lia.
  destruct (Z.neg k + 1) as [|k'|k'] eqn:E'; try lia.
  - (* the doubled mantissa has exactly 53 bits *)
    assert (k = 1%positive) by lia. subst k.
    exists (p~0)%positive, (-1). change (-1 + 1) with 0. split.
    + change (Pos.iter xO p 1) with (p~0)%positive.
      apply binary_round_aux_exact; [simpl digits2_pos; lia|lia].
    + apply binary_round_aux_exact; [simpl digits2_pos; lia|lia].
  - exists (Pos.iter xO p k), (Z.neg k). rewrite E'. split.
    + apply binary_round_aux_exact; [rewrite digits2_pos_iter_xO; lia|lia].
    + assert (k = Pos.succ k') as -> by lia.
      rewrite Pos.iter_succ, <- iter_xO_double.
      apply binary_round_aux_exact; [|lia].
      rewrite digits2_pos_iter_xO. simpl digits2_pos. lia.
Qed.

Lemma distinct_app_self y : distinct (y ++ y) ≡ₚ distinct y.
Proof.
  unfold distinct. apply NoDup_Permutation; try apply NoDup_remove_dups.
  intros v. rewrite !elem_of_remove_dups, elem_of_app. tauto.
Qed.

Lemma frequencies_double y :
  2 * Z.of_nat (length y) < 2 ^ 53 →
  frequencies (F:=f64) (y ++ y) = frequencies (F:=f64) y.
Proof.
  intros Hlen. unfold frequencies.
  rewrite !np_unique_counts, !np_unique_values.
  rewrite (np_sort_unique _ _ (distinct_app_self y)).
  unfold np_true_divide. rewrite <- !list_fmap_compose.
  apply Forall_fmap_ext, Forall_forall. intros v Hv. unfold compose.
  rewrite np_sort_Permutation in Hv. unfold distinct in Hv.
  rewrite elem_of_remove_dups in Hv.
  rewrite count_app, length_app, Nat2Z.inj_add.
  replace (count v y + count v y) with (2 * count v y) by lia.
  replace (Z.of_nat (length y) + Z.of_nat (length y))
    with (2 * Z.of_nat (length y)) by lia.
  assert (Hc : 0 < count v y) by (by apply count_elem_of).
  assert (Hcn : count v y ≤ Z.of_nat (length y)).
  { clear. induction y as [|x y IH]; simpl; [lia|]. destruct (x =? v); lia. }
  destruct (of_int_double (count v y)) as (m1 & e1 & -> & ->); [lia|lia|].
  destruct (of_int_double (Z.of_nat (length y))) as (m2 & e2 & -> & ->);
    [lia|lia|].
  cbn [fdiv binary64]. apply SFdiv_double.
Qed.

End repetition.

(** X5. Repeating the sample leaves the impurity unchanged: in exact
    arithmetic [gini (y * m)] equals [gini y] for every [m >= 1], and in
    binary64 [gini (y + y)] equals [gini y] bit for bit (for fewer than
    2^52 labels). *)
Theorem gini_repeat_sample (y : list Z) (m : nat) :
  y ≠ [] → (0 < m)%nat →
  (gini (F:=Q) (repeat_sample m y) == gini (F:=Q) y)%Q
  ∧ (2 * Z.of_nat (length y) < 2 ^ 53 →
     gini (F:=f64) (y ++ y) = gini (F:=f64) y).
Proof.
  intros Hy Hm. split.
  - rewrite !gini_exact_sum.
    apply gini_formula_same_frequencies; [done| |].
    + intros E. apply (f_equal length) in E.
      rewrite length_repeat_sample in E. destruct y; [done|].
      simpl length in E. lia.
    + intros i. by apply frequency_repeat_sample.
  - intros Hlen. by rewrite !gini_frequencies, frequencies_double.
Qed.

Lemma gini_repeat_sample_witness :
  [0; 1; 1] ≠ [] ∧ (0 < 3)%nat
  ∧ (gini (F:=Q) (repeat_sample 3 [0; 1; 1]%Z) == gini (F:=Q) [0; 1; 1]%Z)%Q
  ∧ gini (F:=f64) ([0; 1; 1] ++ [0; 1; 1]) = gini (F:=f64) [0; 1; 1].
Proof.
  assert (Hy : [0; 1; 1] ≠ @nil Z) by discriminate.
  assert (Hm : (0 < 3)%nat) by lia.
  split; [exact Hy|]. split; [exact Hm|].
  destruct (gini_repeat_sample [0; 1; 1] 3 Hy Hm) as [HQ HF].
  split; [exact HQ|]. apply HF. vm_compute. reflexivity.
Defined.


(** * Merging classes *)

Section merging.

Lemma total_app a b : total (a ++ b) = total a + total b.
Proof. induction a as [|x a IH]; [done|]. simpl app. rewrite !total_cons, IH. lia. Qed.

Lemma total_Permutation a b : a ≡ₚ b → total a = total b.
Proof. induction 1; rewrite ?total_cons; lia. Qed.

Lemma sumsq_Permutation a b : a ≡ₚ b → sumsq a = sumsq b.
Proof. induction 1; rewrite ?sumsq_cons; lia. Qed.

Lemma total_fmap_le {A} (g h : A → Z) l :
  (∀ x, g x ≤ h x) → total (g <$> l) ≤ total (h <$> l).
Proof.
  intros Hgh. induction l as [|x l IH]; [done|].
  rewrite !fmap_cons, !total_cons. specialize (Hgh x). lia.
Qed.

(** The label [a] selects one term of a sum over distinct labels. *)
Lemma total_indicator (g : Z → Z) a D :
  NoDup D →
  total ((λ i, (if a =? i then 1 else 0) * g i) <$> D)
  = if decide (a ∈ D) then g a else 0.
Proof.
  induction 1 as [|x D Hx _ IH]; [done|].
  rewrite fmap_cons, total_cons, IH.
  destruct (Z.eqb_spec a x) as [->|Hne]; repeat case_decide;
    rewrite ?elem_of_cons in *; try lia; exfalso; tauto.
Qed.

(** A sum over the sample, grouped by label. *)
Lemma total_grouped (g : Z → Z) y :
  total (g <$> y) = total ((λ i, count i y * g i) <$> distinct y).
Proof.
  induction y as [|a y IH]; [done|].
  rewrite fmap_cons, total_cons, IH.
  assert (Hsplit : ∀ D,
    total ((λ i, count i (a :: y) * g i) <$> D)
    = total ((λ i, (if a =? i then 1 else 0) * g i) <$> D)
      + total ((λ i, count i y * g i) <$> D)).
  { intros D. induction D as [|x D IHD]; [done|].
    rewrite !fmap_cons, !total_cons, IHD. simpl count. lia. }
  rewrite Hsplit. unfold distinct. simpl remove_dups.
  destruct (decide_rel elem_of a y) as [Hin|Hni].
  - rewrite total_indicator by apply NoDup_remove_dups.
    rewrite decide_True by (by apply elem_of_remove_dups). lia.
  - rewrite total_indicator.
    2:{ constructor; [by rewrite elem_of_remove_dups|apply NoDup_remove_dups]. }
    rewrite decide_True by left.
    rewrite fmap_cons, total_cons, (count_not_elem_of a y Hni). lia.
Qed.

(** The sum of the squared counts is the number of ordered pairs of
    positions of the sample that carry the same label. *)
Lemma sumsq_pairs y : sumsq (np_unique y).2 = total ((λ x, count x y) <$> y).
Proof.
  rewrite (sumsq_Permutation _ _ (np_unique_counts_Permutation y)).
  rewrite total_grouped. generalize (distinct y). intros D.
  induction D as [|x D IH]; [done|].
  by rewrite !fmap_cons, sumsq_cons, total_cons, IH.
Qed.

Lemma count_fmap_le (f : Z → Z) i y : count i y ≤ count (f i) (f <$> y).
Proof.
  induction y as [|x y IH]; [done|].
  rewrite fmap_cons. simpl count.
  destruct (Z.eqb_spec x i) as [->|Hne].
  - rewrite Z.eqb_refl. lia.
  - destruct (f x =? f i); lia.
Qed.

Lemma sumsq_merge (f : Z → Z) y :
  sumsq (np_unique y).2 ≤ sumsq (np_unique (f <$> y)).2.
Proof.
  rewrite !sumsq_pairs, <- list_fmap_compose.
  apply total_fmap_le. intros x. apply count_fmap_le.
Qed.

End merging.

(** Merging classes of an array never increases the exact value. *)
Lemma gini_exact_merge (f : Z → Z) (y : list Z) :
  y ≠ [] → (gini (F:=Q) (f <$> y) <= gini (F:=Q) y)%Q.
Proof.
  intros Hy.
  assert (Hfy : f <$> y ≠ []) by (by destruct y).
  rewrite (gini_exact_fraction y Hy), (gini_exact_fraction (f <$> y) Hfy).
  rewrite length_fmap. cbv zeta.
  set (n := Z.of_nat (length y)).
  assert (Hn : 0 < n) by (subst n; destruct y; [done|simpl length; lia]).
  pose proof (inject_Z_pos (n * n) ltac:(nia)) as HN.
  pose proof (sumsq_merge f y) as Hle. rewrite Zle_Qle in Hle.
  assert (Hdiv : (inject_Z (sumsq (np_unique y).2) / inject_Z (n * n)
                  <= inject_Z (sumsq (np_unique (f <$> y)).2) / inject_Z (n * n))%Q).
  { apply Qle_shift_div_l; [done|].
    unfold Qdiv. rewrite <- Qmult_assoc, (Qmult_comm (/ _)), Qmult_inv_r, Qmult_1_r;
      [done|]. apply inject_Z_nonzero. nia. }
  lra.
Qed.

(** X6. Merging classes never increases the impurity: for every
    non-empty list [y] whose labels the conversion to an array keeps, and
    every function [f] on the label values, injective or not, whatever the
    conversion does to [map f y], the exact value of [gini(map f y)] is
    at most that of [gini(y)]. *)
Theorem gini_merge_classes (f : Z → Z) (y : list Z) :
  y ≠ [] → labels_kept y →
  (gini (F:=Q) (np_asanyarray (f <$> y)) <= gini (F:=Q) (np_asanyarray y))%Q.
Proof.
  intros Hy Hk. rewrite (gini_asanyarray y Hk).
  unfold np_asanyarray at 1. rewrite <- list_fmap_compose.
  by apply gini_exact_merge.
Qed.

Lemma gini_merge_classes_witness :
  [0; 1; 2; 2] ≠ [] ∧ labels_kept [0; 1; 2; 2]
  ∧ (gini (F:=Q) (np_asanyarray ((λ x, x / 2)%Z <$> [0; 1; 2; 2]%Z))
     <= gini (F:=Q) (np_asanyarray [0; 1; 2; 2]%Z))%Q.
Proof.
  assert (Hy : [0; 1; 2; 2] ≠ @nil Z) by discriminate.
  assert (Hk : labels_kept [0; 1; 2; 2]).
  { apply labels_kept_int64. repeat constructor; lia. }
  split; [exact Hy|]. split; [exact Hk|].
  exact (gini_merge_classes (λ x, x / 2) [0; 1; 2; 2] Hy Hk).
Defined.

(** * The cell on the range *)

Section range_cell.
Local Open Scope Q_scope.

Lemma Qsum_replicate n x : Qsum (replicate n x) == inject_Z (Z.of_nat n) * x.
Proof.
  induction n as [|n IH].
  { change (replicate 0 x) with (@nil Q). rewrite Qsum_nil.
    change (inject_Z (Z.of_nat 0)) with 0. ring. }
  rewrite replicate_S, Qsum_cons, IH, Nat2Z.inj_succ. unfold Z.succ.
  rewrite inject_Z_plus. ring.
Qed.

End range_cell.

(** X7. For every [k >= 1] the two numbers the range cell prints are, in
    exact arithmetic, the same number [1/k]: the squares of [k] equal
    probabilities add up to [1/k], which leaves [(k-1)/k] for the impurity
    of a uniform distribution. *)
Theorem range_demo_exact (k : Z) :
  1 ≤ k →
  ∃ s r : Q,
    range_demo k = Printed s r
    ∧ (s == 1 / inject_Z k)%Q
    ∧ (r == 1 / inject_Z k)%Q
    ∧ (1 - s == (inject_Z k - 1) / inject_Z k)%Q.
Proof.
  intros Hk. unfold range_demo.
  destruct (Z.eqb_spec k 0); [lia|]. destruct (Z.ltb_spec k 0); [lia|].
  eexists _, _. split; [reflexivity|].
  pose proof (inject_Z_nonzero k ltac:(lia)) as Hk'.
  assert (Hs : (np_sum (np_square (np_full (Z.to_nat k)
                  (fdiv (of_int 1) (of_int k)))) == 1 / inject_Z k)%Q).
  { rewrite np_sum_exact. unfold np_square, np_full.
    rewrite fmap_replicate, Qsum_replicate, Z2Nat.id by lia.
    cbn [fmul fdiv of_int rational]. change (inject_Z 1) with 1%Q.
    field. done. }
  split; [exact Hs|]. split; [reflexivity|].
  rewrite Hs. field. done.
Qed.

Lemma range_demo_exact_witness :
  1 ≤ 1000
  ∧ ∃ s r : Q,
      range_demo 1000 = Printed s r ∧ (s == 1 / inject_Z 1000)%Q.
Proof.
  assert (Hk : 1 ≤ 1000) by lia.
  split; [exact Hk|].
  destruct (range_demo_exact 1000 Hk) as (s & r & E & Hs & _).
  exists s, r. split; [exact E|exact Hs].
Defined.

(** * The majority vote *)

Section vote.

Lemma mode_loop a S : ∀ P old,
  StronglySorted Z.lt (P ++ S) →
  (∀ x, x ∈ S → 0 < count x a) →
  mode_found a P old →
  mode_found a (P ++ S) (foldl (mode_step a) old S).
Proof.
  induction S as [|s S IH]; intros P old Hs Hpos Hinv.
  - by rewrite app_nil_r.
  - cbn [foldl]. replace (P ++ s :: S) with ((P ++ [s]) ++ S)
      by (by rewrite <- app_assoc).
    apply IH.
    + by rewrite <- app_assoc.
    + intros x Hx. apply Hpos. by right.
    + assert (Hps : ∀ x, x ∈ P → x < s).
      { intros x Hx.
        apply (StronglySorted_app_1_elem_of Z.lt P (s :: S)); [done|done|left]. }
      assert (Hs0 : 0 < count s a) by (apply Hpos; left).
      destruct old as [m c]. unfold mode_step. right. cbn [fst snd].
      destruct Hinv as [[-> [= -> ->]]|(Hm & Hc & Hall)]; cbn [fst snd] in *.
      * destruct (Z.ltb_spec 0 (count s a)); [|lia]. cbn [fst snd].
        split; [by apply list_elem_of_singleton|]. split; [lia|].
        intros x ->%list_elem_of_singleton. lia.
      * destruct (Z.ltb_spec c (count s a)) as [Hlt|Hge]; cbn [fst snd].
        -- split; [apply elem_of_app; right; left|]. split; [lia|].
           intros x [Hx| ->%list_elem_of_singleton]%elem_of_app; [|lia].
           destruct (Hall x Hx). lia.
        -- split; [apply elem_of_app; by left|]. split; [lia|].
           intros x [Hx| ->%list_elem_of_singleton]%elem_of_app.
           ++ destruct (Hall x Hx). split; [lia|]. intros E. apply H0. lia.
           ++ split; [lia|]. intros _. specialize (Hps m Hm). lia.
Qed.

Lemma mode_spec a :
  a ≠ [] →
  ∃ m c, mode a = ([m], [c])
    ∧ m ∈ a ∧ c = count m a
    ∧ (∀ x, count x a ≤ c)
    ∧ (∀ x, count x a = c → m ≤ x).
Proof.
  intros Ha. unfold mode. destruct a as [|a0 a']; [done|].
  set (a := a0 :: a') in *.
  pose proof (mode_loop a (np_unique a).1 [] (0, 0)) as Hloop.
  destruct (foldl (mode_step a) (0, 0) (np_unique a).1) as [m c].
  exists m, c. split; [done|].
  destruct Hloop as [[E _]|(Hm & Hc & Hall)]; cbn [fst snd app] in *.
  - apply np_unique_values_sorted.
  - intros x Hx. apply count_elem_of. by rewrite <- elem_of_np_unique.
  - by left.
  - assert (H0 : a0 ∈ (np_unique a).1) by (rewrite elem_of_np_unique; left).
    rewrite E in H0. by apply elem_of_nil in H0.
  - rewrite elem_of_np_unique in Hm.
    assert (Hc0 : 0 < c) by (rewrite Hc; by apply count_elem_of).
    split; [done|]. split; [done|]. split.
    + intros x. destruct (decide (x ∈ a)) as [Hx|Hx].
      * apply Hall. by rewrite elem_of_np_unique.
      * rewrite (count_not_elem_of x a Hx). lia.
    + intros x Hx. apply Hall; [|done].
      rewrite elem_of_np_unique. apply count_pos_iff. lia.
Qed.

Lemma count_le_length i y : count i y ≤ Z.of_nat (length y).
Proof. induction y as [|x y IH]; simpl; [lia|]. destruct (x =? i); lia. Qed.

(** With [c] the largest count: [n <= k c] and [sum of squares <= c n]. *)
Lemma max_count_bounds cs c :
  Forall (λ x, 0 ≤ x ≤ c) cs →
  total cs ≤ Z.of_nat (length cs) * c ∧ sumsq cs ≤ c * total cs.
Proof.
  induction 1 as [|x cs Hx _ [IH1 IH2]]; [cbn; lia|].
  rewrite total_cons, sumsq_cons. simpl length. nia.
Qed.

End vote.

(** X8. On a non-empty array [mode] returns one value and its count: a
    value of the array whose number of occurrences is the largest, and the
    smallest such value when several occur equally often. *)
Theorem mode_most_frequent (a : list Z) :
  a ≠ [] →
  ∃ m c, mode a = ([m], [c])
    ∧ m ∈ a ∧ c = count m a ∧ 0 < c
    ∧ (∀ x, count x a ≤ c)
    ∧ (∀ x, count x a = c → m ≤ x).
Proof.
  intros Ha. destruct (mode_spec a Ha) as (m & c & E & Hm & Hc & Hmax & Hmin).
  exists m, c. repeat split; try done.
  rewrite Hc. by apply count_elem_of.
Qed.

Lemma mode_most_frequent_witness :
  [2; 0; 2; 0; 1] ≠ []
  ∧ ∃ m c, mode [2; 0; 2; 0; 1] = ([m], [c]) ∧ m ∈ [2; 0; 2; 0; 1].
Proof.
  assert (Ha : [2; 0; 2; 0; 1] ≠ @nil Z) by discriminate.
  split; [exact Ha|].
  destruct (mode_most_frequent [2; 0; 2; 0; 1] Ha) as (m & c & E & Hm & _).
  exists m, c. split; [exact E|exact Hm].
Defined.

(** X9. On a non-empty array of votes the cell [Play] shows, in exact
    arithmetic, the frequency of the most frequent label: no label has a
    larger frequency, it lies between [1/k] and 1, and it is at least
    [1 - gini], the sum of the squared frequencies. *)
Theorem majority_vote_share (y : list Z) :
  y ≠ [] →
  ∃ (m : Z) (share : Q),
    majority_vote y = Voted m share
    ∧ m ∈ y
    ∧ (share == frequency m y)%Q
    ∧ (∀ i, (frequency i y <= share)%Q)
    ∧ (1 / inject_Z (n_classes y) <= share)%Q
    ∧ (share <= 1)%Q
    ∧ (1 - gini (F:=Q) y <= share)%Q.
Proof.
  intros Hy. destruct (mode_spec y Hy) as (m & c & E & Hm & Hc & Hmax & _).
  unfold majority_vote. rewrite E. cbn [fst].
  eexists m, _. split; [reflexivity|]. split; [done|].
  cbn [fdiv of_int rational]. fold (frequency m y).
  destruct (gini_exact_data y Hy) as (Hn & Hk & Hlen & Htot & Hpos & Eg).
  set (cs := (np_unique y).2) in *. set (n := Z.of_nat (length y)) in *.
  pose proof (inject_Z_pos n Hn) as Hn'.
  pose proof (inject_Z_pos (n_classes y) ltac:(lia)) as Hk'.
  assert (Hcs : Forall (λ x, 0 ≤ x ≤ c) cs).
  { subst cs. rewrite np_unique_counts. apply Forall_fmap, Forall_forall.
    intros v _. simpl. pose proof (count_nonneg v y). specialize (Hmax v). lia. }
  destruct (max_count_bounds cs c Hcs) as [Hnk Hsq].
  rewrite Hlen, Htot in Hnk. rewrite Htot in Hsq.
  pose proof (count_le_length m y) as Hcn. fold n in Hcn. rewrite <- Hc in Hcn.
  unfold frequency. fold n. rewrite <- Hc.
  split; [reflexivity|]. split; [|split; [|split]].
  - intros i. apply Qle_shift_div_l; [done|].
    unfold Qdiv. rewrite <- Qmult_assoc, (Qmult_comm (/ _)), Qmult_inv_r, Qmult_1_r
      by (apply inject_Z_nonzero; lia).
    rewrite <- Zle_Qle. apply Hmax.
  - apply Qle_shift_div_l; [done|]. unfold Qdiv. rewrite Qmult_1_l.
    rewrite Qmult_comm. apply Qle_shift_div_r; [done|].
    rewrite <- inject_Z_mult, <- Zle_Qle. lia.
  - apply Qle_shift_div_r; [done|]. rewrite Qmult_1_l. by rewrite <- Zle_Qle.
  - rewrite Eg.
    assert (Hfr : (inject_Z (sumsq cs) / inject_Z (n * n)
                   <= inject_Z c / inject_Z n)%Q).
    { apply Qle_shift_div_r; [apply inject_Z_pos; nia|].
      rewrite inject_Z_mult. unfold Qdiv.
      rewrite <- Qmult_assoc, (Qmult_assoc (/ _)), (Qmult_comm (/ _)), Qmult_inv_r,
        Qmult_1_l by (apply inject_Z_nonzero; lia).
      rewrite <- inject_Z_mult, <- Zle_Qle. lia. }
    lra.
Qed.

Lemma majority_vote_share_witness :
  [0; 0; 1; 1; 1] ≠ []
  ∧ ∃ (m : Z) (share : Q),
      majority_vote [0; 0; 1; 1; 1] = Voted m share
      ∧ (1 - gini (F:=Q) [0; 0; 1; 1; 1]%Z <= share)%Q.
Proof.
  assert (Hy : [0; 0; 1; 1; 1] ≠ @nil Z) by discriminate.
  split; [exact Hy|].
  destruct (majority_vote_share [0; 0; 1; 1; 1] Hy)
    as (m & share & E & _ & _ & _ & _ & _ & Hg).
  exists m, share. split; [exact E|exact Hg].
Defined.

(** With two classes the exact value is [2 p (1 - p)]. *)
Lemma gini_exact_two_classes (y : list Z) (i : Z) :
  n_classes y = 2 → i ∈ y →
  (gini (F:=Q) y == 2 * frequency i y * (1 - frequency i y))%Q.
Proof.
  intros Hk Hi.
  assert (Hy : y ≠ []). { intros ->. by apply elem_of_nil in Hi. }
  destruct (gini_exact_data y Hy) as (Hn & _ & Hlen & Htot & _ & Eg).
  pose proof (np_unique_counts y) as Hcs.
  rewrite <- elem_of_np_unique in Hi.
  destruct (np_unique y) as [u cs]. cbn [fst snd] in *.
  rewrite Hk in Hlen. subst cs. rewrite length_fmap in Hlen.
  destruct u as [|u1 [|u2 [|? ?]]]; simpl length in Hlen; try lia.
  rewrite !fmap_cons, fmap_nil in Htot, Eg.
  rewrite !total_cons in Htot. change (total []) with 0 in Htot.
  rewrite !sumsq_cons in Eg. change (sumsq []) with 0 in Eg.
  set (n := Z.of_nat (length y)) in *.
  pose proof (inject_Z_nonzero n ltac:(lia)) as Hn'.
  rewrite Eg. unfold frequency. fold n.
  assert (En : (inject_Z n == inject_Z (count u1 y) + inject_Z (count u2 y))%Q).
  { rewrite <- inject_Z_plus, inject_Z_injective. lia. }
  rewrite !inject_Z_plus, !inject_Z_mult. change (inject_Z 0) with 0%Q.
  apply elem_of_cons in Hi as [->|Hi];
    [|apply list_elem_of_singleton in Hi as ->];
    field_simplify_eq; try done; rewrite En; ring.
Qed.

(** X10. For two classes the impurity is [2 p (1 - p)]: when [y] has
    exactly two distinct labels, the exact value of [gini y] is twice the
    product of the frequency of either label and of its complement; and so
    is the exact value of [gini] called on the list [y], when the
    conversion to an array keeps the two labels apart. *)
Theorem gini_two_classes (y : list Z) (i : Z) :
  n_classes y = 2 → i ∈ y →
  (gini (F:=Q) y == 2 * frequency i y * (1 - frequency i y))%Q
  ∧ (labels_kept y →
     (gini (F:=Q) (np_asanyarray y)
      == 2 * frequency i y * (1 - frequency i y))%Q).
Proof.
  intros Hk Hi. pose proof (gini_exact_two_classes y i Hk Hi) as E.
  split; [exact E|]. intros Hkept. by rewrite gini_asanyarray.
Qed.

Lemma gini_two_classes_witness :
  n_classes [0; 0; 0; 1] = 2 ∧ 0 ∈ [0; 0; 0; 1]
  ∧ (gini (F:=Q) [0; 0; 0; 1]%Z
     == 2 * frequency 0 [0; 0; 0; 1]%Z * (1 - frequency 0 [0; 0; 0; 1]%Z))%Q
  ∧ (gini (F:=Q) (np_asanyarray [0; 0; 0; 1]%Z)
     == 2 * frequency 0 [0; 0; 0; 1]%Z * (1 - frequency 0 [0; 0; 0; 1]%Z))%Q.
Proof.
  assert (Hk : n_classes [0; 0; 0; 1] = 2) by (vm_compute; reflexivity).
  assert (Hi : 0 ∈ [0; 0; 0; 1]) by left.
  split; [exact Hk|]. split; [exact Hi|].
  destruct (gini_two_classes [0; 0; 0; 1] 0 Hk Hi) as [H1 H2].
  split; [exact H1|]. apply H2.
  apply labels_kept_int64. repeat constructor; lia.
Defined.
